(** * icaruscode: CRT/TPC time matching and CRT front-end coincidence

    A shallow embedding of

    - [icaruscode/CRT/CRTUtils/CRTT0MatchAlg.cc]: the drift-window
      estimator, the two distance-of-closest-approach scorers, the
      candidate loop and the best-candidate selection;
    - [CRTDetSim::produce] (CRTDetSim_module.cc): the per-tagger
      coincidence / dead-time loop, the channel numbering, and the
      functions that read the type and the region of a module off its
      name;
    - [RecoUtils]: the track of a hit, the track of most hits, and the
      test of a position against the TPCs.

    The C++ code computes on [double].  The embedding is written once,
    over an interface [DoubleOps] of the operations the code uses, and is
    run on two carriers:

    - [XReal.xreal]: a finite real, an infinity or NaN, with exact
      arithmetic on the finite part and IEEE-754 rules for the special
      values (no rounding, no overflow, one zero).  General statements
      that need arithmetic are proved on this carrier.
    - [IEEE.float]: Rocq's primitive binary64 numbers, on which every
      definition evaluates. *)

From Stdlib Require Import Reals Lra Lia List ZArith Bool Floats QArith Qreals Qabs
  Sorted.
From Stdlib Require Ascii String.
Import ListNotations.

Set Implicit Arguments.

(** ** The operations on [double] used by the sources *)

Class DoubleOps (D : Type) : Type := {
  dadd : D -> D -> D;
  dsub : D -> D -> D;
  dmul : D -> D -> D;
  ddiv : D -> D -> D;
  dneg : D -> D;
  dabs : D -> D;                 (* std::abs *)
  dsqrt : D -> D;                (* sqrt, as used by TVector3::Mag *)
  dtofloat : D -> D;             (* (float)x, read back as a double *)
  dlt : D -> D -> bool;          (* a < b *)
  dle : D -> D -> bool;          (* a <= b *)
  deq : D -> D -> bool;          (* a == b *)
  dofZ : Z -> D;                 (* conversion of an integer value *)
  dlit : Q -> D;                 (* a decimal literal such as 1e-3 *)
  dfloorZ : D -> Z;              (* (int)floor(x) *)
  dtruncZ : D -> Z               (* (int)x *)
}.

Definition dgt {D} `{DoubleOps D} (a b : D) : bool := dlt b a.   (* a > b *)
Definition dge {D} `{DoubleOps D} (a b : D) : bool := dle b a.   (* a >= b *)
Definition dne {D} `{DoubleOps D} (a b : D) : bool := negb (deq a b). (* a != b *)

(** The value [(int)x] takes on x86-64 when [x] is NaN, infinite or past
    the range of [int] (the conversion is undefined in C++). *)
Definition INT_MIN : Z := (-2147483648)%Z.
Definition INT_MAX : Z := 2147483647%Z.

(** [(int)x] for [x] of integral value [z]. *)
Definition to_int (z : Z) : Z :=
  if (INT_MIN <=? z)%Z && (z <=? INT_MAX)%Z then z else INT_MIN.

(** ** Exact extended reals *)

Module XReal.

Local Open Scope R_scope.

Inductive xreal : Type :=
| Fin (x : R)
| PInf
| NInf
| NaN.

Definition Rltb (a b : R) : bool := if Rlt_dec a b then true else false.
Definition Rleb (a b : R) : bool := if Rle_dec a b then true else false.
Definition Reqb (a b : R) : bool := if Req_dec_T a b then true else false.

Definition xneg (a : xreal) : xreal :=
  match a with
  | Fin x => Fin (- x)
  | PInf => NInf
  | NInf => PInf
  | NaN => NaN
  end.

Definition xadd (a b : xreal) : xreal :=
  match a, b with
  | NaN, _ | _, NaN => NaN
  | Fin x, Fin y => Fin (x + y)
  | PInf, NInf | NInf, PInf => NaN
  | PInf, _ | _, PInf => PInf
  | NInf, _ | _, NInf => NInf
  end.

Definition xsub (a b : xreal) : xreal := xadd a (xneg b).

(** The infinity with the sign of [x], NaN when [x] is zero. *)
Definition signed_inf (x : R) (pos : bool) : xreal :=
  if Reqb x 0 then NaN
  else if Rltb 0 x then (if pos then PInf else NInf)
       else (if pos then NInf else PInf).

Definition xmul (a b : xreal) : xreal :=
  match a, b with
  | NaN, _ | _, NaN => NaN
  | Fin x, Fin y => Fin (x * y)
  | Fin x, PInf | PInf, Fin x => signed_inf x true
  | Fin x, NInf | NInf, Fin x => signed_inf x false
  | PInf, PInf | NInf, NInf => PInf
  | PInf, NInf | NInf, PInf => NInf
  end.

(** Division; a zero divisor counts as [+0]. *)
Definition xdiv (a b : xreal) : xreal :=
  match a, b with
  | NaN, _ | _, NaN => NaN
  | Fin x, Fin y => if Reqb y 0 then signed_inf x true else Fin (x / y)
  | Fin _, _ => Fin 0
  | PInf, Fin y => if Rltb y 0 then NInf else PInf
  | NInf, Fin y => if Rltb y 0 then PInf else NInf
  | _, _ => NaN
  end.

Definition xabs (a : xreal) : xreal :=
  match a with
  | Fin x => Fin (Rabs x)
  | PInf | NInf => PInf
  | NaN => NaN
  end.

Definition xsqrt (a : xreal) : xreal :=
  match a with
  | Fin x => if Rltb x 0 then NaN else Fin (R_sqrt.sqrt x)
  | PInf => PInf
  | NInf | NaN => NaN
  end.

Definition xlt (a b : xreal) : bool :=
  match a, b with
  | NaN, _ | _, NaN => false
  | Fin x, Fin y => Rltb x y
  | _, NInf => false
  | NInf, _ => true
  | PInf, _ => false
  | _, PInf => true
  end.

Definition xle (a b : xreal) : bool :=
  match a, b with
  | NaN, _ | _, NaN => false
  | Fin x, Fin y => Rleb x y
  | NInf, _ => true
  | _, PInf => true
  | _, NInf => false
  | PInf, _ => false
  end.

Definition xeq (a b : xreal) : bool :=
  match a, b with
  | Fin x, Fin y => Reqb x y
  | PInf, PInf | NInf, NInf => true
  | _, _ => false
  end.

Definition xfloorZ (a : xreal) : Z :=
  match a with Fin x => to_int (Zfloor x) | _ => INT_MIN end.

Definition xtruncZ (a : xreal) : Z :=
  match a with
  | Fin x => to_int (if Rltb x 0 then (- Zfloor (- x))%Z else Zfloor x)
  | _ => INT_MIN
  end.

#[export] Instance xreal_ops : DoubleOps xreal := {
  dadd := xadd; dsub := xsub; dmul := xmul; ddiv := xdiv;
  dneg := xneg; dabs := xabs; dsqrt := xsqrt;
  dtofloat := fun x => x;
  dlt := xlt; dle := xle; deq := xeq;
  dofZ := fun z => Fin (IZR z);
  dlit := fun q => Fin (Q2R q);
  dfloorZ := xfloorZ; dtruncZ := xtruncZ
}.

End XReal.

(** ** IEEE-754 binary64 *)

Module IEEE.

Definition ofZ (z : Z) : float := SF2Prim (binary_normalize 53 1024 z 0 false).

Definition integer_part (round_down : bool) (f : float) : Z :=
  match Prim2SF f with
  | S754_zero _ => 0%Z
  | S754_finite s m e =>
      let v := if s then Z.neg m else Z.pos m in
      to_int
        (if (0 <=? e)%Z then (v * 2 ^ e)%Z
         else if round_down then (v / 2 ^ (- e))%Z else (Z.quot v (2 ^ (- e)))%Z)
  | _ => INT_MIN
  end.

(** [(float)x]: the binary32 number nearest to [x] (ties to even), which
    is a binary64 number too. *)
Definition to_binary32 (f : float) : float :=
  match Prim2SF f with
  | S754_finite s m e =>
      SF2Prim (binary_normalize 24 128 (if s then Z.neg m else Z.pos m) e s)
  | _ => f
  end.

#[export] Instance float_ops : DoubleOps float := {
  dadd := PrimFloat.add; dsub := PrimFloat.sub;
  dmul := PrimFloat.mul; ddiv := PrimFloat.div;
  dneg := PrimFloat.opp; dabs := PrimFloat.abs; dsqrt := PrimFloat.sqrt;
  dtofloat := to_binary32;
  dlt := PrimFloat.ltb; dle := PrimFloat.leb; deq := PrimFloat.eqb;
  dofZ := ofZ;
  dlit := fun q => PrimFloat.div (ofZ (Qnum q)) (ofZ (Zpos (Qden q)));
  dfloorZ := integer_part true; dtruncZ := integer_part false
}.

End IEEE.

(** ** CRTT0MatchAlg.cc *)

Module CRTT0MatchAlg.

(** [std::vector::at] throws [std::out_of_range]; no other statement of
    the matching code throws. *)
Inductive result (A : Type) : Type :=
| Ok (a : A)
| OutOfRange.
Arguments OutOfRange {A}.

Definition bind {A B} (r : result A) (k : A -> result B) : result B :=
  match r with
  | Ok a => k a
  | OutOfRange => OutOfRange
  end.

Notation "x <- r ;; k" := (bind r (fun x => k))
  (at level 61, r at next level, right associativity).

(** [v.at(i)], the index computed in unsigned arithmetic: a negative [i]
    stands for the wrapped-around value, which is out of range too. *)
Definition at_ {A} (v : list A) (i : Z) : result A :=
  if (i <? 0)%Z then OutOfRange
  else match nth_error v (Z.to_nat i) with
       | Some a => Ok a
       | None => OutOfRange
       end.

Section Model.

Context {D : Type} `{DoubleOps D}.

Definition std_max (a b : D) : D := if dlt a b then b else a.
Definition std_min (a b : D) : D := if dlt b a then b else a.

(** *** ROOT's TVector3 (the members the code uses) *)

Record TVector3 : Type := mkVec { fX : D; fY : D; fZ : D }.

Definition vadd (a b : TVector3) : TVector3 :=
  mkVec (dadd (fX a) (fX b)) (dadd (fY a) (fY b)) (dadd (fZ a) (fZ b)).
Definition vsub (a b : TVector3) : TVector3 :=
  mkVec (dsub (fX a) (fX b)) (dsub (fY a) (fY b)) (dsub (fZ a) (fZ b)).
Definition vscale (k : D) (a : TVector3) : TVector3 :=
  mkVec (dmul k (fX a)) (dmul k (fY a)) (dmul k (fZ a)).
Definition Dot (a b : TVector3) : D :=
  dadd (dadd (dmul (fX a) (fX b)) (dmul (fY a) (fY b))) (dmul (fZ a) (fZ b)).
Definition Cross (a b : TVector3) : TVector3 :=
  mkVec (dsub (dmul (fY a) (fZ b)) (dmul (fY b) (fZ a)))
        (dsub (dmul (fZ a) (fX b)) (dmul (fZ b) (fX a)))
        (dsub (dmul (fX a) (fY b)) (dmul (fX b) (fY a))).
Definition Mag2 (a : TVector3) : D :=
  dadd (dadd (dmul (fX a) (fX a)) (dmul (fY a) (fY a))) (dmul (fZ a) (fZ a)).
Definition Mag (a : TVector3) : D := dsqrt (Mag2 a).
(** [TVector3::Unit]: the vector itself when its length is not positive. *)
Definition Unit (a : TVector3) : TVector3 :=
  let tot2 := Mag2 a in
  let tot := if dgt tot2 (dofZ 0) then ddiv (dofZ 1) (dsqrt tot2) else dofZ 1 in
  vscale tot a.

(** *** The records the matcher reads *)

(** sbn::crt::CRTHit, the members the matcher reads.  The two time stamps
    are taken as [double]. *)
Record CRTHit : Type := mkHit {
  peshit : D;
  ts0_ns : D;
  ts1_ns : D;
  x_pos : D; x_err : D;
  y_pos : D; y_err : D;
  z_pos : D; z_err : D
}.

(** A default-constructed hit. *)
Definition defaultHit : CRTHit :=
  mkHit (dofZ 0) (dofZ 0) (dofZ 0) (dofZ 0) (dofZ 0) (dofZ 0) (dofZ 0) (dofZ 0) (dofZ 0).

Record matchCand : Type := mkCand {
  thishit : CRTHit;
  t0 : D;
  dca : D;
  extrapLen : D
}.

(** recob::Track, as the accessors the matcher calls. *)
Record Track : Type := mkTrack {
  NumberTrajectoryPoints : nat;
  Vertex : TVector3;
  TrackEnd : TVector3;
  LocationAtPoint : Z -> TVector3;
  DirectionAtPoint : Z -> TVector3;
  FlagsAtPoint : Z -> Z;
  Length : D
}.

(** recob::TrajectoryPointFlags::InvalidHitIndex, the largest
    [unsigned int]. *)
Definition InvalidHitIndex : Z := 4294967295%Z.

(** The detector services: drift velocity, TPC lookup, space-charge
    offsets. *)
Record Services : Type := mkServices {
  DriftVelocity : D;
  EnableCalSpatialSCE : bool;
  PositionToTPCID : TVector3 -> Z;
  GetCalPosOffsets : TVector3 -> Z -> TVector3
}.

(** The members set by [reconfigure]. *)
Record Config : Type := mkConfig {
  fMinTrackLength : D;
  fTrackDirectionFrac : D;
  fDistanceLimit : D;
  fTSMode : Z;
  fTimeCorrection : D;
  fSCEposCorr : bool;
  fDirMethod : Z;
  fDCAuseBox : bool;
  fDCAoverLength : bool;
  fDoverLLimit : D;
  fPEcut : D;
  fMaxUncert : D
}.

Definition makeNULLmc : matchCand :=
  mkCand defaultHit (dofZ (-99999)) (dofZ (-99999)) (dofZ (-99999)).

(** *** TrackT0Range *)

Definition TrackT0Range (DriftVelocity : D) (startX endX : D)
    (driftDirection : Z) (xLimits : D * D) : D * D :=
  if (driftDirection =? 0)%Z then (dofZ 0, dofZ 0)
  else
    let Vd := dmul (dofZ driftDirection) DriftVelocity in
    let maxX := std_max startX endX in
    let maxLimit := std_max (fst xLimits) (snd xLimits) in
    let maxShift := dsub maxLimit maxX in
    let minX := std_min startX endX in
    let minLimit := std_min (fst xLimits) (snd xLimits) in
    let minShift := dsub minLimit minX in
    let t0max := ddiv maxShift Vd in
    let t0min := ddiv minShift Vd in
    (std_min t0min t0max, std_max t0min t0max).

(** *** The two distances of closest approach *)

Definition hitPos (hit : CRTHit) : TVector3 :=
  mkVec (x_pos hit) (y_pos hit) (z_pos hit).

Definition SimpleDCA (hit : CRTHit) (start direction : TVector3) : D :=
  let pos := hitPos hit in
  let end_ := vadd start direction in
  let denominator := Mag direction in
  let numerator := Mag (Cross (vsub pos start) (vsub pos end_)) in
  ddiv numerator denominator.

Definition smallNum : D := dlit (1 # 100000).

Definition LineSegmentDistance (start1 end1 start2 end2 : TVector3) : D :=
  let u := vsub end1 start1 in
  let v := vsub end2 start2 in
  let w := vsub start1 start2 in
  let a := Dot u u in
  let b := Dot u v in
  let c := Dot v v in
  let d := Dot u w in
  let e := Dot v w in
  let DD := dsub (dmul a c) (dmul b b) in
  let '(sN, sD, tN, tD) :=
    if dlt DD smallNum then (dofZ 0, dofZ 1, e, c)
    else
      let sN := ddiv (dsub (dmul b e) (dmul c d)) DD in
      let tN := ddiv (dsub (dmul a e) (dmul b d)) DD in
      if dlt sN (dofZ 0) then (dofZ 0, DD, e, c)
      else if dgt sN DD then (DD, DD, dadd e b, c)
      else (sN, DD, tN, DD) in
  let sc := if dlt (dabs sN) smallNum then dofZ 0 else ddiv sN sD in
  let tc := if dlt (dabs tN) smallNum then dofZ 0 else ddiv tN tD in
  let dP := vsub (vadd w (vscale sc u)) (vscale tc v) in
  Mag dP.

Definition sentinel : D := dofZ (-99999).
Definition noCrossing : TVector3 * TVector3 :=
  (mkVec sentinel sentinel sentinel, mkVec sentinel sentinel sentinel).

(** The parameters at which the line meets the two planes of one axis. *)
Definition slab (lo hi s inv : D) : D * D :=
  if dge inv (dofZ 0)
  then (dmul (dsub lo s) inv, dmul (dsub hi s) inv)
  else (dmul (dsub hi s) inv, dmul (dsub lo s) inv).

Definition CubeIntersection (min max start end_ : TVector3)
    : TVector3 * TVector3 :=
  let dir := vsub end_ start in
  let invDir := mkVec (ddiv (dofZ 1) (fX dir)) (ddiv (dofZ 1) (fY dir))
                      (ddiv (dofZ 1) (fZ dir)) in
  let '(tmin, tmax) := slab (fX min) (fX max) (fX start) (fX invDir) in
  let '(tymin, tymax) := slab (fY min) (fY max) (fY start) (fY invDir) in
  if dgt tmin tymax || dgt tymin tmax then noCrossing
  else
    let tmin := if dgt tymin tmin then tymin else tmin in
    let tmax := if dlt tymax tmax then tymax else tmax in
    let '(tzmin, tzmax) := slab (fZ min) (fZ max) (fZ start) (fZ invDir) in
    if dgt tmin tzmax || dgt tzmin tmax then noCrossing
    else
      let tmin := if dgt tzmin tmin then tzmin else tmin in
      let tmax := if dlt tzmax tmax then tzmax else tmax in
      (mkVec (dadd (fX start) (dmul tmin (fX dir)))
             (dadd (fY start) (dmul tmin (fY dir)))
             (dadd (fZ start) (dmul tmin (fZ dir))),
       mkVec (dadd (fX start) (dmul tmax (fX dir)))
             (dadd (fY start) (dmul tmax (fY dir)))
             (dadd (fZ start) (dmul tmax (fZ dir)))).

Definition DistToCrtHit (hit : CRTHit) (start end_ : TVector3) : D :=
  let min := mkVec (dsub (x_pos hit) (x_err hit)) (dsub (y_pos hit) (y_err hit))
                   (dsub (z_pos hit) (z_err hit)) in
  let max := mkVec (dadd (x_pos hit) (x_err hit)) (dadd (y_pos hit) (y_err hit))
                   (dadd (z_pos hit) (z_err hit)) in
  if dne (fX (fst (CubeIntersection min max start end_))) sentinel then dofZ 0
  else
    let xm := dsub (x_pos hit) (x_err hit) in
    let xp := dadd (x_pos hit) (x_err hit) in
    let ym := dsub (y_pos hit) (y_err hit) in
    let yp := dadd (y_pos hit) (y_err hit) in
    let zm := dsub (z_pos hit) (z_err hit) in
    let zp := dadd (z_pos hit) (z_err hit) in
    let vs := (mkVec (x_pos hit) ym zm, mkVec (x_pos hit) yp zm,
               mkVec (x_pos hit) ym zp, mkVec (x_pos hit) yp zp) in
    let vs :=
      if dlt (y_err hit) (x_err hit) && dlt (y_err hit) (z_err hit)
      then (mkVec xm (y_pos hit) zm, mkVec xp (y_pos hit) zm,
            mkVec xm (y_pos hit) zp, mkVec xp (y_pos hit) zp)
      else vs in
    let vs :=
      if dlt (z_err hit) (x_err hit) && dlt (z_err hit) (y_err hit)
      then (mkVec xm ym (z_pos hit), mkVec xp ym (z_pos hit),
            mkVec xm yp (z_pos hit), mkVec xp yp (z_pos hit))
      else vs in
    let '(vertex1, vertex2, vertex3, vertex4) := vs in
    let dist1 := LineSegmentDistance vertex1 vertex2 start end_ in
    let dist2 := LineSegmentDistance vertex1 vertex3 start end_ in
    let dist3 := LineSegmentDistance vertex4 vertex2 start end_ in
    let dist4 := LineSegmentDistance vertex4 vertex3 start end_ in
    std_min (std_min dist1 dist2) (std_min dist3 dist4).

(** *** Track directions *)

(** The space-charge correction of one point, as the code repeats it for
    every point it shifts. *)
Definition sceCorrect (cfg : Config) (svc : Services) (p : TVector3) : TVector3 :=
  if EnableCalSpatialSCE svc && fSCEposCorr cfg
  then vadd p (GetCalPosOffsets svc p (PositionToTPCID svc p))
  else p.

Definition shiftX (p : TVector3) (xshift : D) : TVector3 :=
  mkVec (dadd (fX p) xshift) (fY p) (fZ p).

(** The values [f i] of the trajectory points the loops keep: those whose
    flags compare equal to [InvalidHitIndex]. *)
Definition keptPoints (track : Track) (f : Z -> TVector3) : list TVector3 :=
  map f (filter (fun i => (FlagsAtPoint track i =? InvalidHitIndex)%Z)
                (map Z.of_nat (seq 0 (NumberTrajectoryPoints track)))).

Definition vzero : TVector3 := mkVec (dofZ 0) (dofZ 0) (dofZ 0).

(** The summing loop of TrackDirectionAverage: [n] iterations from [i]. *)
Fixpoint sumDirections (validDirections : list TVector3) (nValidPoints : Z)
    (i : Z) (n : nat) (totStart totEnd : TVector3)
    : result (TVector3 * TVector3) :=
  match n with
  | O => Ok (totStart, totEnd)
  | S n' =>
      dirStart <- at_ validDirections i ;;
      dirEnd <- at_ validDirections (nValidPoints - (i + 1)) ;;
      sumDirections validDirections nValidPoints (i + 1) n'
        (vadd totStart dirStart) (vadd totEnd dirEnd)
  end.

Definition TrackDirectionAverage (track : Track) (frac : D)
    : result (TVector3 * TVector3) :=
  let validDirections := keptPoints track (DirectionAtPoint track) in
  let nValidPoints := Z.of_nat (length validDirections) in
  let endPoint := dfloorZ (dmul (dofZ nValidPoints) frac) in
  tot <- sumDirections validDirections nValidPoints 0 (Z.to_nat endPoint)
           vzero vzero ;;
  let '(totStart, totEnd) := tot in
  let n := dofZ endPoint in
  Ok (mkVec (ddiv (dneg (fX totStart)) n) (ddiv (dneg (fY totStart)) n)
            (ddiv (dneg (fZ totStart)) n),
      mkVec (ddiv (fX totEnd) n) (ddiv (fY totEnd) n) (ddiv (fZ totEnd) n)).

(** [float norm = v.Mag(); if (norm>0) v *= (1.0/norm)] *)
Definition normalizeIfPositive (v : TVector3) : TVector3 :=
  let norm := dtofloat (Mag v) in
  if dgt norm (dofZ 0) then vscale (ddiv (dofZ 1) norm) v else v.

Definition TrackDirection (cfg : Config) (svc : Services) (track : Track)
    (frac : D) (CRTtime : D) (driftDirection : Z) : TVector3 * TVector3 :=
  let nTrackPoints := Z.of_nat (NumberTrajectoryPoints track) in
  let midPt := dfloorZ (dmul (dofZ nTrackPoints) frac) in
  let startP := Vertex track in
  let endP := TrackEnd track in
  let midP := LocationAtPoint track midPt in
  let xshift := dmul (dmul (dofZ driftDirection) CRTtime) (DriftVelocity svc) in
  let startPoint := sceCorrect cfg svc (shiftX startP xshift) in
  let endPoint := sceCorrect cfg svc (shiftX endP xshift) in
  let midPoint := sceCorrect cfg svc (shiftX midP xshift) in
  (normalizeIfPositive (vsub midPoint startPoint),
   normalizeIfPositive (vsub midPoint endPoint)).

Definition TrackDirectionAverageFromPoints (track : Track) (frac : D)
    : result (TVector3 * TVector3) :=
  let validPoints := keptPoints track (LocationAtPoint track) in
  let nValidPoints := Z.of_nat (length validPoints) in
  let endPoint := dfloorZ (dmul (dofZ nValidPoints) frac) in
  p0 <- at_ validPoints 0 ;;
  p1 <- at_ validPoints (endPoint - 1) ;;
  q0 <- at_ validPoints (nValidPoints - 1) ;;
  q1 <- at_ validPoints (nValidPoints - endPoint) ;;
  Ok (Unit (vsub p0 p1), Unit (vsub q0 q1)).

(** *** DistOfClosestApproach *)

Definition DistOfClosestApproach (cfg : Config) (svc : Services)
    (trackPos trackDir : TVector3) (crtHit : CRTHit) (driftDirection : Z)
    (t0 : D) : D :=
  let xshift := dmul (dmul (dofZ driftDirection) t0) (DriftVelocity svc) in
  let trackPos := sceCorrect cfg svc (shiftX trackPos xshift) in
  let end_ := vadd trackPos trackDir in
  if fDCAuseBox cfg then DistToCrtHit crtHit trackPos end_
  else SimpleDCA crtHit trackPos trackDir.

(** *** GetClosestCRTHit *)

(** Lines 406-407: the correction by one rollover period. *)
Definition rolloverCorrect (crtTime : D) : D :=
  if dlt crtTime (dofZ (-500000)) then dadd crtTime (dofZ 1000000)
  else if dgt crtTime (dofZ 500000) then dsub crtTime (dofZ 1000000)
  else crtTime.

(** Lines 398-412: the time of a hit, in microseconds. *)
Definition hitTime (cfg : Config) (crtHit : CRTHit) (trigger_timestamp : Z) : D :=
  if (fTSMode cfg =? 1)%Z
  then dmul (dofZ (dtruncZ (ts1_ns crtHit))) (dlit (1 # 1000))
  else rolloverCorrect
         (ddiv (dsub (ts0_ns crtHit) (dofZ (trigger_timestamp mod 1000000000)))
               (dofZ 1000)).

(** Lines 416-417: the negation of the condition that skips the hit. *)
Definition inT0Window (t0MinMax : D * D) (crtTime : D) : bool :=
  (dge crtTime (dsub (fst t0MinMax) (dofZ 10))
   && dle crtTime (dadd (snd t0MinMax) (dofZ 10)))
  || deq (fst t0MinMax) (snd t0MinMax).

(** Lines 425-428: a hit passes when none of the four cuts skips it. *)
Definition passesQualityCuts (cfg : Config) (crtHit : CRTHit) : bool :=
  negb (dlt (peshit crtHit) (fPEcut cfg))
  && negb (dgt (x_err crtHit) (fMaxUncert cfg))
  && negb (dgt (y_err crtHit) (fMaxUncert cfg))
  && negb (dgt (z_err crtHit) (fMaxUncert cfg)).

(** Lines 424-499: the rest of an iteration, for a hit whose time was
    accepted: the quality cuts, the two endpoint distances and the
    candidate pushed, if any. *)
Definition scoreHit (cfg : Config) (svc : Services) (tpcTrack : Track)
    (driftDirection : Z) (crtHit : CRTHit) (crtTime : D)
    : result (option matchCand) :=
  let start := Vertex tpcTrack in
  let end_ := TrackEnd tpcTrack in
  if negb (passesQualityCuts cfg crtHit) then Ok None
  else
    let crtPoint := hitPos crtHit in
    startEndDir <-
      (if (fDirMethod cfg =? 2)%Z
       then TrackDirectionAverage tpcTrack (fTrackDirectionFrac cfg)
       else Ok (TrackDirection cfg svc tpcTrack (fTrackDirectionFrac cfg)
                  crtTime driftDirection)) ;;
    let startDir := fst startEndDir in
    let endDir := snd startEndDir in
    let startDist :=
      DistOfClosestApproach cfg svc start startDir crtHit driftDirection crtTime in
    let endDist :=
      DistOfClosestApproach cfg svc end_ endDir crtHit driftDirection crtTime in
    let xshift := dmul (dmul (dofZ driftDirection) crtTime) (DriftVelocity svc) in
    let thisstart := sceCorrect cfg svc (shiftX start xshift) in
    let thisend := sceCorrect cfg svc (shiftX end_ xshift) in
    if dlt startDist (fDistanceLimit cfg) || dlt endDist (fDistanceLimit cfg)
    then
      let distS := Mag (vsub crtPoint thisstart) in
      let distE := Mag (vsub crtPoint thisend) in
      if dlt distS distE
      then Ok (Some (mkCand crtHit crtTime startDist distS))
      else Ok (Some (mkCand crtHit crtTime endDist distE))
    else Ok None.

(** One iteration of the loop over the hits (lines 396-500): the
    candidate it pushes, if any. *)
Definition hitCandidate (cfg : Config) (svc : Services) (tpcTrack : Track)
    (t0MinMax : D * D) (driftDirection : Z) (trigger_timestamp : Z)
    (crtHit : CRTHit) : result (option matchCand) :=
  let crtTime := hitTime cfg crtHit trigger_timestamp in
  if negb (inT0Window t0MinMax crtTime) then Ok None
  else scoreHit cfg svc tpcTrack driftDirection crtHit crtTime.

(** The loop over the hits: the candidates in the order pushed. *)
Fixpoint collectCandidates (cfg : Config) (svc : Services) (tpcTrack : Track)
    (t0MinMax : D * D) (driftDirection : Z) (trigger_timestamp : Z)
    (crtHits : list CRTHit) : result (list matchCand) :=
  match crtHits with
  | [] => Ok []
  | crtHit :: rest =>
      c <- hitCandidate cfg svc tpcTrack t0MinMax driftDirection
             trigger_timestamp crtHit ;;
      cs <- collectCandidates cfg svc tpcTrack t0MinMax driftDirection
              trigger_timestamp rest ;;
      Ok (match c with Some mc => mc :: cs | None => cs end)
  end.

(** Lines 510-514 and 517-521: the two selection loops, from the current
    [bestmatch]; [sin_angle] is computed once, before the loop. *)
Fixpoint selectByDCAoverLength (sin_angle : D) (bestmatch : matchCand)
    (cands : list matchCand) : matchCand :=
  match cands with
  | [] => bestmatch
  | thisCand :: rest =>
      let this_sin_angle := ddiv (dca thisCand) (extrapLen thisCand) in
      let bestmatch :=
        if dlt (dca bestmatch) (dofZ 0) then thisCand
        else if dlt this_sin_angle sin_angle && dge (dca thisCand) (dofZ 0)
             then thisCand
             else bestmatch in
      selectByDCAoverLength sin_angle bestmatch rest
  end.

Fixpoint selectByDCA (bestmatch : matchCand) (cands : list matchCand)
    : matchCand :=
  match cands with
  | [] => bestmatch
  | thisCand :: rest =>
      let bestmatch :=
        if dlt (dca bestmatch) (dofZ 0) then thisCand
        else if dlt (dca thisCand) (dca bestmatch) && dge (dca thisCand) (dofZ 0)
             then thisCand
             else bestmatch in
      selectByDCA bestmatch rest
  end.

(** Lines 504-526. *)
Definition selectBest (cfg : Config) (t0Candidates : list matchCand)
    : matchCand :=
  match t0Candidates with
  | [] => makeNULLmc
  | first :: _ =>
      let bestmatch := first in
      let sin_angle := ddiv (dca bestmatch) (extrapLen bestmatch) in
      if fDCAoverLength cfg
      then selectByDCAoverLength sin_angle bestmatch t0Candidates
      else selectByDCA bestmatch t0Candidates
  end.

Definition GetClosestCRTHit (cfg : Config) (svc : Services) (tpcTrack : Track)
    (t0MinMax : D * D) (crtHits : list CRTHit) (driftDirection : Z)
    (trigger_timestamp : Z) : result matchCand :=
  t0Candidates <- collectCandidates cfg svc tpcTrack t0MinMax driftDirection
                    trigger_timestamp crtHits ;;
  Ok (selectBest cfg t0Candidates).

(** The overload that derives the drift window itself; [driftDirection]
    and [xLimits] are what TPCGeoUtil returns for the track's hits. *)
Definition GetClosestCRTHit_hits (cfg : Config) (svc : Services)
    (tpcTrack : Track) (driftDirection : Z) (xLimits : D * D)
    (crtHits : list CRTHit) (trigger_timestamp : Z) : result matchCand :=
  let t0MinMax :=
    TrackT0Range (DriftVelocity svc) (fX (Vertex tpcTrack))
      (fX (TrackEnd tpcTrack)) driftDirection xLimits in
  GetClosestCRTHit cfg svc tpcTrack t0MinMax crtHits driftDirection
    trigger_timestamp.

Definition ClosestCRTHit (cfg : Config) (svc : Services) (tpcTrack : Track)
    (t0MinMax : D * D) (crtHits : list CRTHit) (driftDirection : Z)
    (trigger_timestamp : Z) : result (CRTHit * D) :=
  bestmatch <- GetClosestCRTHit cfg svc tpcTrack t0MinMax crtHits
                 driftDirection trigger_timestamp ;;
  Ok (thishit bestmatch, dca bestmatch).

Definition ClosestCRTHit_hits (cfg : Config) (svc : Services)
    (tpcTrack : Track) (driftDirection : Z) (xLimits : D * D)
    (crtHits : list CRTHit) (trigger_timestamp : Z) : result (CRTHit * D) :=
  let t0MinMax :=
    TrackT0Range (DriftVelocity svc) (fX (Vertex tpcTrack))
      (fX (TrackEnd tpcTrack)) driftDirection xLimits in
  ClosestCRTHit cfg svc tpcTrack t0MinMax crtHits driftDirection
    trigger_timestamp.

End Model.

End CRTT0MatchAlg.

(** ** CRTDetSim::produce: the coincidence loop over the taggers *)

Module CRTDetSim.

Section Model.

Context {D : Type} `{DoubleOps D}.

(** icarus::crt::CRTChannelData: channel, trigger ticks, PPS ticks, ADC. *)
Record CRTChannelData : Type := mkChannelData {
  Channel : Z;
  T0 : Z;
  T1 : Z;
  ADC : Z
}.

Definition SetADC (adc : Z) (c : CRTChannelData) : CRTChannelData :=
  mkChannelData (Channel c) (T0 c) (T1 c) adc.

(** [std::set<uint32_t>] as a list without repeats; only membership and
    size are read. *)
Definition uset : Type := list Z.

Definition set_mem (x : Z) (s : uset) : bool := existsb (Z.eqb x) s.

(** [s.insert(x)]: the new set, and [.second], whether [x] was new. *)
Definition set_insert (x : Z) (s : uset) : uset * bool :=
  if set_mem x s then (s, false) else (x :: s, true).

Record Tagger : Type := mkTagger {
  type : Ascii.ascii;
  reg : String.string;
  stackid : Z;
  layerid : uset;
  chanlayer : list (Z * Z);
  macPair : Z * Z;
  data : list CRTChannelData
}.

(** [chanlayer[ch]]: a missing key reads as the default value 0. *)
Definition chanlayer_at (t : Tagger) (ch : Z) : Z :=
  match find (fun kv => (fst kv =? ch)%Z) (chanlayer t) with
  | Some kv => snd kv
  | None => 0%Z
  end.

(** icarus::crt::CRTData, by its constructor's arguments. *)
Record CRTData : Type := mkCRTData {
  Mac5 : Z;
  Entry : Z;
  TTrig : D;
  ChanTrig : Z;
  TrigPair : Z * Z;
  MacPair : Z * Z;
  ChanData : list CRTChannelData
}.

(** The configuration members the loop reads, and the trigger clock's
    [Time]. *)
Record Params : Type := mkParams {
  fApplyCoincidenceC : bool;
  fApplyCoincidenceM : bool;
  fApplyCoincidenceD : bool;
  fLayerCoincidenceWindowC : D;
  fLayerCoincidenceWindowM : D;
  fLayerCoincidenceWindowD : D;
  fDeadTime : D;
  fBiasTime : D;
  Time : D -> D
}.

Definition is_type (t : Tagger) (c : Ascii.ascii) : bool := Ascii.eqb (type t) c.

Definition c_ : Ascii.ascii := Ascii.ascii_of_nat 99.
Definition d_ : Ascii.ascii := Ascii.ascii_of_nat 100.
Definition m_ : Ascii.ascii := Ascii.ascii_of_nat 109.

(** util::absDiff *)
Definition absDiff (a b : D) : D := if dgt a b then dsub a b else dsub b a.

(** [x * 1e-3] *)
Definition milli (x : D) : D := dmul x (dlit (1 # 1000)).

Definition hitTicksTime (p : Params) (c : CRTChannelData) : D :=
  Time p (dofZ (T0 c)).

(** [std::sort(..., TimeOrderCRTData)], as the insertion sort on [T0]
    that libstdc++ runs on up to 16 entries: entries with equal [T0] keep
    their order. *)
Fixpoint insertByT0 (x : CRTChannelData) (l : list CRTChannelData)
    : list CRTChannelData :=
  match l with
  | [] => [x]
  | y :: l' => if (T0 y <? T0 x)%Z then y :: insertByT0 x l' else x :: l
  end.

Fixpoint sortByT0 (l : list CRTChannelData) : list CRTChannelData :=
  match l with
  | [] => []
  | x :: l' => insertByT0 x (sortByT0 l')
  end.

(** The variables of one tagger's loop. *)
Record LoopState : Type := mkLoop {
  chanTrigData : CRTChannelData;
  ttrig : D;
  trackNHold : uset;
  layerNHold : uset;
  tpair : Z * Z;
  minosPairFound : bool;
  passingData : list CRTChannelData;
  event : Z;
  trgMacPair : Z * Z;
  triggeredCRTHits : list CRTData
}.

(** The hit [chanTmpData] becomes the trigger of a fresh readout window. *)
Definition retrigger (trg : Tagger) (st : LoopState)
    (chanTmpData : CRTChannelData) (ttmp : D) : LoopState :=
  mkLoop chanTmpData ttmp
    [Channel chanTmpData] [chanlayer_at trg (Channel chanTmpData)]
    (tpair st) (minosPairFound st) [chanTmpData] (event st)
    (trgMacPair st) (triggeredCRTHits st).

(** Lines 634-656: the first other MINOS tagger of the same stack and
    region, on the opposite layer, with a hit within the window of
    [ttrig]. *)
Definition minosPartner (p : Params) (taggers : list (Z * Tagger))
    (key : Z) (trg : Tagger) (ttrig : D) : option Z :=
  option_map fst
    (find (fun kt2 =>
       let trg2 := snd kt2 in
       is_type trg2 m_
       && negb (key =? fst kt2)%Z
       && (stackid trg =? stackid trg2)%Z
       && String.eqb (reg trg) (reg trg2)
       && ((set_mem 1 (layerid trg2) && set_mem 0 (layerid trg))
           || (set_mem 0 (layerid trg2) && set_mem 1 (layerid trg)))
       && existsb (fun c2 =>
            dlt (absDiff (hitTicksTime p c2) ttrig)
                (milli (fLayerCoincidenceWindowM p)))
            (data trg2))
       taggers).

Definition inReadoutWindow (p : Params) (trg : Tagger) (ttrig ttmp : D) : bool :=
  (is_type trg c_ && dlt ttmp (dadd ttrig (milli (fLayerCoincidenceWindowC p))))
  || (is_type trg d_ && dlt ttmp (dadd ttrig (milli (fLayerCoincidenceWindowD p))))
  || (is_type trg m_ && dlt ttmp (dadd ttrig (milli (fLayerCoincidenceWindowM p)))).

(** Lines 674-692: a hit inside the readout window. *)
Definition accumulate (p : Params) (trg : Tagger) (st : LoopState)
    (chanTmpData : CRTChannelData) (ttmp : D) : LoopState :=
  let '(track', isNew) := set_insert (Channel chanTmpData) (trackNHold st) in
  if isNew then
    let '(layer', newLayer) :=
      set_insert (chanlayer_at trg (Channel chanTmpData)) (layerNHold st) in
    mkLoop (chanTrigData st) (ttrig st) track' layer'
      (if newLayer
       then (Channel (chanTrigData st), Channel chanTmpData)
       else tpair st)
      (minosPairFound st) (passingData st ++ [chanTmpData]) (event st)
      (trgMacPair st) (triggeredCRTHits st)
  else if dlt ttmp (dadd (ttrig st) (fBiasTime p)) then
    let pd :=
      match rev (passingData st) with
      | [] => []
      | back :: front =>
          rev front ++ [SetADC ((ADC back + ADC chanTmpData) mod 2 ^ 32)%Z back]
      end in
    mkLoop (chanTrigData st) (ttrig st) (trackNHold st) (layerNHold st)
      (tpair st) (minosPairFound st) pd (event st) (trgMacPair st)
      (triggeredCRTHits st)
  else st.

(** Lines 702-722: the open window is read out and [chanTmpData] starts
    the next one. *)
Definition readOut (key : Z) (trg : Tagger) (st : LoopState)
    (chanTmpData : CRTChannelData) (ttmp : D) : LoopState :=
  mkLoop chanTmpData ttmp
    [Channel chanTmpData] [chanlayer_at trg (Channel chanTmpData)]
    (tpair st) false [chanTmpData] (event st + 1)%Z (trgMacPair st)
    (triggeredCRTHits st ++
       [mkCRTData key (event st) (ttrig st) (Channel (chanTrigData st))
          (tpair st) (trgMacPair st) (passingData st)]).

Definition withMacPair (st : LoopState) (mp : Z * Z) : LoopState :=
  mkLoop (chanTrigData st) (ttrig st) (trackNHold st) (layerNHold st)
    (tpair st) (minosPairFound st) (passingData st) (event st) mp
    (triggeredCRTHits st).

Definition withPairFound (st : LoopState) (mp : Z * Z) : LoopState :=
  mkLoop (chanTrigData st) (ttrig st) (trackNHold st) (layerNHold st)
    (tpair st) true (passingData st) (event st) mp (triggeredCRTHits st).

(** Lines 672-722, after the two hand-off tests. *)
Definition windowing (p : Params) (key : Z) (trg : Tagger) (st : LoopState)
    (chanTmpData : CRTChannelData) (ttmp : D) : LoopState :=
  if inReadoutWindow p trg (ttrig st) ttmp
  then accumulate p trg st chanTmpData ttmp
  else if dle ttmp (dadd (ttrig st) (fDeadTime p)) then st
  else if dgt ttmp (dadd (ttrig st) (fDeadTime p))
       then readOut key trg st chanTmpData ttmp
       else st.

(** One iteration of the loop over [trg.second.data] (lines 604-724). *)
Definition step (p : Params) (taggers : list (Z * Tagger)) (key : Z)
    (trg : Tagger) (st : LoopState) (chanTmpData : CRTChannelData)
    : LoopState :=
  let ttmp := hitTicksTime p chanTmpData in
  if (Z.of_nat (length (layerNHold st)) =? 1)%Z
     && ((is_type trg c_ && fApplyCoincidenceC p
          && dgt (dsub ttmp (ttrig st)) (milli (fLayerCoincidenceWindowC p)))
         || (is_type trg d_ && fApplyCoincidenceD p
             && dgt (dsub ttmp (ttrig st)) (milli (fLayerCoincidenceWindowD p))))
  then retrigger trg st chanTmpData ttmp
  else if is_type trg m_ && negb (minosPairFound st) && fApplyCoincidenceM p
  then
    match minosPartner p taggers key trg (ttrig st) with
    | Some key2 =>
        windowing p key trg (withPairFound st (key, key2)) chanTmpData ttmp
    | None => retrigger trg st chanTmpData ttmp
    end
  else
    let st := if negb (is_type trg m_) then withMacPair st (key, key) else st in
    windowing p key trg st chanTmpData ttmp.

(** Lines 583-591: whether the tagger's hits are looked at at all. *)
Definition coincidencePossible (p : Params) (trg : Tagger) : bool :=
  is_type trg m_
  || (is_type trg c_
      && (negb (fApplyCoincidenceC p)
          || (fApplyCoincidenceC p && (1 <? Z.of_nat (length (layerid trg)))%Z)))
  || (is_type trg d_
      && (negb (fApplyCoincidenceD p)
          || (fApplyCoincidenceD p && (1 <? Z.of_nat (length (layerid trg)))%Z))).

(** Lines 596-601: the state before the loop, from the earliest entry. *)
Definition initialState (p : Params) (trg : Tagger)
    (chanTrigData : CRTChannelData) : LoopState :=
  mkLoop chanTrigData (hitTicksTime p chanTrigData)
    [Channel chanTrigData] [chanlayer_at trg (Channel chanTrigData)]
    (0%Z, 0%Z) false [chanTrigData] 0%Z (macPair trg) [].

(** The loop of one tagger over its time-ordered entries: the state it
    ends in. *)
Definition coincidenceLoop (p : Params) (taggers : list (Z * Tagger))
    (key : Z) (trg : Tagger) : option LoopState :=
  match sortByT0 (data trg) with
  | [] => None
  | first :: rest =>
      Some (fold_left (step p taggers key trg) rest (initialState p trg first))
  end.

(** What one tagger appends to [triggeredCRTHits]. *)
Definition produceTagger (p : Params) (taggers : list (Z * Tagger))
    (key : Z) (trg : Tagger) : list CRTData :=
  if coincidencePossible p trg
  then match coincidenceLoop p taggers key trg with
       | Some st => triggeredCRTHits st
       | None => []
       end
  else [].

(** Lines 572-726: the triggered hits of the event. *)
Definition produce (p : Params) (taggers : list (Z * Tagger)) : list CRTData :=
  flat_map (fun kt => produceTagger p taggers (fst kt) (snd kt)) taggers.

End Model.

End CRTDetSim.

(** ** CRTT0MatchAlg.cc: the callers of GetClosestCRTHit *)

Module CRTT0MatchAlgCallers.

Import CRTT0MatchAlg.

Section Model.

Context {D : Type} `{DoubleOps D}.

(** [((double)(int)ts) * 1e-3] *)
Definition truncatedMicroseconds (ts : D) : D :=
  dmul (dofZ (dtruncZ ts)) (dlit (1 # 1000)).

(** Lines 572 and 612: the final acceptance of the best match. *)
Definition accepted (cfg : Config) (closestHit : matchCand) : bool :=
  dlt (dca closestHit) (fDistanceLimit cfg)
  && dlt (ddiv (dca closestHit) (extrapLen closestHit)) (fDoverLLimit cfg).

(** Lines 555-576, for one track; [driftDirection] and [xLimits] are what
    TPCGeoUtil returns for the track's hits. *)
Definition T0FromCRTHits (cfg : Config) (svc : Services) (tpcTrack : Track)
    (driftDirection : Z) (xLimits : D * D) (crtHits : list CRTHit)
    (trigger_timestamp : Z) : result D :=
  if dlt (Length tpcTrack) (fMinTrackLength cfg) then Ok (dofZ (-99999))
  else
    closestHit <- GetClosestCRTHit_hits cfg svc tpcTrack driftDirection
                    xLimits crtHits trigger_timestamp ;;
    if dlt (dca closestHit) (dofZ 0) then Ok (dofZ (-99999))
    else
      let crtTime :=
        if (fTSMode cfg =? 1)%Z
        then truncatedMicroseconds (ts1_ns (thishit closestHit))
        else dadd (truncatedMicroseconds (ts0_ns (thishit closestHit)))
                  (fTimeCorrection cfg) in
      if accepted cfg closestHit then Ok crtTime else Ok (dofZ (-99999)).

(** Lines 603-617, for one track. *)
Definition T0AndDCAFromCRTHits (cfg : Config) (svc : Services)
    (tpcTrack : Track) (driftDirection : Z) (xLimits : D * D)
    (crtHits : list CRTHit) (trigger_timestamp : Z) : result (D * D) :=
  if dlt (Length tpcTrack) (fMinTrackLength cfg)
  then Ok (dofZ (-9999), dofZ (-9999))
  else
    closestHit <- GetClosestCRTHit_hits cfg svc tpcTrack driftDirection
                    xLimits crtHits trigger_timestamp ;;
    if dlt (dca closestHit) (dofZ 0) then Ok (dofZ (-9999), dofZ (-9999))
    else if accepted cfg closestHit
         then Ok (t0 closestHit, dca closestHit)
         else Ok (dofZ (-9999), dofZ (-9999)).

End Model.

End CRTT0MatchAlgCallers.

(** ** CRTDetSim: module names, regions and channel numbers *)

Module CRTDetSimNames.

Import CRTT0MatchAlg CRTDetSim.
Import String.
Local Open Scope string_scope.

Definition UINT32_MAX : Z := 4294967295%Z.

(** The value of an expression computed in [uint32_t]. *)
Definition uint32 (z : Z) : Z := (z mod 2 ^ 32)%Z.

Definition e_ : Ascii.ascii := Ascii.ascii_of_nat 101.

(** [s.find(pattern) != std::string::npos] *)
Definition contains (pattern s : String.string) : bool :=
  match String.index 0 pattern s with
  | Some _ => true
  | None => false
  end.

(** [s.substr(pos, count)]: throws std::out_of_range when [pos] is past
    the end. *)
Definition substr (s : String.string) (pos count : nat) : result String.string :=
  if (String.length s <? pos)%nat then OutOfRange
  else Ok (String.substring pos count s).

(** Lines 107-116, on the name of the module's volume. *)
Definition GetAuxDetType (volName : String.string) : Ascii.ascii :=
  if contains "MINOS" volName then m_
  else if contains "CERN" volName then c_
  else if contains "DC" volName then d_
  else e_.

(** The part of the name the switch of lines 123-127 appends. *)
Definition subsystem (type : Ascii.ascii) : String.string :=
  if Ascii.eqb type c_ then "CERN"
  else if Ascii.eqb type d_ then "DC"
  else if Ascii.eqb type m_ then "MINOS"
  else "".

(** Lines 119-132. *)
Definition GetAuxDetRegion (volName : String.string) : result String.string :=
  let type := GetAuxDetType volName in
  let base := "volAuxDet_" ++ subsystem type ++ "_module_###_" in
  substr volName (String.length base) (String.length volName).

(** Lines 134-147. *)
Definition GetAuxDetRegionNum (reg : String.string) : Z :=
  if String.eqb reg "Top" then 38
  else if String.eqb reg "SlopeLeft" then 52
  else if String.eqb reg "SlopeRight" then 56
  else if String.eqb reg "SlopeFront" then 48
  else if String.eqb reg "SlopeBack" then 46
  else if String.eqb reg "Left" then 50
  else if String.eqb reg "Right" then 54
  else if String.eqb reg "Front" then 44
  else if String.eqb reg "Back" then 42
  else if String.eqb reg "Bottom" then 58
  else UINT32_MAX.

(** Lines 453-470 of produce: the front-end board and the channels of the
    strip [adsid] of the module [adid], as (mac5, channel0ID, channel1ID);
    [adid] and [adsid] are [uint32_t] values. *)
Definition channelIDs (auxDetType : Ascii.ascii) (adid adsid : Z) : Z * Z * Z :=
  if Ascii.eqb auxDetType c_
  then (adid, uint32 (2 * adsid + 0), uint32 (2 * adsid + 1))
  else if Ascii.eqb auxDetType d_
  then (adid, adsid, 0%Z)
  else if Ascii.eqb auxDetType m_
  then ((adid / 3)%Z, uint32 (adsid / 2 + 10 * (adid mod 3)), 0%Z)
  else (UINT32_MAX, 0%Z, 0%Z).

End CRTDetSimNames.

(** ** RecoUtils *)

Module RecoUtils.

Import CRTT0MatchAlg.

Section Model.

Context {D : Type} `{DoubleOps D}.

(** sim::TrackIDE, the members read. *)
Record TrackIDE : Type := mkTrackIDE {
  trackID : Z;
  energy : D
}.

(** TrueParticleID, on what the back tracker returns for the hit
    ([bt->HitToTrackIDEs(clockData, hit)]): the loop keeps
    (particleEnergy, likelyTrackID). *)
Definition TrueParticleID (trackIDs : list TrackIDE) : Z :=
  snd (fold_left
         (fun best ide =>
            if dgt (energy ide) (fst best) then (energy ide, trackID ide)
            else best)
         trackIDs (dofZ 0, 0%Z)).

(** [trackMap[trackID]++] on a [std::map<int,int>], kept as the list of
    its entries in the order of the keys. *)
Fixpoint increment (trackID : Z) (trackMap : list (Z * Z)) : list (Z * Z) :=
  match trackMap with
  | [] => [(trackID, 1%Z)]
  | (k, n) :: rest =>
      if (trackID <? k)%Z then (trackID, 1%Z) :: trackMap
      else if (trackID =? k)%Z then (k, (n + 1)%Z) :: rest
      else (k, n) :: increment trackID rest
  end.

(** TrueParticleIDFromTotalRecoHits; a hit is given by what the back
    tracker returns for it. *)
Definition TrueParticleIDFromTotalRecoHits (hits : list (list TrackIDE)) : Z :=
  let trackMap :=
    fold_left (fun m hit => increment (TrueParticleID hit) m) hits [] in
  fst (fold_left
         (fun best entry =>
            if (snd best <? snd entry)%Z then (fst entry, snd entry) else best)
         trackMap ((-99999)%Z, (-1)%Z)).





End Model.

End RecoUtils.

(** * Properties *)

(** ** Facts about the exact carrier *)

Module XRealFacts.

Import XReal.
Local Open Scope R_scope.

Lemma Rltb_true (a b : R) : a < b -> Rltb a b = true.
Proof. intros Hab. unfold Rltb. destruct (Rlt_dec a b); [reflexivity | contradiction]. Qed.

Lemma Rltb_false (a b : R) : b <= a -> Rltb a b = false.
Proof. intros Hab. unfold Rltb. destruct (Rlt_dec a b); [lra | reflexivity]. Qed.

Lemma Rleb_true (a b : R) : a <= b -> Rleb a b = true.
Proof. intros Hab. unfold Rleb. destruct (Rle_dec a b); [reflexivity | contradiction]. Qed.

Lemma Rleb_false (a b : R) : b < a -> Rleb a b = false.
Proof. intros Hab. unfold Rleb. destruct (Rle_dec a b); [lra | reflexivity]. Qed.

Lemma Reqb_true (a b : R) : a = b -> Reqb a b = true.
Proof. intros Hab. unfold Reqb. destruct (Req_dec_T a b); [reflexivity | contradiction]. Qed.

Lemma Reqb_false (a b : R) : a <> b -> Reqb a b = false.
Proof. intros Hab. unfold Reqb. destruct (Req_dec_T a b); [contradiction | reflexivity]. Qed.

Lemma Rltb_iff (a b : R) : Rltb a b = true <-> a < b.
Proof. unfold Rltb. destruct (Rlt_dec a b); split; intros; try assumption; try reflexivity; try discriminate; contradiction. Qed.

Lemma Rleb_iff (a b : R) : Rleb a b = true <-> a <= b.
Proof. unfold Rleb. destruct (Rle_dec a b); split; intros; try assumption; try reflexivity; try discriminate; contradiction. Qed.

Lemma Reqb_iff (a b : R) : Reqb a b = true <-> a = b.
Proof. unfold Reqb. destruct (Req_dec_T a b); split; intros; try assumption; try reflexivity; try discriminate; contradiction. Qed.

Lemma xdiv_Fin (x y : R) : y <> 0 -> xdiv (Fin x) (Fin y) = Fin (x / y).
Proof. intros Hy. unfold xdiv. now rewrite Reqb_false. Qed.

Lemma xsqrt_Fin (x : R) : 0 <= x -> xsqrt (Fin x) = Fin (R_sqrt.sqrt x).
Proof. intros Hx. unfold xsqrt. now rewrite Rltb_false. Qed.

(** Decides one comparison of closed (or linear) real terms in the goal. *)
Ltac rdecide :=
  match goal with
  | |- context [Rltb ?a ?b] =>
      first [ rewrite (@Rltb_true a b) by lra | rewrite (@Rltb_false a b) by lra ]
  | |- context [Rleb ?a ?b] =>
      first [ rewrite (@Rleb_true a b) by lra | rewrite (@Rleb_false a b) by lra ]
  | |- context [Reqb ?a ?b] =>
      first [ rewrite (@Reqb_true a b) by lra | rewrite (@Reqb_false a b) by lra ]
  | |- context [Rabs ?a] =>
      first [ rewrite (Rabs_pos_eq a) by lra | rewrite (Rabs_left1 a) by lra ]
  end.

(** Evaluates a term of the model on the exact carrier: reduction, and the
    comparisons it gets stuck on, in turn. *)
Ltac rcompare :=
  repeat first [ progress cbn | progress unfold dge, dgt, dne, signed_inf | rdecide ].

End XRealFacts.

(** ** Closed real terms, evaluated in the rationals *)

Module RConst.

Import XReal XRealFacts.
Local Open Scope R_scope.

Unset Implicit Arguments.

Inductive rexp : Type :=
| Cz (z : Z)
| Cq (q : Q)
| Add (a b : rexp)
| Sub (a b : rexp)
| Mul (a b : rexp)
| Div (a b : rexp)
| Opp (a : rexp)
| Inv (a : rexp)
| Abs (a : rexp)
| Sqrt (a : rexp).

Fixpoint denote (e : rexp) : R :=
  match e with
  | Cz z => IZR z
  | Cq q => Q2R q
  | Add a b => denote a + denote b
  | Sub a b => denote a - denote b
  | Mul a b => denote a * denote b
  | Div a b => denote a / denote b
  | Opp a => - denote a
  | Inv a => / denote a
  | Abs a => Rabs (denote a)
  | Sqrt a => R_sqrt.sqrt (denote a)
  end.

(** The root of a rational square. *)
Definition qsqrt (x : Q) : option Q :=
  let x := Qred x in
  let n := Z.sqrt (Qnum x) in
  let d := Z.sqrt (Zpos (Qden x)) in
  if ((n * n =? Qnum x) && (d * d =? Zpos (Qden x)))%Z
  then Some (n # Z.to_pos d)
  else None.

Definition lift2 (f : Q -> Q -> Q) (a b : option Q) : option Q :=
  match a, b with
  | Some x, Some y => Some (Qred (f x y))
  | _, _ => None
  end.

Definition qinv (a : option Q) : option Q :=
  match a with
  | Some x => if Qeq_bool x 0 then None else Some (Qred (/ x))
  | None => None
  end.

Fixpoint value (e : rexp) : option Q :=
  match e with
  | Cz z => Some (inject_Z z)
  | Cq q => Some q
  | Add a b => lift2 Qplus (value a) (value b)
  | Sub a b => lift2 Qminus (value a) (value b)
  | Mul a b => lift2 Qmult (value a) (value b)
  | Div a b => lift2 Qmult (value a) (qinv (value b))
  | Opp a => option_map Qopp (value a)
  | Inv a => qinv (value a)
  | Abs a => option_map Qabs (value a)
  | Sqrt a => match value a with Some x => qsqrt x | None => None end
  end.

Lemma Q2R_inject_Z (z : Z) : Q2R (inject_Z z) = IZR z.
Proof. unfold Q2R, inject_Z; cbn. field. Qed.

Lemma Q2R_Qabs (x : Q) : Q2R (Qabs x) = Rabs (Q2R x).
Proof.
  destruct (Qlt_le_dec x 0) as [Hneg | Hpos].
  - rewrite Qabs_neg by now apply Qlt_le_weak.
    rewrite Q2R_opp. apply Qlt_Rlt in Hneg. rewrite RMicromega.Q2R_0 in Hneg.
    rewrite Rabs_left by assumption. reflexivity.
  - rewrite Qabs_pos by assumption.
    apply Qle_Rle in Hpos. rewrite RMicromega.Q2R_0 in Hpos.
    rewrite Rabs_pos_eq by assumption. reflexivity.
Qed.

Lemma qsqrt_sound (x r : Q) : qsqrt x = Some r -> R_sqrt.sqrt (Q2R x) = Q2R r.
Proof.
  unfold qsqrt.
  set (y := Qred x). set (n := Z.sqrt (Qnum y)). set (d := Z.sqrt (Zpos (Qden y))).
  destruct ((n * n =? Qnum y) && (d * d =? Zpos (Qden y)))%Z eqn:Hsq; [ | discriminate].
  apply andb_prop in Hsq. destruct Hsq as [Hn Hd].
  apply Z.eqb_eq in Hn, Hd.
  intros Hr. injection Hr as <-.
  assert (Hd0 : (0 < d)%Z).
  { assert (0 <= d)%Z by apply Z.sqrt_nonneg. nia. }
  assert (Hn0 : (0 <= n)%Z) by apply Z.sqrt_nonneg.
  assert (Hx : x == (n # Z.to_pos d) * (n # Z.to_pos d)).
  { rewrite <- (Qred_correct x). fold y.
    unfold Qeq, Qmult; cbn [Qnum Qden].
    rewrite Pos2Z.inj_mul, Z2Pos.id by assumption.
    rewrite Hn. rewrite <- Hd. ring. }
  rewrite (Qeq_eqR _ _ Hx), Q2R_mult.
  apply sqrt_square.
  unfold Q2R; cbn [Qnum Qden].
  apply Rmult_le_pos; [now apply IZR_le | ].
  left. apply Rinv_0_lt_compat. now apply IZR_lt.
Qed.

Lemma lift2_sound (f : Q -> Q -> Q) (g : R -> R -> R) (a b : option Q) (x y : R) (q : Q) :
  (forall p r, Q2R (f p r) = g (Q2R p) (Q2R r)) ->
  (forall p, a = Some p -> x = Q2R p) ->
  (forall p, b = Some p -> y = Q2R p) ->
  lift2 f a b = Some q -> g x y = Q2R q.
Proof.
  intros Hf Ha Hb. destruct a as [p | ], b as [r | ]; try discriminate.
  cbn. intros Hq. injection Hq as <-.
  rewrite (Qeq_eqR _ _ (Qred_correct _)), Hf.
  now rewrite (Ha p eq_refl), (Hb r eq_refl).
Qed.

Lemma qinv_sound (a : option Q) (x : R) (q : Q) :
  (forall p, a = Some p -> x = Q2R p) ->
  qinv a = Some q -> / x = Q2R q.
Proof.
  intros Ha. destruct a as [p | ]; [ | discriminate]. cbn.
  destruct (Qeq_bool p 0) eqn:Hz; [discriminate | ].
  intros Hq. injection Hq as <-.
  rewrite (Qeq_eqR _ _ (Qred_correct _)), Q2R_inv by now apply Qeq_bool_neq.
  now rewrite (Ha p eq_refl).
Qed.

Theorem value_sound (e : rexp) : forall q : Q, value e = Some q -> denote e = Q2R q.
Proof.
  induction e as [z | p | a IHa b IHb | a IHa b IHb | a IHa b IHb | a IHa b IHb
                 | a IHa | a IHa | a IHa | a IHa]; intros q Hq; cbn in *.
  - injection Hq as <-. symmetry. apply Q2R_inject_Z.
  - now injection Hq as <-.
  - exact (lift2_sound Qplus Rplus _ _ _ _ q Q2R_plus IHa IHb Hq).
  - exact (lift2_sound Qminus Rminus _ _ _ _ q Q2R_minus IHa IHb Hq).
  - exact (lift2_sound Qmult Rmult _ _ _ _ q Q2R_mult IHa IHb Hq).
  - unfold Rdiv.
    refine (lift2_sound Qmult Rmult _ _ _ _ q Q2R_mult IHa _ Hq).
    intros p Hp. exact (qinv_sound _ _ _ IHb Hp).
  - destruct (value a) as [p | ]; [ | discriminate].
    injection Hq as <-. rewrite Q2R_opp. now rewrite (IHa p eq_refl).
  - exact (qinv_sound _ _ _ IHa Hq).
  - destruct (value a) as [p | ]; [ | discriminate].
    injection Hq as <-. rewrite Q2R_Qabs. now rewrite (IHa p eq_refl).
  - destruct (value a) as [p | ]; [ | discriminate].
    rewrite (IHa p eq_refl). now apply qsqrt_sound.
Qed.

Definition qltb (x y : Q) : bool := negb (Qle_bool y x).

Lemma Rltb_value (a b : rexp) (x y : Q) :
  value a = Some x -> value b = Some y ->
  Rltb (denote a) (denote b) = qltb x y.
Proof.
  intros Ha Hb. rewrite (value_sound _ _ Ha), (value_sound _ _ Hb). unfold qltb.
  destruct (Qle_bool y x) eqn:Hle; cbn.
  - apply Rltb_false. now apply RMicromega.Qle_true.
  - apply Rltb_true. apply Qlt_Rlt. apply Qnot_le_lt. intros H.
    apply Qle_bool_iff in H. congruence.
Qed.

Lemma Rleb_value (a b : rexp) (x y : Q) :
  value a = Some x -> value b = Some y ->
  Rleb (denote a) (denote b) = Qle_bool x y.
Proof.
  intros Ha Hb. rewrite (value_sound _ _ Ha), (value_sound _ _ Hb).
  destruct (Qle_bool x y) eqn:Hle.
  - apply Rleb_true. now apply RMicromega.Qle_true.
  - apply Rleb_false. apply Qlt_Rlt. apply Qnot_le_lt. intros H.
    apply Qle_bool_iff in H. congruence.
Qed.

Lemma Reqb_value (a b : rexp) (x y : Q) :
  value a = Some x -> value b = Some y ->
  Reqb (denote a) (denote b) = Qeq_bool x y.
Proof.
  intros Ha Hb. rewrite (value_sound _ _ Ha), (value_sound _ _ Hb).
  destruct (Qeq_bool x y) eqn:Heq.
  - apply Reqb_true. now apply RMicromega.Qeq_true.
  - apply Reqb_false. now apply RMicromega.Qeq_false.
Qed.

(** A closed term equals the integer or the fraction it evaluates to. *)
Lemma denote_value (e : rexp) (n : Z) (d : positive) :
  value e = Some (n # d) -> denote e = IZR n / IZR (Zpos d).
Proof. intros He. rewrite (value_sound _ _ He). reflexivity. Qed.

Ltac reify e :=
  lazymatch e with
  | IZR ?z => constr:(Cz z)
  | Q2R ?q => constr:(Cq q)
  | Rplus ?a ?b => let a' := reify a in let b' := reify b in constr:(Add a' b')
  | Rminus ?a ?b => let a' := reify a in let b' := reify b in constr:(Sub a' b')
  | Rmult ?a ?b => let a' := reify a in let b' := reify b in constr:(Mul a' b')
  | Rdiv ?a ?b => let a' := reify a in let b' := reify b in constr:(Div a' b')
  | Ropp ?a => let a' := reify a in constr:(Opp a')
  | Rinv ?a => let a' := reify a in constr:(Inv a')
  | Rabs ?a => let a' := reify a in constr:(Abs a')
  | R_sqrt.sqrt ?a => let a' := reify a in constr:(Sqrt a')
  end.

(** Replaces one comparison of closed terms by its value. *)
Ltac qdecide :=
  match goal with
  | |- context [Rltb ?a ?b] =>
      let ea := reify a in
      let eb := reify b in
      let va := eval vm_compute in (value ea) in
      let vb := eval vm_compute in (value eb) in
      lazymatch constr:((va, vb)) with
      | (Some ?x, Some ?y) =>
          let r := eval vm_compute in (qltb x y) in
          change (Rltb a b) with (Rltb (denote ea) (denote eb));
          rewrite (Rltb_value ea eb x y
                     (@eq_refl _ (Some x) <: value ea = Some x)
                     (@eq_refl _ (Some y) <: value eb = Some y));
          change (qltb x y) with r
      end
  | |- context [Rleb ?a ?b] =>
      let ea := reify a in
      let eb := reify b in
      let va := eval vm_compute in (value ea) in
      let vb := eval vm_compute in (value eb) in
      lazymatch constr:((va, vb)) with
      | (Some ?x, Some ?y) =>
          let r := eval vm_compute in (Qle_bool x y) in
          change (Rleb a b) with (Rleb (denote ea) (denote eb));
          rewrite (Rleb_value ea eb x y
                     (@eq_refl _ (Some x) <: value ea = Some x)
                     (@eq_refl _ (Some y) <: value eb = Some y));
          change (Qle_bool x y) with r
      end
  | |- context [Reqb ?a ?b] =>
      let ea := reify a in
      let eb := reify b in
      let va := eval vm_compute in (value ea) in
      let vb := eval vm_compute in (value eb) in
      lazymatch constr:((va, vb)) with
      | (Some ?x, Some ?y) =>
          let r := eval vm_compute in (Qeq_bool x y) in
          change (Reqb a b) with (Reqb (denote ea) (denote eb));
          rewrite (Reqb_value ea eb x y
                     (@eq_refl _ (Some x) <: value ea = Some x)
                     (@eq_refl _ (Some y) <: value eb = Some y));
          change (Qeq_bool x y) with r
      end
  end.

Lemma denote_value_int (e : rexp) (n : Z) :
  value e = Some (n # 1) -> denote e = IZR n.
Proof.
  intros He. rewrite (value_sound _ _ He). unfold Q2R; cbn. field.
Qed.

Lemma Rltb_sqrt (a b : R) :
  0 <= a -> 0 <= b -> Rltb (R_sqrt.sqrt a) (R_sqrt.sqrt b) = Rltb a b.
Proof.
  intros Ha Hb. destruct (Rlt_dec a b) as [Hlt | Hge].
  - rewrite (@Rltb_true a b Hlt). apply Rltb_true. now apply sqrt_lt_1_alt.
  - rewrite (@Rltb_false a b) by lra. apply Rltb_false. apply sqrt_le_1_alt. lra.
Qed.

Lemma Reqb_sqrt_0 (a : R) : 0 < a -> Reqb (R_sqrt.sqrt a) 0 = false.
Proof.
  intros Ha. apply Reqb_false. apply Rgt_not_eq. now apply sqrt_lt_R0.
Qed.

(** Replaces a closed term [e] by the number it evaluates to. *)
Ltac qreplace e :=
  lazymatch e with
  | IZR _ => fail
  | IZR _ / IZR _ => fail
  | _ =>
      let ee := reify e in
      let v := eval vm_compute in (value ee) in
      lazymatch v with
      | Some (?n # 1) =>
          change e with (denote ee);
          rewrite (denote_value_int ee n (@eq_refl _ (Some (n # 1)) <: value ee = Some (n # 1)))
      | Some (?n # ?d) =>
          change e with (denote ee);
          rewrite (denote_value ee n d (@eq_refl _ (Some (n # d)) <: value ee = Some (n # d)))
      end
  end.

(** Brings the closed payloads of the goal to numbers. *)
Ltac qnorm :=
  repeat match goal with
         | |- context [Fin ?e] => qreplace e
         | |- context [R_sqrt.sqrt ?e] => qreplace e
         end.

(** Evaluates a closed term of the model on the exact carrier. *)
Ltac xeval :=
  repeat first
    [ progress cbn
    | progress unfold dge, dgt, dne, signed_inf
    | qdecide ];
  qnorm;
  repeat first
    [ progress cbn
    | match goal with
      | |- context [Rltb (R_sqrt.sqrt ?a) (R_sqrt.sqrt ?b)] =>
          rewrite (Rltb_sqrt a b) by lra
      | |- context [Reqb (R_sqrt.sqrt ?a) 0] =>
          rewrite (Reqb_sqrt_0 a) by lra
      end
    | qdecide ].

Set Implicit Arguments.

End RConst.

(** ** Properties of CRTT0MatchAlg *)

Module MatchingProofs.

Import XReal XRealFacts RConst IEEE CRTT0MatchAlg.
Local Open Scope R_scope.

(** *** std::min and std::max on finite values *)

Lemma std_min_Fin (a b : R) : std_min (Fin a) (Fin b) = Fin (Rmin a b).
Proof.
  unfold std_min, Rmin; simpl. unfold Rltb.
  destruct (Rlt_dec b a), (Rle_dec a b); try reflexivity; f_equal; lra.
Qed.

Lemma std_max_Fin (a b : R) : std_max (Fin a) (Fin b) = Fin (Rmax a b).
Proof.
  unfold std_max, Rmax; simpl. unfold Rltb.
  destruct (Rlt_dec a b), (Rle_dec a b); try reflexivity; f_equal; lra.
Qed.

Lemma std_min_cases {D} `{DoubleOps D} (a b : D) :
  std_min a b = a \/ std_min a b = b.
Proof. unfold std_min. destruct (dlt b a); auto. Qed.

(** *** The drift window *)

(** C3.  For finite endpoint coordinates and volume limits, a drift
    velocity that is not zero (of either sign) and a drift direction +1 or
    -1, TrackT0Range returns the smaller and the larger of the two shifts
    divided by the signed velocity, so tMin <= tMax whatever the sign. *)
Theorem TrackT0Range_ordered (startX endX lim1 lim2 v : R) (d : Z) :
  v <> 0 -> d = 1%Z \/ d = (-1)%Z ->
  let Vd := IZR d * v in
  let t0max := (Rmax lim1 lim2 - Rmax startX endX) / Vd in
  let t0min := (Rmin lim1 lim2 - Rmin startX endX) / Vd in
  let window :=
    TrackT0Range (Fin v) (Fin startX) (Fin endX) d (Fin lim1, Fin lim2) in
  window = (Fin (Rmin t0min t0max), Fin (Rmax t0min t0max))
  /\ Rmin t0min t0max <= Rmax t0min t0max
  /\ dle (fst window) (snd window) = true.
Proof.
  intros Hv Hd Vd t0max t0min window.
  assert (Hd0 : (d =? 0)%Z = false) by (destruct Hd; subst d; reflexivity).
  assert (HVd : Vd <> 0).
  { subst Vd. destruct Hd; subst d; simpl; lra. }
  assert (Hw : window = (Fin (Rmin t0min t0max), Fin (Rmax t0min t0max))).
  { subst window. unfold TrackT0Range. rewrite Hd0. cbn [fst snd].
    rewrite !std_max_Fin, !std_min_Fin.
    cbn [dsub dmul ddiv dofZ xreal_ops xsub xadd xneg xmul].
    rewrite !xdiv_Fin by assumption.
    now rewrite std_min_Fin, std_max_Fin. }
  assert (Hle : Rmin t0min t0max <= Rmax t0min t0max).
  { apply Rle_trans with t0min; [apply Rmin_l | apply Rmax_l]. }
  repeat split; try assumption.
  rewrite Hw. cbn [fst snd dle xreal_ops xle]. now apply Rleb_true.
Qed.

Lemma TrackT0Range_ordered_witness :
  let Vd := IZR (-1) * (16 / 100) in
  let t0max := (Rmax 60 360 - Rmax 100 300) / Vd in
  let t0min := (Rmin 60 360 - Rmin 100 300) / Vd in
  let window :=
    TrackT0Range (Fin (16 / 100)) (Fin 100) (Fin 300) (-1)%Z (Fin 60, Fin 360) in
  window = (Fin (Rmin t0min t0max), Fin (Rmax t0min t0max))
  /\ Rmin t0min t0max <= Rmax t0min t0max
  /\ dle (fst window) (snd window) = true.
Proof.
  apply TrackT0Range_ordered; [lra | right; reflexivity].
Defined.

(** *** Stitched tracks: the degenerate window *)

Section AnyCarrier.

Context {D : Type} `{DoubleOps D}.

Lemma TrackT0Range_stitched (vel startX endX : D) (xLimits : D * D) :
  TrackT0Range vel startX endX 0 xLimits = (dofZ 0, dofZ 0).
Proof. reflexivity. Qed.

Lemma inT0Window_degenerate (t0MinMax : D * D) (crtTime : D) :
  deq (fst t0MinMax) (snd t0MinMax) = true -> inT0Window t0MinMax crtTime = true.
Proof. intros Heq. unfold inT0Window. rewrite Heq. apply orb_true_r. Qed.

Lemma hitCandidate_degenerate (cfg : Config) (svc : Services) (trk : Track)
    (t0MinMax : D * D) (dd trig : Z) (h : CRTHit) :
  deq (fst t0MinMax) (snd t0MinMax) = true ->
  hitCandidate cfg svc trk t0MinMax dd trig h
  = scoreHit cfg svc trk dd h (hitTime cfg h trig).
Proof.
  intros Heq. unfold hitCandidate.
  now rewrite (inT0Window_degenerate _ _ Heq).
Qed.

(** *** Hits rejected by the cuts *)

Lemma hitCandidate_outside_window (cfg : Config) (svc : Services) (trk : Track)
    (t0MinMax : D * D) (dd trig : Z) (h : CRTHit) :
  inT0Window t0MinMax (hitTime cfg h trig) = false ->
  hitCandidate cfg svc trk t0MinMax dd trig h = Ok None.
Proof. intros Hw. unfold hitCandidate. now rewrite Hw. Qed.

Lemma hitCandidate_fails_cuts (cfg : Config) (svc : Services) (trk : Track)
    (t0MinMax : D * D) (dd trig : Z) (h : CRTHit) :
  passesQualityCuts cfg h = false ->
  hitCandidate cfg svc trk t0MinMax dd trig h = Ok None.
Proof.
  intros Hq. unfold hitCandidate, scoreHit. rewrite Hq.
  now destruct (negb (inT0Window t0MinMax (hitTime cfg h trig))).
Qed.

(** A hit leaves no candidate: its time is outside the window, it fails a
    quality cut, or both of its endpoint distances reach the limit. *)
Definition leavesNoCandidate (cfg : Config) (svc : Services) (trk : Track)
    (t0MinMax : D * D) (dd trig : Z) (h : CRTHit) : Prop :=
  inT0Window t0MinMax (hitTime cfg h trig) = false
  \/ passesQualityCuts cfg h = false
  \/ hitCandidate cfg svc trk t0MinMax dd trig h = Ok None.

Lemma leavesNoCandidate_None (cfg : Config) (svc : Services) (trk : Track)
    (t0MinMax : D * D) (dd trig : Z) (h : CRTHit) :
  leavesNoCandidate cfg svc trk t0MinMax dd trig h ->
  hitCandidate cfg svc trk t0MinMax dd trig h = Ok None.
Proof.
  intros [Hw | [Hq | Hn]];
    [now apply hitCandidate_outside_window | now apply hitCandidate_fails_cuts | exact Hn].
Qed.

Lemma collectCandidates_none (cfg : Config) (svc : Services) (trk : Track)
    (t0MinMax : D * D) (dd trig : Z) (crtHits : list CRTHit) :
  Forall (leavesNoCandidate cfg svc trk t0MinMax dd trig) crtHits ->
  collectCandidates cfg svc trk t0MinMax dd trig crtHits = Ok [].
Proof.
  induction 1 as [ | h rest Hh _ IH]; [reflexivity | ].
  cbn [collectCandidates].
  rewrite (leavesNoCandidate_None Hh). cbn [bind]. rewrite IH. reflexivity.
Qed.

(** C2, as the code has it.  With an empty hit list, or a list in which
    every hit is rejected, GetClosestCRTHit returns (and does not throw)
    the candidate built by makeNULLmc, whose dca is -99999, and the
    ClosestCRTHit wrapper returns that hit and that dca. *)
Theorem no_candidate_returns_null (cfg : Config) (svc : Services)
    (trk : Track) (t0MinMax : D * D) (dd trig : Z) (crtHits : list CRTHit) :
  Forall (leavesNoCandidate cfg svc trk t0MinMax dd trig) crtHits ->
  GetClosestCRTHit cfg svc trk t0MinMax crtHits dd trig = Ok makeNULLmc
  /\ ClosestCRTHit cfg svc trk t0MinMax crtHits dd trig
     = Ok (defaultHit, dofZ (-99999))
  /\ GetClosestCRTHit cfg svc trk t0MinMax [] dd trig = Ok makeNULLmc
  /\ dca makeNULLmc = dofZ (-99999).
Proof.
  intros Hall.
  assert (Hg : GetClosestCRTHit cfg svc trk t0MinMax crtHits dd trig
               = Ok makeNULLmc).
  { unfold GetClosestCRTHit. now rewrite (collectCandidates_none Hall). }
  repeat split; try assumption; try reflexivity.
  unfold ClosestCRTHit. rewrite Hg. reflexivity.
Qed.

(** C4.  Drift direction 0 gives the window (0, 0); and a window whose two
    ends compare equal rejects no hit time: the iteration goes on to the
    quality cuts and the scoring whatever the time of the hit. *)
Theorem degenerate_window_accepts_every_time :
  (forall (vel startX endX : D) (xLimits : D * D),
      TrackT0Range vel startX endX 0 xLimits = (dofZ 0, dofZ 0))
  /\ (forall (t0MinMax : D * D),
        deq (fst t0MinMax) (snd t0MinMax) = true ->
        (forall crtTime : D, inT0Window t0MinMax crtTime = true)
        /\ (forall (cfg : Config) (svc : Services) (trk : Track) (dd trig : Z)
                   (h : CRTHit),
               hitCandidate cfg svc trk t0MinMax dd trig h
               = scoreHit cfg svc trk dd h (hitTime cfg h trig)))
  /\ (deq (dofZ 0 : D) (dofZ 0) = true ->
      forall (vel startX endX crtTime : D) (xLimits : D * D),
        inT0Window (TrackT0Range vel startX endX 0 xLimits) crtTime = true).
Proof.
  split; [ | split].
  - intros. apply TrackT0Range_stitched.
  - intros t0MinMax Heq. split.
    + intros crtTime. now apply inT0Window_degenerate.
    + intros. now apply hitCandidate_degenerate.
  - intros H0 vel startX endX crtTime xLimits.
    rewrite TrackT0Range_stitched. now apply inT0Window_degenerate.
Qed.

(** The time of a hit when TSMode is not 1: the difference to the trigger
    time stamp, in microseconds, corrected by lines 406-407. *)
Lemma hitTime_ts0 (cfg : Config) (h : CRTHit) (trig : Z) :
  fTSMode cfg <> 1%Z ->
  hitTime cfg h trig
  = rolloverCorrect
      (ddiv (dsub (ts0_ns h) (dofZ (trig mod 1000000000))) (dofZ 1000)).
Proof.
  intros Hm. unfold hitTime.
  destruct (Z.eqb_spec (fTSMode cfg) 1); [contradiction | reflexivity].
Qed.

End AnyCarrier.

(** *** Inputs used below, on any carrier *)

Section Inputs.

Context {D : Type} `{DoubleOps D}.

(** The defaults of [reconfigure], with the given PE cut, direction method
    and selection switches. *)
Definition exampleConfig (PEcut : Z) (DirMethod : Z) (DCAuseBox DCAoverLength : bool)
    : Config :=
  mkConfig (dofZ 20) (dlit (1 # 2)) (dofZ 100) 2 (dofZ 0) true DirMethod
    DCAuseBox DCAoverLength (dofZ 1) (dofZ PEcut) (dofZ 1000).

(** Space-charge corrections disabled, drift velocity 0.16 cm/us. *)
Definition exampleServices : Services :=
  mkServices (dlit (16 # 100)) false (fun _ => 0%Z) (fun _ _ => vzero).

Definition vecZ (x y z : Z) : TVector3 := mkVec (dofZ x) (dofZ y) (dofZ z).

(** A straight track of [n] points along z, one every 10 cm, all of them
    kept by the direction loops. *)
Definition straightTrack (n : nat) : Track :=
  mkTrack n (vecZ 0 0 0) (vecZ 0 0 (10 * (Z.of_nat n - 1)))
    (fun i => vecZ 0 0 (10 * i)) (fun _ => vecZ 0 0 1)
    (fun _ => InvalidHitIndex) (dofZ (10 * (Z.of_nat n - 1))).

(** A hit at [(x, y, z)] with the given uncertainties and PE yield. *)
Definition hitAt (pes : Z) (x y z ex ey ez : Z) : CRTHit :=
  mkHit (dofZ pes) (dofZ 0) (dofZ 0) (dofZ x) (dofZ ex) (dofZ y) (dofZ ey)
    (dofZ z) (dofZ ez).

(** A candidate with the given dca and extrapolation length. *)
Definition candidate (d len : Z) : matchCand :=
  mkCand defaultHit (dofZ 0) (dofZ d) (dofZ len).

End Inputs.

(** *** The no-match sentinel *)

(** C2, the claim as stated fails: with an empty hit list the matcher
    returns the makeNULLmc candidate, whose dca is -99999 and not -1. *)
Lemma null_dca_is_not_minus_one :
  GetClosestCRTHit (exampleConfig 0 1 false false) exampleServices
    (straightTrack 2) (Fin 0, Fin 0) [] 1 0 = Ok makeNULLmc
  /\ dca (makeNULLmc (D := xreal)) = Fin (-99999)
  /\ deq (dca (makeNULLmc (D := xreal))) (Fin (-1)) = false.
Proof.
  repeat split. cbn. apply Reqb_false. lra.
Qed.

(** The same on binary64. *)
Example null_dca_is_not_minus_one_ieee :
  GetClosestCRTHit (exampleConfig 0 1 false false) exampleServices
    (straightTrack 2) (0%float, 0%float) [] 1 0 = Ok makeNULLmc
  /\ deq (dca (makeNULLmc (D := float))) (-1)%float = false.
Proof. vm_compute. split; reflexivity. Qed.

Lemma no_candidate_returns_null_witness :
  let cfg := exampleConfig 50 1 false false in
  let hits := [hitAt 10 0 500 10 1 1 1 : CRTHit (D := xreal)] in
  GetClosestCRTHit cfg exampleServices (straightTrack 2) (Fin 0, Fin 0) hits 1 0
    = Ok makeNULLmc
  /\ ClosestCRTHit cfg exampleServices (straightTrack 2) (Fin 0, Fin 0) hits 1 0
     = Ok (defaultHit, Fin (-99999))
  /\ GetClosestCRTHit cfg exampleServices (straightTrack 2) (Fin 0, Fin 0) [] 1 0
     = Ok makeNULLmc
  /\ dca (makeNULLmc (D := xreal)) = Fin (-99999).
Proof.
  cbv zeta.
  refine (@no_candidate_returns_null xreal _ (exampleConfig 50 1 false false)
            exampleServices (straightTrack 2) (Fin 0, Fin 0) 1 0 _ _).
  constructor; [ | constructor].
  right; left. unfold passesQualityCuts. cbn. rcompare. reflexivity.
Defined.

Lemma degenerate_window_accepts_every_time_witness :
  (forall crtTime : xreal, inT0Window (Fin 0, Fin 0) crtTime = true)
  /\ (forall (cfg : Config) (svc : Services) (trk : Track) (dd trig : Z)
             (h : CRTHit),
         hitCandidate cfg svc trk (Fin 0, Fin 0) dd trig h
         = scoreHit cfg svc trk dd h (hitTime cfg h trig)).
Proof.
  apply (proj1 (proj2 (degenerate_window_accepts_every_time (D := xreal)))
           (Fin 0, Fin 0)).
  cbn. apply Reqb_true. reflexivity.
Defined.

(** On binary64 the window of a stitched track compares equal too. *)
Example stitched_window_accepts_ieee :
  forall (vel startX endX crtTime : float) (xLimits : float * float),
    inT0Window (TrackT0Range vel startX endX 0 xLimits) crtTime = true.
Proof.
  intros vel startX endX crtTime xLimits.
  rewrite TrackT0Range_stitched. apply inT0Window_degenerate.
  vm_compute. reflexivity.
Qed.

(** *** The rollover correction *)

(** C5.  With TSMode other than 1 the hit time is the difference to the
    trigger time stamp divided by 1e3, corrected by at most one period of
    1e6: one period is added below -0.5e6 and subtracted above +0.5e6;
    0.6e6 becomes -0.4e6 and -0.6e6 becomes 0.4e6. *)
Theorem rollover_correction :
  (forall (cfg : Config) (h : CRTHit) (trig : Z),
      fTSMode cfg <> 1%Z ->
      hitTime cfg h trig
      = rolloverCorrect
          (ddiv (dsub (ts0_ns h) (Fin (IZR (trig mod 1000000000)))) (Fin 1000)))
  /\ (forall d : R, d < -500000 -> rolloverCorrect (Fin d) = Fin (d + 1000000))
  /\ (forall d : R, 500000 < d -> rolloverCorrect (Fin d) = Fin (d - 1000000))
  /\ (forall d : R, -500000 <= d <= 500000 -> rolloverCorrect (Fin d) = Fin d)
  /\ rolloverCorrect (Fin 600000) = Fin (-400000)
  /\ rolloverCorrect (Fin (-600000)) = Fin 400000.
Proof.
  assert (Hlo : forall d : R, d < -500000 ->
                rolloverCorrect (Fin d) = Fin (d + 1000000)).
  { intros d Hd. unfold rolloverCorrect, dgt. cbn. now rewrite Rltb_true. }
  assert (Hhi : forall d : R, 500000 < d ->
                rolloverCorrect (Fin d) = Fin (d - 1000000)).
  { intros d Hd. unfold rolloverCorrect, dgt. cbn.
    rewrite Rltb_false by lra. now rewrite Rltb_true. }
  repeat split.
  - intros cfg h trig Hm. exact (@hitTime_ts0 xreal xreal_ops cfg h trig Hm).
  - exact Hlo.
  - exact Hhi.
  - intros d [Hd1 Hd2]. unfold rolloverCorrect, dgt. cbn.
    now rewrite !Rltb_false by lra.
  - rewrite Hhi by lra. f_equal. lra.
  - rewrite Hlo by lra. f_equal. lra.
Qed.

Lemma rollover_correction_witness :
  hitTime (exampleConfig 0 1 false false)
    (mkHit (Fin 0) (Fin 700000000) (Fin 0) (Fin 0) (Fin 0) (Fin 0) (Fin 0)
       (Fin 0) (Fin 0))
    5100000000
  = rolloverCorrect
      (ddiv (dsub (Fin 700000000) (Fin (IZR (5100000000 mod 1000000000))))
            (Fin 1000)).
Proof.
  apply (proj1 rollover_correction). cbn. discriminate.
Defined.

(** The same two values on binary64. *)
Example rollover_correction_ieee :
  rolloverCorrect 600000%float = (-400000)%float
  /\ rolloverCorrect (-600000)%float = 400000%float.
Proof. vm_compute. split; reflexivity. Qed.

(** *** The selection of the best candidate *)

(** The dca of a candidate as a real, for candidates whose dca is finite. *)
Definition dcaR (c : matchCand (D := xreal)) : R :=
  match dca c with Fin x => x | _ => 0 end.

Definition finiteDca (c : matchCand (D := xreal)) : Prop :=
  exists x : R, dca c = Fin x.

Lemma selectByDCA_minimal (cands : list matchCand) :
  Forall finiteDca cands ->
  forall best : matchCand, finiteDca best ->
    let r := selectByDCA best cands in
    (r = best \/ In r cands)
    /\ (0 <= dcaR best -> 0 <= dcaR r <= dcaR best)
    /\ (forall c, In c cands -> 0 <= dcaR c -> 0 <= dcaR r <= dcaR c).
Proof.
  induction 1 as [ | c rest [x Hx] _ IH]; intros best [y Hy]; cbn zeta.
  - cbn [selectByDCA In]. split; [left; reflexivity | split; [lra | intros c []]].
  - cbn [selectByDCA].
    set (best' :=
           if dlt (dca best) (dofZ 0) then c
           else if dlt (dca c) (dca best) && dge (dca c) (dofZ 0) then c
                else best).
    assert (Hb' : (best' = best /\ 0 <= y /\ (x < 0 \/ y <= x))
                  \/ (best' = c /\ (y < 0 \/ (0 <= x < y)))).
    { subst best'. unfold dge. rewrite Hx, Hy. cbn.
      unfold Rltb, Rleb.
      destruct (Rlt_dec y 0), (Rlt_dec x y), (Rle_dec 0 x); cbn;
        first [ left; repeat split; lra | right; repeat split; lra
              | left; repeat split; auto; lra | right; repeat split; auto; lra ]. }
    assert (Hfin' : finiteDca best').
    { destruct Hb' as [[-> _] | [-> _]]; [now exists y | now exists x]. }
    destruct (IH best' Hfin') as (Hin & Hbest & Hrest).
    assert (Hdb : dcaR best = y) by (unfold dcaR; now rewrite Hy).
    assert (Hdc : dcaR c = x) by (unfold dcaR; now rewrite Hx).
    split; [ | split].
    + destruct Hin as [-> | Hin]; [ | right; right; exact Hin].
      destruct Hb' as [[-> _] | [-> _]]; [left; reflexivity | right; left; reflexivity].
    + intros Hy0. rewrite Hdb in *.
      destruct Hb' as [(-> & _ & _) | (-> & Hc)].
      * rewrite Hdb in Hbest. apply Hbest. lra.
      * rewrite Hdc in Hbest. lra.
    + intros c' [<- | Hc'] Hc0.
      * rewrite Hdc in *.
        destruct Hb' as [(-> & Hy0 & Hc) | (-> & Hc)].
        -- rewrite Hdb in Hbest. lra.
        -- rewrite Hdc in Hbest. lra.
      * now apply Hrest.
Qed.

(** With DCAoverLength off, the best match is a candidate of the list, and
    when some candidate has dca >= 0 it has the least such dca: a negative
    dca loses to every dca >= 0. *)
Lemma selectBest_byDCA_minimal (cfg : Config) (first : matchCand)
    (rest : list matchCand) :
  fDCAoverLength cfg = false ->
  Forall finiteDca (first :: rest) ->
  let best := selectBest cfg (first :: rest) in
  In best (first :: rest)
  /\ forall c, In c (first :: rest) -> 0 <= dcaR c -> 0 <= dcaR best <= dcaR c.
Proof.
  intros Hmode Hfin. cbn zeta. unfold selectBest. rewrite Hmode.
  destruct (selectByDCA_minimal Hfin (best := first)) as (Hin & _ & Hmin).
  { now inversion Hfin. }
  split; [ | exact Hmin].
  destruct Hin as [-> | Hin]; [left; reflexivity | exact Hin].
Qed.

(** C1, on the code.  With DCAoverLength on, every candidate is compared
    with the ratio of the first one, which the loop never updates: of the
    candidates (dca, length) = (5, 10), (4, 40), (3, 10) the last is
    returned, with ratio 0.3, and not the second, whose ratio 0.1 is the
    least. *)
Theorem DCAoverLength_returns_last_below_first :
  selectBest (exampleConfig 0 1 false true)
    [candidate 5 10; candidate 4 40; candidate 3 10]
  = (candidate 3 10 : matchCand (D := xreal))
  /\ dlt (ddiv (Fin 4) (Fin 40)) (ddiv (Fin 3) (Fin 10)) = true
  /\ selectBest (exampleConfig 0 1 false false)
       [candidate 5 10; candidate 4 40; candidate 3 10]
     = (candidate 3 10 : matchCand (D := xreal)).
Proof.
  repeat split; rcompare; reflexivity.
Qed.

(** The same selection on binary64. *)
Example DCAoverLength_returns_last_below_first_ieee :
  selectBest (exampleConfig 0 1 false true)
    [candidate 5 10; candidate 4 40; candidate 3 10]
  = (candidate 3 10 : matchCand (D := float)).
Proof. vm_compute. reflexivity. Qed.

(** *** Track directions on short tracks *)

Section DirectionsAnyCarrier.

Context {D : Type} `{DoubleOps D}.

Lemma at_nil {A : Type} (i : Z) : at_ (@nil A) i = OutOfRange.
Proof.
  unfold at_. destruct (i <? 0)%Z; [reflexivity | ].
  now destruct (Z.to_nat i).
Qed.

Lemma at_negative {A : Type} (v : list A) (i : Z) :
  (i < 0)%Z -> at_ v i = OutOfRange.
Proof. intros Hi. unfold at_. now rewrite (proj2 (Z.ltb_lt i 0) Hi). Qed.

(** With no kept trajectory point, [validPoints.at(0)] throws. *)
Lemma TrackDirectionAverageFromPoints_no_points (track : Track) (frac : D) :
  keptPoints track (LocationAtPoint track) = [] ->
  TrackDirectionAverageFromPoints track frac = OutOfRange.
Proof.
  intros Hnil. unfold TrackDirectionAverageFromPoints. rewrite Hnil.
  now rewrite at_nil.
Qed.

(** With fewer kept points than [1/frac], [endPoint] is 0 and
    [validPoints.at(endPoint-1)] throws. *)
Lemma TrackDirectionAverageFromPoints_few_points (track : Track) (frac : D) :
  (dfloorZ (dmul (dofZ (Z.of_nat (length (keptPoints track (LocationAtPoint track)))))
                 frac) <= 0)%Z ->
  TrackDirectionAverageFromPoints track frac = OutOfRange.
Proof.
  intros Hend. unfold TrackDirectionAverageFromPoints.
  destruct (at_ (keptPoints track (LocationAtPoint track)) 0); [ | reflexivity].
  cbn [bind]. rewrite at_negative by lia. reflexivity.
Qed.

(** The sibling TrackDirectionAverage sums over no point when [endPoint]
    is 0, and returns. *)
Lemma TrackDirectionAverage_no_iteration (track : Track) (frac : D) :
  (dfloorZ (dmul (dofZ (Z.of_nat (length (keptPoints track (DirectionAtPoint track)))))
                 frac) <= 0)%Z ->
  exists dirs, TrackDirectionAverage track frac = Ok dirs.
Proof.
  intros Hend. unfold TrackDirectionAverage.
  destruct (dfloorZ _) as [ | e | e] eqn:He; try lia; cbn; eauto.
Qed.

End DirectionsAnyCarrier.

Lemma Zfloor_half : Zfloor (1 * Q2R (1 # 2)) = 0%Z.
Proof. apply Zfloor_eq. unfold Q2R; cbn. lra. Qed.

Lemma Zfloor_zero_times (x : R) : Zfloor (0 * x) = 0%Z.
Proof. apply Zfloor_eq. cbn. lra. Qed.

(** C9, on the code.  TrackDirectionAverageFromPoints throws
    std::out_of_range for a track with no trajectory point, and for a
    track with one point and the default fraction 0.5; TrackDirectionAverage
    returns on both. *)
Theorem TrackDirectionAverageFromPoints_throws :
  TrackDirectionAverageFromPoints (straightTrack 0) (Fin (Q2R (1 # 2)))
    = OutOfRange
  /\ TrackDirectionAverageFromPoints (straightTrack 1) (Fin (Q2R (1 # 2)))
     = OutOfRange
  /\ (exists dirs,
        TrackDirectionAverage (straightTrack 0) (Fin (Q2R (1 # 2))) = Ok dirs)
  /\ (exists dirs,
        TrackDirectionAverage (straightTrack 1) (Fin (Q2R (1 # 2))) = Ok dirs).
Proof.
  split; [ | split; [ | split]].
  - now apply (@TrackDirectionAverageFromPoints_no_points xreal _).
  - apply (@TrackDirectionAverageFromPoints_few_points xreal _).
    cbn. rewrite Zfloor_half. cbn. lia.
  - apply (@TrackDirectionAverage_no_iteration xreal _).
    cbn. rewrite Zfloor_zero_times. cbn. lia.
  - apply (@TrackDirectionAverage_no_iteration xreal _).
    cbn. rewrite Zfloor_half. cbn. lia.
Qed.

(** The same on binary64. *)
Example TrackDirectionAverageFromPoints_throws_ieee :
  TrackDirectionAverageFromPoints (D := float) (straightTrack 0) (dlit (1 # 2))
    = OutOfRange
  /\ TrackDirectionAverageFromPoints (D := float) (straightTrack 1) (dlit (1 # 2))
     = OutOfRange.
Proof. vm_compute. split; reflexivity. Qed.

(** *** The slab test of CubeIntersection *)

(** [L] is a lower slab parameter that does not exclude [t]. *)
Definition lowerOK (t : R) (L : xreal) : Prop :=
  match L with Fin l => l <= t | PInf => False | _ => True end.

(** [U] is an upper slab parameter that does not exclude [t]. *)
Definition upperOK (t : R) (U : xreal) : Prop :=
  match U with Fin u => t <= u | NInf => False | _ => True end.

Lemma inv_zero : xdiv (Fin 1) (Fin 0) = PInf.
Proof. rcompare. reflexivity. Qed.

Lemma inv_nonzero (d : R) : d <> 0 -> xdiv (Fin 1) (Fin d) = Fin (1 / d).
Proof. apply xdiv_Fin. Qed.

Lemma slab_pos (lo hi s d : R) :
  0 < d ->
  slab (Fin lo) (Fin hi) (Fin s) (xdiv (Fin 1) (Fin d))
  = (Fin ((lo - s) * (1 / d)), Fin ((hi - s) * (1 / d))).
Proof.
  intros Hd. rewrite inv_nonzero by lra. unfold slab, dge. cbn.
  assert (0 < 1 / d) by (apply Rdiv_lt_0_compat; lra).
  rewrite Rleb_true by lra. reflexivity.
Qed.

Lemma slab_neg (lo hi s d : R) :
  d < 0 ->
  slab (Fin lo) (Fin hi) (Fin s) (xdiv (Fin 1) (Fin d))
  = (Fin ((hi - s) * (1 / d)), Fin ((lo - s) * (1 / d))).
Proof.
  intros Hd. rewrite inv_nonzero by lra. unfold slab, dge. cbn.
  assert (1 / d < 0).
  { unfold Rdiv. rewrite Rmult_1_l. now apply Rinv_lt_0_compat. }
  rewrite Rleb_false by lra. reflexivity.
Qed.

Lemma slab_zero (lo hi s : R) :
  slab (Fin lo) (Fin hi) (Fin s) (xdiv (Fin 1) (Fin 0))
  = (signed_inf (lo - s) true, signed_inf (hi - s) true).
Proof. rewrite inv_zero. reflexivity. Qed.

Lemma signed_inf_lower (x : R) : x <= 0 -> forall t, lowerOK t (signed_inf x true).
Proof.
  intros Hx t. unfold signed_inf.
  destruct (Req_dec_T x 0) as [-> | Hne].
  - rewrite Reqb_true by reflexivity. exact I.
  - rewrite Reqb_false by assumption. rewrite Rltb_false by lra. exact I.
Qed.

Lemma signed_inf_upper (x : R) : 0 <= x -> forall t, upperOK t (signed_inf x true).
Proof.
  intros Hx t. unfold signed_inf.
  destruct (Req_dec_T x 0) as [-> | Hne].
  - rewrite Reqb_true by reflexivity. exact I.
  - rewrite Reqb_false by assumption. rewrite Rltb_true by lra. exact I.
Qed.

Lemma signed_inf_not_Fin (x : R) (pos : bool) (l : R) : signed_inf x pos <> Fin l.
Proof.
  unfold signed_inf. destruct (Reqb x 0), (Rltb 0 x), pos; discriminate.
Qed.

Lemma scaled_le_pos (a d x : R) : 0 < d -> (a * (1 / d) <= x <-> a <= x * d).
Proof.
  intros Hd.
  assert (Hq : d * (1 / d) = 1) by (field; lra).
  assert (Hq0 : 0 < 1 / d) by (apply Rdiv_lt_0_compat; lra).
  split; intros Hle.
  - assert (a * (1 / d) * d <= x * d) by nra.
    replace (a * (1 / d) * d) with (a * (d * (1 / d))) in * by ring.
    rewrite Hq in *. lra.
  - assert (a * (1 / d) <= x * d * (1 / d)) by nra.
    replace (x * d * (1 / d)) with (x * (d * (1 / d))) in * by ring.
    rewrite Hq in *. lra.
Qed.

Lemma scaled_ge_pos (a d x : R) : 0 < d -> (x <= a * (1 / d) <-> x * d <= a).
Proof.
  intros Hd.
  pose proof (scaled_le_pos (- a) (- x) Hd) as Hs.
  split; intros Hle.
  - apply Ropp_le_cancel. replace (- (x * d)) with (- x * d) by ring.
    apply Hs. lra.
  - apply Ropp_le_cancel. replace (- (a * (1 / d))) with (- a * (1 / d)) by ring.
    apply Hs. lra.
Qed.

Lemma scaled_le_neg (a d x : R) : d < 0 -> (a * (1 / d) <= x <-> x * d <= a).
Proof.
  intros Hd.
  assert (Hd' : 0 < - d) by lra.
  pose proof (scaled_le_pos (- a) x Hd') as Hs.
  replace (- a * (1 / - d)) with (a * (1 / d)) in Hs by (field; lra).
  rewrite Hs. split; intros; lra.
Qed.

Lemma scaled_ge_neg (a d x : R) : d < 0 -> (x <= a * (1 / d) <-> a <= x * d).
Proof.
  intros Hd.
  assert (Hd' : 0 < - d) by lra.
  pose proof (scaled_ge_pos (- a) x Hd') as Hs.
  replace (- a * (1 / - d)) with (a * (1 / d)) in Hs by (field; lra).
  rewrite Hs. split; intros; lra.
Qed.

(** What the slab of one axis guarantees when the point at parameter [t]
    lies between the two planes: the two parameters bracket [t], and the
    point at any finite parameter between the lower one and [t] lies
    between the planes too. *)
Lemma slab_brackets (lo hi s d t : R) :
  lo <= s + t * d <= hi ->
  let LU := slab (Fin lo) (Fin hi) (Fin s) (xdiv (Fin 1) (Fin d)) in
  lowerOK t (fst LU) /\ upperOK t (snd LU)
  /\ forall l : R, l <= t -> (fst LU = Fin l \/ xlt (fst LU) (Fin l) = true) ->
       lo <= s + l * d <= hi.
Proof.
  intros Hin. cbn zeta.
  destruct (Rtotal_order d 0) as [Hneg | [Hzero | Hpos]].
  - rewrite slab_neg by assumption. cbn [fst snd lowerOK upperOK xlt].
    split; [apply scaled_le_neg; lra | split; [apply scaled_ge_neg; lra | ]].
    intros l Hl Hlow.
    assert (Hl' : (hi - s) * (1 / d) <= l).
    { destruct Hlow as [Heq | Hlt];
        [injection Heq as Heq; lra | apply Rltb_iff in Hlt; lra]. }
    apply (proj1 (scaled_le_neg _ _ Hneg)) in Hl'. nra.
  - subst d. rewrite slab_zero. cbn [fst snd].
    split; [apply signed_inf_lower; lra | split; [apply signed_inf_upper; lra | ]].
    intros l Hl _. lra.
  - rewrite slab_pos by assumption. cbn [fst snd lowerOK upperOK xlt].
    split; [apply scaled_le_pos; lra | split; [apply scaled_ge_pos; lra | ]].
    intros l Hl Hlow.
    assert (Hl' : (lo - s) * (1 / d) <= l).
    { destruct Hlow as [Heq | Hlt];
        [injection Heq as Heq; lra | apply Rltb_iff in Hlt; lra]. }
    apply (proj1 (scaled_le_pos _ _ Hpos)) in Hl'. nra.
Qed.

(** *** Comparisons of bracketing parameters *)

Lemma bracket_no_reject (t : R) (L U : xreal) :
  lowerOK t L -> upperOK t U -> dgt L U = false.
Proof.
  unfold dgt. destruct L as [l | | | ], U as [u | | | ]; cbn;
    try reflexivity; try contradiction.
  intros Hl Hu. apply Rltb_false. lra.
Qed.

Lemma xlt_trans (a b c : xreal) : xlt a b = true -> xlt b c = true -> xlt a c = true.
Proof.
  destruct a as [x | | | ], b as [y | | | ], c as [z | | | ]; cbn;
    try discriminate; try reflexivity.
  intros Hab Hbc. apply Rltb_iff in Hab, Hbc. apply Rltb_iff. lra.
Qed.

(** The entry coordinate on an axis is not the sentinel when the plane
    range of the axis does not contain it. *)
Lemma entry_not_sentinel (lo hi s d : R) (T : xreal) :
  (-99999 < lo \/ hi < -99999) ->
  (forall l : R, T = Fin l -> lo <= s + l * d <= hi) ->
  dne (dadd (Fin s) (dmul T (Fin d))) sentinel = true.
Proof.
  intros Hout Hcoord. unfold dne, sentinel.
  destruct T as [l | | | ]; cbn.
  - specialize (Hcoord l eq_refl). rewrite Reqb_false by lra. reflexivity.
  - unfold signed_inf. destruct (Reqb d 0), (Rltb 0 d); reflexivity.
  - unfold signed_inf. destruct (Reqb d 0), (Rltb 0 d); reflexivity.
  - reflexivity.
Qed.

Lemma lowerOK_Fin (t l : R) : lowerOK t (Fin l) -> l <= t.
Proof. exact (fun H => H). Qed.

(** The larger of two lower parameters, as lines 758 and 777 take it. *)
Lemma raise_lower (t : R) (L L' : xreal) :
  lowerOK t L -> lowerOK t L' ->
  let T := if dgt L' L then L' else L in
  lowerOK t T /\ (L = T \/ xlt L T = true).
Proof.
  intros HL HL'. cbn zeta. unfold dgt. cbn [dlt xreal_ops].
  destruct (xlt L L') eqn:Hlt; auto.
Qed.

Lemma lower_upper (t : R) (U U' : xreal) :
  upperOK t U -> upperOK t U' -> upperOK t (if dlt U' U then U' else U).
Proof. intros HU HU'. now destruct (dlt U' U). Qed.

(** When the point at parameter [t] of the line through [start] and [end]
    lies in the box, CubeIntersection reports a crossing, and the entry
    point it computes lies between the two x planes when its parameter is
    finite. *)
Lemma CubeIntersection_entry (ax ay az bx by_ bz sx sy sz ex ey ez t : R) :
  ax <= sx + t * (ex - sx) <= bx ->
  ay <= sy + t * (ey - sy) <= by_ ->
  az <= sz + t * (ez - sz) <= bz ->
  exists T : xreal,
    fX (fst (CubeIntersection
               (mkVec (Fin ax) (Fin ay) (Fin az)) (mkVec (Fin bx) (Fin by_) (Fin bz))
               (mkVec (Fin sx) (Fin sy) (Fin sz)) (mkVec (Fin ex) (Fin ey) (Fin ez))))
    = dadd (Fin sx) (dmul T (Fin (ex - sx)))
    /\ forall l : R, T = Fin l -> ax <= sx + l * (ex - sx) <= bx.
Proof.
  intros Hx Hy Hz.
  destruct (slab_brackets Hx) as (HLx & HUx & HCx).
  destruct (slab_brackets Hy) as (HLy & HUy & _).
  destruct (slab_brackets Hz) as (HLz & HUz & _).
  unfold CubeIntersection.
  cbn [vsub fX fY fZ dsub dofZ xreal_ops xsub xadd xneg].
  change (@ddiv xreal xreal_ops) with xdiv.
  change (ex + - sx) with (ex - sx).
  change (ey + - sy) with (ey - sy).
  change (ez + - sz) with (ez - sz).
  destruct (slab (Fin ax) (Fin bx) (Fin sx) (xdiv (Fin 1) (Fin (ex - sx))))
    as [Lx Ux].
  destruct (slab (Fin ay) (Fin by_) (Fin sy) (xdiv (Fin 1) (Fin (ey - sy))))
    as [Ly Uy].
  destruct (slab (Fin az) (Fin bz) (Fin sz) (xdiv (Fin 1) (Fin (ez - sz))))
    as [Lz Uz].
  cbn [fst snd] in *.
  rewrite (@bracket_no_reject t _ _ HLx HUy), (@bracket_no_reject t _ _ HLy HUx).
  cbn [orb].
  destruct (@raise_lower t _ _ HLx HLy) as (HL1 & HL1x).
  pose proof (@lower_upper t _ _ HUx HUy) as HU1.
  set (tmin1 := if dgt Ly Lx then Ly else Lx) in *.
  set (tmax1 := if dlt Uy Ux then Uy else Ux) in *.
  rewrite (@bracket_no_reject t _ _ HL1 HUz), (@bracket_no_reject t _ _ HLz HU1).
  cbn [orb].
  destruct (@raise_lower t _ _ HL1 HLz) as (HL2 & HL2x).
  set (tmin2 := if dgt Lz tmin1 then Lz else tmin1) in *.
  exists tmin2. split; [reflexivity | ].
  intros l Hl. apply HCx.
  - rewrite Hl in HL2. exact HL2.
  - rewrite <- Hl.
    destruct HL1x as [E1 | H1], HL2x as [E2 | H2].
    + left. now rewrite E1.
    + right. now rewrite E1.
    + right. now rewrite <- E2.
    + right. exact (@xlt_trans _ _ _ H1 H2).
Qed.

(** In exact arithmetic, and for a hit whose box does not reach the plane
    x = -99999, every segment that passes through the box (has a point of
    it) gets the box-mode distance 0: away from the marker, and from
    rounding, the check does what its comment says. *)
Lemma box_crossing_gives_zero
    (pes ts0 ts1 : xreal) (px py pz ux uy uz sx sy sz ex ey ez t : R) :
  -99999 < px - ux \/ px + ux < -99999 ->
  0 <= t <= 1 ->
  px - ux <= sx + t * (ex - sx) <= px + ux ->
  py - uy <= sy + t * (ey - sy) <= py + uy ->
  pz - uz <= sz + t * (ez - sz) <= pz + uz ->
  DistToCrtHit
    (mkHit pes ts0 ts1 (Fin px) (Fin ux) (Fin py) (Fin uy) (Fin pz) (Fin uz))
    (mkVec (Fin sx) (Fin sy) (Fin sz)) (mkVec (Fin ex) (Fin ey) (Fin ez))
  = Fin 0.
Proof.
  intros Hout _ Hx Hy Hz.
  destruct (@CubeIntersection_entry _ _ _ _ _ _ _ _ _ _ _ _ _ Hx Hy Hz) as (T & HT & Hcoord).
  unfold DistToCrtHit.
  cbn [x_pos x_err y_pos y_err z_pos z_err dsub dadd xreal_ops xsub xadd xneg].
  change (px + - ux) with (px - ux).
  change (py + - uy) with (py - uy).
  change (pz + - uz) with (pz - uz).
  rewrite HT.
  rewrite (@entry_not_sentinel _ _ _ _ T Hout Hcoord).
  reflexivity.
Qed.

(** Unfolds the geometry down to the operations of the carrier. *)
Ltac geounfold :=
  unfold DistToCrtHit, CubeIntersection, LineSegmentDistance, SimpleDCA, slab,
    noCrossing, sentinel, smallNum, Mag, Mag2, Dot, Cross, vsub, vadd,
    vscale, hitPos, vecZ, hitAt.

Lemma box_crossing_gives_zero_witness :
  DistToCrtHit (hitAt 0 0 0 0 4 1 4 : CRTHit (D := xreal))
    (vecZ (-2) (-3) (-2)) (vecZ 2 1 2)
  = Fin 0.
Proof.
  apply (@box_crossing_gives_zero (Fin 0) (Fin 0) (Fin 0)
           0 0 0 4 1 4 (-2) (-3) (-2) 2 1 2 (3 / 4)); lra.
Defined.

(** *** A box on the plane x = -99999 *)

Section SentinelBox.

Local Abbreviation vec x y z := (mkVec (Fin x) (Fin y) (Fin z)).

(** A hit at x = -99999 with uncertainties (4, 1, 4), and a segment that
    enters its box through the face y = -1, at x = -99999. *)
Definition sentinelHit : CRTHit (D := xreal) :=
  mkHit (Fin 0) (Fin 0) (Fin 0) (Fin (-99999)) (Fin 4) (Fin 0) (Fin 1) (Fin 0) (Fin 4).
Definition sentinelStart : TVector3 (D := xreal) := vec (-100001) (-3) (-2).
Definition sentinelEnd : TVector3 (D := xreal) := vec (-99997) 1 2.

Lemma sentinel_box_crossing :
  CubeIntersection (vec (-100003) (-1) (-4)) (vec (-99995) 1 4) sentinelStart sentinelEnd
  = (vec (-99999) (-1) 0, vec (-99997) 1 2).
Proof. unfold sentinelStart, sentinelEnd. geounfold. xeval. reflexivity. Qed.

Lemma sentinel_box_edge12 :
  LineSegmentDistance (vec (-100003) 0 (-4)) (vec (-99995) 0 (-4)) sentinelStart sentinelEnd
  = Fin (R_sqrt.sqrt (142569481 / 8388608)).
Proof. unfold sentinelStart, sentinelEnd. geounfold. xeval. reflexivity. Qed.

Lemma sentinel_box_edge13 :
  LineSegmentDistance (vec (-100003) 0 (-4)) (vec (-100003) 0 4) sentinelStart sentinelEnd
  = Fin (R_sqrt.sqrt (142569481 / 8388608)).
Proof. unfold sentinelStart, sentinelEnd. geounfold. xeval. reflexivity. Qed.

Lemma sentinel_box_edge42 :
  LineSegmentDistance (vec (-99995) 0 4) (vec (-99995) 0 (-4)) sentinelStart sentinelEnd
  = Fin (R_sqrt.sqrt (678850713 / 8388608)).
Proof. unfold sentinelStart, sentinelEnd. geounfold. xeval. reflexivity. Qed.

Lemma sentinel_box_edge43 :
  LineSegmentDistance (vec (-99995) 0 4) (vec (-100003) 0 4) sentinelStart sentinelEnd
  = Fin (R_sqrt.sqrt (678850713 / 8388608)).
Proof. unfold sentinelStart, sentinelEnd. geounfold. xeval. reflexivity. Qed.

(** C6, on the code.  The point at parameter 3/4 of the segment lies
    inside the box of the hit, and the box-mode distance is not 0: the
    x coordinate of the entry point, -99999, is the value by which
    CubeIntersection marks "no crossing", so the test under the comment
    "Check if track goes inside hit" takes the crossing for none. *)
Lemma sentinel_box_not_zero :
  (-99999 - 4 <= -100001 + 3 / 4 * (-99997 - -100001) <= -99999 + 4
   /\ 0 - 1 <= -3 + 3 / 4 * (1 - -3) <= 0 + 1
   /\ 0 - 4 <= -2 + 3 / 4 * (2 - -2) <= 0 + 4)
  /\ DistToCrtHit sentinelHit sentinelStart sentinelEnd = Fin (R_sqrt.sqrt (142569481 / 8388608))
  /\ deq (DistToCrtHit sentinelHit sentinelStart sentinelEnd) (Fin 0) = false.
Proof.
  split; [lra | ].
  assert (Hd : DistToCrtHit sentinelHit sentinelStart sentinelEnd
               = Fin (R_sqrt.sqrt (142569481 / 8388608))).
  { unfold DistToCrtHit, sentinelHit.
    cbn -[LineSegmentDistance CubeIntersection sentinelStart sentinelEnd]. qnorm.
    rewrite sentinel_box_crossing. unfold sentinel. xeval.
    rewrite sentinel_box_edge12, sentinel_box_edge13, sentinel_box_edge42,
      sentinel_box_edge43.
    unfold std_min. xeval. reflexivity. }
  split; [exact Hd | ].
  rewrite Hd. cbn. apply Reqb_sqrt_0. lra.
Qed.

End SentinelBox.

(** The same input on binary64. *)
Example sentinel_box_not_zero_ieee :
  deq (DistToCrtHit (hitAt 0 (-99999) 0 0 4 1 4 : CRTHit (D := float))
         (vecZ (-100001) (-3) (-2)) (vecZ (-99997) 1 2))
      0%float
  = false.
Proof. vm_compute. reflexivity. Qed.

(** On binary64 a crossing is also lost by rounding.  The segment from
    (0, -12, 0) to (3, 21, 0) touches the box of half-widths (1, 1, 5)
    about the origin at parameter 1/3, in the point (1, -1, 0); the y
    slab starts at 11 * (1/33), which rounds above the end 1 * (1/3) of
    the x slab, and CubeIntersection returns the marker. *)
Example grazing_segment_missed_ieee :
  fX (fst (CubeIntersection (vecZ (-1) (-1) (-5)) (vecZ 1 1 5)
             (vecZ 0 (-12) 0 : TVector3 (D := float)) (vecZ 3 21 0)))
  = (-99999)%float
  /\ dlt 5%float
       (DistToCrtHit (hitAt 0 0 0 0 1 1 5 : CRTHit (D := float))
          (vecZ 0 (-12) 0) (vecZ 3 21 0))
     = true.
Proof. vm_compute. split; reflexivity. Qed.

(** *** A hit without uncertainty *)

Section PointHit.

Local Abbreviation vec x y z := (mkVec (Fin x) (Fin y) (Fin z)).

(** A hit at (10, 11, 2) with no uncertainty, seen from the origin along
    the short direction (1, 2, 2) / 2^24. *)
Definition pointHit : CRTHit (D := xreal) :=
  mkHit (Fin 0) (Fin 0) (Fin 0) (Fin 10) (Fin 0) (Fin 11) (Fin 0) (Fin 2) (Fin 0).





(** A line in the plane x = x_pos of such a hit: the x slab is NaN, every
    comparison with it is false, and CubeIntersection reports a crossing
    although the line stays 38/5 away from the hit. *)
Lemma in_plane_line_counts_as_crossing :
  DistToCrtHit pointHit (vec 10 0 0) (vadd (vec 10 0 0) (vec 0 3 4)) = Fin 0
  /\ SimpleDCA pointHit (vec 10 0 0) (vec 0 3 4) = Fin (38 / 5).
Proof.
  split.
  - unfold pointHit. geounfold. xeval. reflexivity.
  - unfold pointHit. geounfold. xeval. reflexivity.
Qed.

End PointHit.

(** The same input on binary64. *)
Example box_mode_differs_from_point_mode_ieee :
  DistToCrtHit (hitAt 0 10 11 2 0 0 0 : CRTHit (D := float)) (vecZ 0 0 0)
    (vadd (vecZ 0 0 0)
       (mkVec (dlit (1 # 16777216)) (dlit (2 # 16777216)) (dlit (2 # 16777216))))
  = 15%float
  /\ SimpleDCA (hitAt 0 10 11 2 0 0 0 : CRTHit (D := float)) (vecZ 0 0 0)
       (mkVec (dlit (1 # 16777216)) (dlit (2 # 16777216)) (dlit (2 # 16777216)))
     = 9%float.
Proof. vm_compute. split; reflexivity. Qed.

(** *** Box mode and point mode for a hit without uncertainty *)

Section PointBox.

Local Abbreviation vec x y z := (mkVec (Fin x) (Fin y) (Fin z)).

Variables px py pz sx sy sz ex ey ez : R.

(** The direction of the line, the vector from [start] to the hit, and
    their scalar products. *)
Let vx := ex - sx.
Let vy := ey - sy.
Let vz := ez - sz.
Let wx := px - sx.
Let wy := py - sy.
Let wz := pz - sz.
Let c := vx * vx + vy * vy + vz * vz.
Let e := vx * wx + vy * wy + vz * wz.

Lemma sum_squares_nonneg (a b d : R) : 0 <= a * a + b * b + d * d.
Proof. nra. Qed.

Lemma small_lt_1 : Q2R (1 # 100000) = 1 / 100000.
Proof. unfold Q2R; cbn. lra. Qed.



















End PointBox.


Lemma sum_squares_zero (a b d : R) :
  a * a + b * b + d * d = 0 -> a = 0 /\ b = 0 /\ d = 0.
Proof. intros Hsum. repeat split; nra. Qed.




End MatchingProofs.

(** ** Properties of the coincidence loop *)

Module DetSimProofs.

Import XReal XRealFacts RConst IEEE CRTDetSim.

Section AnyCarrier.

Context {D : Type} `{DoubleOps D}.

Variable p : Params (D := D).
Variable taggers : list (Z * Tagger).
Variable key : Z.
Variable trg : Tagger.

(** The hit [h] arrives strictly later than the dead time of the open
    window of [st]. *)
Definition afterDeadTime (st : LoopState (D := D)) (h : CRTChannelData) : bool :=
  dgt (hitTicksTime p h) (dadd (ttrig st) (fDeadTime p)).

(** What the open window of [st] is read out as. *)
Definition readoutOf (st : LoopState (D := D)) (mp : Z * Z) : CRTData (D := D) :=
  mkCRTData key (event st) (ttrig st) (Channel (chanTrigData st)) (tpair st)
    mp (passingData st).

(** The three ways an iteration leaves the output: unchanged, or with the
    open window appended, and then the hit is after the dead time. *)
Definition emitsOnlyAfterDeadTime (st st' : LoopState (D := D)) (h : CRTChannelData)
    : Prop :=
  triggeredCRTHits st' = triggeredCRTHits st
  \/ (afterDeadTime st h = true
      /\ exists mp, triggeredCRTHits st'
                    = triggeredCRTHits st ++ [readoutOf st mp]).

Lemma accumulate_output (st : LoopState (D := D)) (h : CRTChannelData) (ttmp : D) :
  triggeredCRTHits (accumulate p trg st h ttmp) = triggeredCRTHits st.
Proof.
  unfold accumulate.
  destruct (set_insert (Channel h) (trackNHold st)) as [track' [ | ]].
  - now destruct (set_insert _ (layerNHold st)) as [layer' newLayer].
  - now destruct (dlt ttmp (dadd (ttrig st) (fBiasTime p))).
Qed.

Lemma windowing_output (st : LoopState (D := D)) (h : CRTChannelData) :
  emitsOnlyAfterDeadTime st (windowing p key trg st h (hitTicksTime p h)) h.
Proof.
  unfold windowing, emitsOnlyAfterDeadTime.
  destruct (inReadoutWindow p trg (ttrig st) (hitTicksTime p h)).
  - left. apply accumulate_output.
  - destruct (dle (hitTicksTime p h) (dadd (ttrig st) (fDeadTime p)));
      [now left | ].
    destruct (dgt (hitTicksTime p h) (dadd (ttrig st) (fDeadTime p))) eqn:Hgt;
      [ | now left].
    right. split; [exact Hgt | ].
    exists (trgMacPair st). reflexivity.
Qed.

Lemma step_output (st : LoopState (D := D)) (h : CRTChannelData) :
  emitsOnlyAfterDeadTime st (step p taggers key trg st h) h.
Proof.
  unfold step.
  destruct (_ && _).
  - left. reflexivity.
  - destruct (is_type trg m_ && negb (minosPairFound st) && fApplyCoincidenceM p).
    + destruct (minosPartner p taggers key trg (ttrig st)) as [key2 | ].
      * exact (windowing_output (withPairFound st (key, key2)) h).
      * left. reflexivity.
    + destruct (negb (is_type trg m_)).
      * exact (windowing_output (withMacPair st (key, key)) h).
      * exact (windowing_output st h).
Qed.

(** The trigger of the open window stays, or becomes the hit at hand. *)
Definition triggerOf (st : LoopState (D := D)) (h : CRTChannelData) : Prop :=
  chanTrigData st = h /\ ttrig st = hitTicksTime p h.

Lemma accumulate_trigger (st : LoopState (D := D)) (h : CRTChannelData) (ttmp : D) :
  chanTrigData (accumulate p trg st h ttmp) = chanTrigData st
  /\ ttrig (accumulate p trg st h ttmp) = ttrig st.
Proof.
  unfold accumulate.
  destruct (set_insert (Channel h) (trackNHold st)) as [track' [ | ]].
  - now destruct (set_insert _ (layerNHold st)) as [layer' newLayer].
  - now destruct (dlt ttmp (dadd (ttrig st) (fBiasTime p))).
Qed.

Lemma windowing_trigger (st : LoopState (D := D)) (h : CRTChannelData) :
  (chanTrigData (windowing p key trg st h (hitTicksTime p h)) = chanTrigData st
   /\ ttrig (windowing p key trg st h (hitTicksTime p h)) = ttrig st)
  \/ triggerOf (windowing p key trg st h (hitTicksTime p h)) h.
Proof.
  unfold windowing.
  destruct (inReadoutWindow p trg (ttrig st) (hitTicksTime p h)).
  - left. apply accumulate_trigger.
  - destruct (dle (hitTicksTime p h) (dadd (ttrig st) (fDeadTime p)));
      [now left | ].
    destruct (dgt (hitTicksTime p h) (dadd (ttrig st) (fDeadTime p)));
      [right; split; reflexivity | now left].
Qed.

Lemma step_trigger (st : LoopState (D := D)) (h : CRTChannelData) :
  (chanTrigData (step p taggers key trg st h) = chanTrigData st
   /\ ttrig (step p taggers key trg st h) = ttrig st)
  \/ triggerOf (step p taggers key trg st h) h.
Proof.
  unfold step.
  destruct (_ && _).
  - right. split; reflexivity.
  - destruct (is_type trg m_ && negb (minosPairFound st) && fApplyCoincidenceM p).
    + destruct (minosPartner p taggers key trg (ttrig st)) as [key2 | ].
      * exact (windowing_trigger (withPairFound st (key, key2)) h).
      * right. split; reflexivity.
    + destruct (negb (is_type trg m_)).
      * exact (windowing_trigger (withMacPair st (key, key)) h).
      * exact (windowing_trigger st h).
Qed.

Lemma accumulate_open (st : LoopState (D := D)) (h : CRTChannelData) (ttmp : D) :
  passingData st <> [] -> passingData (accumulate p trg st h ttmp) <> [].
Proof.
  intros Hne. unfold accumulate.
  destruct (set_insert (Channel h) (trackNHold st)) as [track' [ | ]].
  - destruct (set_insert _ (layerNHold st)) as [layer' newLayer]. cbn.
    now destruct (passingData st).
  - destruct (dlt ttmp (dadd (ttrig st) (fBiasTime p))); [ | exact Hne]. cbn.
    destruct (rev (passingData st)) as [ | back front] eqn:Hrev.
    + apply (f_equal (@rev _)) in Hrev. rewrite rev_involutive in Hrev.
      contradiction.
    + now destruct (rev front).
Qed.

Lemma windowing_open (st : LoopState (D := D)) (h : CRTChannelData) :
  passingData st <> [] ->
  passingData (windowing p key trg st h (hitTicksTime p h)) <> [].
Proof.
  intros Hne. unfold windowing.
  destruct (inReadoutWindow p trg (ttrig st) (hitTicksTime p h)).
  - now apply accumulate_open.
  - destruct (dle (hitTicksTime p h) (dadd (ttrig st) (fDeadTime p)));
      [exact Hne | ].
    destruct (dgt (hitTicksTime p h) (dadd (ttrig st) (fDeadTime p)));
      [discriminate | exact Hne].
Qed.

Lemma step_open (st : LoopState (D := D)) (h : CRTChannelData) :
  passingData st <> [] -> passingData (step p taggers key trg st h) <> [].
Proof.
  intros Hne. unfold step.
  destruct (_ && _); [discriminate | ].
  destruct (is_type trg m_ && negb (minosPairFound st) && fApplyCoincidenceM p).
  - destruct (minosPartner p taggers key trg (ttrig st)) as [key2 | ];
      [ | discriminate].
    now apply (windowing_open (withPairFound st (key, key2))).
  - destruct (negb (is_type trg m_)).
    + now apply (windowing_open (withMacPair st (key, key))).
    + now apply windowing_open.
Qed.

Lemma fold_step_open (hits : list CRTChannelData) (st : LoopState (D := D)) :
  passingData st <> [] ->
  passingData (fold_left (step p taggers key trg) hits st) <> [].
Proof.
  revert st. induction hits as [ | h rest IH]; intros st Hne; [exact Hne | ].
  cbn [fold_left]. apply IH. now apply step_open.
Qed.

(** An open window whose trigger is a hit of the tagger and that has read
    nothing out. *)
Definition quiet (st : LoopState (D := D)) : Prop :=
  In (chanTrigData st) (data trg)
  /\ ttrig st = hitTicksTime p (chanTrigData st)
  /\ triggeredCRTHits st = [].

(** No hit of the tagger is later than the dead time of another one. *)
Definition withinDeadTime : Prop :=
  forall h h' : CRTChannelData,
    In h (data trg) -> In h' (data trg) ->
    dgt (hitTicksTime p h') (dadd (hitTicksTime p h) (fDeadTime p)) = false.

Lemma step_quiet (st : LoopState (D := D)) (h : CRTChannelData) :
  withinDeadTime -> In h (data trg) -> quiet st ->
  quiet (step p taggers key trg st h).
Proof.
  intros Hdead Hh (Hin & Htime & Hout).
  assert (Hno : afterDeadTime st h = false).
  { unfold afterDeadTime. rewrite Htime. now apply Hdead. }
  repeat split.
  - destruct (step_trigger st h) as [[-> _] | [-> _]]; assumption.
  - destruct (step_trigger st h) as [[-> ->] | [-> ->]]; [exact Htime | reflexivity].
  - destruct (step_output st h) as [-> | [Hafter _]]; [exact Hout | congruence].
Qed.

Lemma fold_step_quiet (hits : list CRTChannelData) (st : LoopState (D := D)) :
  withinDeadTime -> (forall h, In h hits -> In h (data trg)) -> quiet st ->
  quiet (fold_left (step p taggers key trg) hits st).
Proof.
  intros Hdead. revert st.
  induction hits as [ | h rest IH]; intros st Hsub Hq; [exact Hq | ].
  cbn [fold_left]. apply IH.
  - intros h' Hh'. apply Hsub. now right.
  - apply step_quiet; try assumption. apply Hsub. now left.
Qed.

Lemma insertByT0_In (x y : CRTChannelData) (l : list CRTChannelData) :
  In y (insertByT0 x l) <-> y = x \/ In y l.
Proof.
  induction l as [ | z l IH]; cbn.
  - intuition congruence.
  - destruct (T0 z <? T0 x)%Z; cbn; [ | intuition congruence].
    rewrite IH. intuition congruence.
Qed.

Lemma sortByT0_In (y : CRTChannelData) (l : list CRTChannelData) :
  In y (sortByT0 l) <-> In y l.
Proof.
  induction l as [ | x l IH]; cbn; [reflexivity | ].
  rewrite insertByT0_In, IH. intuition congruence.
Qed.

(** C10.  An iteration appends a readout only when its hit is strictly
    later than the trigger time plus the dead time, and then it is the
    open window that is appended; the window open after the last hit is
    not appended (it is not empty, and the output is what the iterations
    left).  So a tagger with one entry, and a tagger none of whose hits is
    later than the dead time of another, produce nothing. *)
Theorem readout_only_after_dead_time :
  (forall (st : LoopState (D := D)) (h : CRTChannelData),
      triggeredCRTHits (step p taggers key trg st h) = triggeredCRTHits st
      \/ (dgt (hitTicksTime p h) (dadd (ttrig st) (fDeadTime p)) = true
          /\ exists mp,
               triggeredCRTHits (step p taggers key trg st h)
               = triggeredCRTHits st
                 ++ [mkCRTData key (event st) (ttrig st)
                       (Channel (chanTrigData st)) (tpair st) mp
                       (passingData st)]))
  /\ (forall st : LoopState (D := D),
         coincidenceLoop p taggers key trg = Some st -> passingData st <> [])
  /\ (length (data trg) = 1%nat -> produceTagger p taggers key trg = [])
  /\ ((forall h h' : CRTChannelData,
          In h (data trg) -> In h' (data trg) ->
          dgt (hitTicksTime p h') (dadd (hitTicksTime p h) (fDeadTime p)) = false) ->
      produceTagger p taggers key trg = []).
Proof.
  split; [exact step_output | split; [ | split]].
  - intros st. unfold coincidenceLoop.
    destruct (sortByT0 (data trg)) as [ | first rest]; [discriminate | ].
    intros Hst. injection Hst as <-. apply fold_step_open. discriminate.
  - intros Hone. unfold produceTagger, coincidenceLoop.
    destruct (data trg) as [ | x [ | y l]]; try discriminate.
    cbn. now destruct (coincidencePossible p trg).
  - intros Hdead. unfold produceTagger, coincidenceLoop.
    destruct (coincidencePossible p trg); [ | reflexivity].
    destruct (sortByT0 (data trg)) as [ | first rest] eqn:Hsort; [reflexivity | ].
    assert (Hsub : forall h, In h (first :: rest) -> In h (data trg)).
    { intros h Hh. apply sortByT0_In. now rewrite Hsort. }
    assert (Hq : quiet (fold_left (step p taggers key trg) rest
                          (initialState p trg first))).
    { apply fold_step_quiet; [exact Hdead | | ].
      - intros h Hh. apply Hsub. now right.
      - repeat split. apply Hsub. now left. }
    exact (proj2 (proj2 Hq)).
Qed.

End AnyCarrier.

(** *** Two hits 50 time units apart *)

Local Open Scope R_scope.

(** The layer-coincidence window and switch that the loop reads for a
    tagger: those of the tagger's type. *)
Definition layerWindow {D : Type} `{DoubleOps D} (p : Params (D := D))
    (trg : Tagger) : D :=
  if is_type trg c_ then fLayerCoincidenceWindowC p
  else if is_type trg d_ then fLayerCoincidenceWindowD p
  else fLayerCoincidenceWindowM p.

Definition applyCoincidence {D : Type} `{DoubleOps D} (p : Params (D := D))
    (trg : Tagger) : bool :=
  if is_type trg c_ then fApplyCoincidenceC p
  else if is_type trg d_ then fApplyCoincidenceD p
  else fApplyCoincidenceM p.

Section TwoHits.

(** The module type, and what the loop does not read or reads only through
    [chanlayer_at]. *)
Variable ty : Ascii.ascii.
Variable region : String.string.
Variables stack : Z.
Variable layers : uset.
Variable chl : list (Z * Z).
Variable mp : Z * Z.
Variable others : list (Z * Tagger).
Variable key : Z.

(** Two hits on channels [c1] and [c2], at ticks [k1 < k2], which the
    trigger clock reads as [t1] and [t1 + 50]; a dead time of 200. *)
Variables c1 c2 k1 k2 pps1 pps2 adc1 adc2 : Z.
Variable t1 : R.
Variable p : Params (D := xreal).

Let h1 : CRTChannelData := mkChannelData c1 k1 pps1 adc1.
Let h2 : CRTChannelData := mkChannelData c2 k2 pps2 adc2.
Let trg : Tagger := mkTagger ty region stack layers chl mp [h1; h2].

Hypothesis Hty : ty = c_ \/ ty = d_ \/ ty = m_.
Hypothesis Hchan : c1 <> c2.
Hypothesis Hticks : (k1 < k2)%Z.
Hypothesis Hclock1 : Time p (Fin (IZR k1)) = Fin t1.
Hypothesis Hclock2 : Time p (Fin (IZR k2)) = Fin (t1 + 50).
Hypothesis Hdead : fDeadTime p = Fin 200.










End TwoHits.

(** *** One module with two hits *)

(** The three windows set to [w] (the loop multiplies them by 1e-3), the
    dead time to 200, the three coincidence switches to [coincidence]. *)
Definition windowParams (clock : xreal -> xreal) (bias : xreal) (w : R)
    (coincidence : bool) : Params (D := xreal) :=
  mkParams coincidence coincidence coincidence (Fin w) (Fin w) (Fin w)
    (Fin 200) bias clock.

(** Channels 3 and 5 (layers 0 and 1), at ticks 1000 and 1050, on a clock
    that reads one time unit per tick. *)
Definition firstHit : CRTChannelData := mkChannelData 3 1000 0 100.
Definition secondHit : CRTChannelData := mkChannelData 5 1050 0 120.
Definition unitClock (ticks : xreal) : xreal := ticks.
Definition twoHitTagger (ty : Ascii.ascii) : Tagger :=
  mkTagger ty String.EmptyString 0 [0%Z; 1%Z] [(3%Z, 0%Z); (5%Z, 1%Z)]
    (0%Z, 0%Z) [firstHit; secondHit].
Definition oneHitTagger : Tagger :=
  mkTagger m_ String.EmptyString 0 [0%Z] [(3%Z, 0%Z)] (0%Z, 0%Z) [firstHit].

(** A second MINOS module of the same stack and region, hit on layer 1 at
    tick 1020. *)
Definition partnerTagger : Tagger :=
  mkTagger m_ String.EmptyString 0 [1%Z] [(4%Z, 1%Z)] (0%Z, 0%Z)
    [mkChannelData 4 1020 0 90].





Lemma readout_only_after_dead_time_witness :
  produceTagger (windowParams unitClock (Fin 0) 30000 false) [] 7 oneHitTagger = []
  /\ produceTagger (windowParams unitClock (Fin 0) 30000 false) [] 7
       (twoHitTagger m_) = [].
Proof.
  split.
  - apply (proj1 (proj2 (proj2
             (@readout_only_after_dead_time xreal _
                (windowParams unitClock (Fin 0) 30000 false) [] 7 oneHitTagger)))).
    reflexivity.
  - apply (proj2 (proj2 (proj2
             (@readout_only_after_dead_time xreal _
                (windowParams unitClock (Fin 0) 30000 false) [] 7
                (twoHitTagger m_))))).
    intros h h' [<- | [<- | []]] [<- | [<- | []]];
      unfold hitTicksTime, windowParams, unitClock, firstHit, secondHit;
      cbn; unfold dgt; cbn; repeat rdecide; reflexivity.
Defined.

(** The same runs on binary64. *)
Example second_hit_dropped_in_dead_time_ieee :
  let p w on : Params (D := float) :=
    mkParams on on on (dofZ w) (dofZ w) (dofZ w) (dofZ 200) (dofZ 0)
      (fun ticks => ticks) in
  option_map (fun st => passingData st)
    (coincidenceLoop (p 100000%Z false) [] 7 (twoHitTagger m_))
  = Some [firstHit; secondHit]
  /\ option_map (fun st => passingData st)
       (coincidenceLoop (p 100000%Z true) [(9%Z, partnerTagger)] 7
          (twoHitTagger m_))
     = Some [firstHit; secondHit]
  /\ option_map (fun st => passingData st)
       (coincidenceLoop (p 100000%Z true) [] 7 (twoHitTagger m_))
     = Some [secondHit]
  /\ option_map (fun st => passingData st)
       (coincidenceLoop (p 30000%Z false) [] 7 (twoHitTagger m_))
     = Some [firstHit]
  /\ option_map (fun st => passingData st)
       (coincidenceLoop (p 30000%Z true) [] 7 (twoHitTagger c_))
     = Some [secondHit]
  /\ produceTagger (p 30000%Z false) [] 7 (twoHitTagger m_) = []
  /\ produceTagger (p 30000%Z true) [] 7 (twoHitTagger c_) = [].
Proof. vm_compute. repeat split; reflexivity. Qed.

End DetSimProofs.

(** ** Further properties of the matcher *)

Module MatchingExtras.

Import XReal XRealFacts RConst IEEE CRTT0MatchAlg CRTT0MatchAlgCallers.
Import MatchingProofs.
Local Open Scope R_scope.

(** *** Where the best match comes from *)

Section Provenance.

Context {D : Type} `{DoubleOps D}.

Variables (cfg : Config (D := D)) (svc : Services (D := D)) (trk : Track (D := D)).
Variables (t0MinMax : D * D) (dd trig : Z).

Lemma selectByDCA_In (cands : list matchCand) :
  forall best : matchCand,
    selectByDCA best cands = best \/ In (selectByDCA best cands) cands.
Proof.
  induction cands as [ | c rest IH]; intros best; cbn [selectByDCA].
  - left; reflexivity.
  - match goal with
    | |- context [selectByDCA ?b rest] => destruct (IH b) as [E | Hin]
    end.
    + rewrite E.
      destruct (dlt (dca best) (dofZ 0)); [right; left; reflexivity | ].
      destruct (dlt (dca c) (dca best) && dge (dca c) (dofZ 0));
        [right; left; reflexivity | left; reflexivity].
    + right; right; exact Hin.
Qed.

Lemma selectByDCAoverLength_In (sin_angle : D) (cands : list matchCand) :
  forall best : matchCand,
    selectByDCAoverLength sin_angle best cands = best
    \/ In (selectByDCAoverLength sin_angle best cands) cands.
Proof.
  induction cands as [ | c rest IH]; intros best; cbn [selectByDCAoverLength].
  - left; reflexivity.
  - cbv zeta.
    match goal with
    | |- context [selectByDCAoverLength sin_angle ?b rest] =>
        destruct (IH b) as [E | Hin]
    end.
    + rewrite E.
      destruct (dlt (dca best) (dofZ 0)); [right; left; reflexivity | ].
      destruct (dlt (ddiv (dca c) (extrapLen c)) sin_angle && dge (dca c) (dofZ 0));
        [right; left; reflexivity | left; reflexivity].
    + right; right; exact Hin.
Qed.

Lemma selectBest_In (c : matchCand) (rest : list matchCand) :
  In (selectBest cfg (c :: rest)) (c :: rest).
Proof.
  unfold selectBest. destruct (fDCAoverLength cfg).
  - destruct (selectByDCAoverLength_In
                (ddiv (dca c) (extrapLen c)) (c :: rest) c) as [E | Hin];
      [rewrite E; left; reflexivity | exact Hin].
  - destruct (selectByDCA_In (c :: rest) c) as [E | Hin];
      [rewrite E; left; reflexivity | exact Hin].
Qed.

(** The candidates pushed by the loop over the hits, hit by hit. *)
Lemma collectCandidates_In (crtHits : list CRTHit) :
  forall cs : list matchCand,
    collectCandidates cfg svc trk t0MinMax dd trig crtHits = Ok cs ->
    (forall c, In c cs ->
       exists h, In h crtHits
                 /\ hitCandidate cfg svc trk t0MinMax dd trig h = Ok (Some c))
    /\ (cs = [] ->
        Forall (fun h => hitCandidate cfg svc trk t0MinMax dd trig h = Ok None)
          crtHits).
Proof.
  induction crtHits as [ | h rest IH]; intros cs; cbn [collectCandidates].
  - intros E. injection E as <-. split; [intros c [] | constructor].
  - destruct (hitCandidate cfg svc trk t0MinMax dd trig h) as [oc | ] eqn:Hh;
      cbn [bind]; [ | discriminate].
    destruct (collectCandidates cfg svc trk t0MinMax dd trig rest) as [cs' | ];
      cbn [bind]; [ | discriminate].
    destruct (IH cs' eq_refl) as (IHin & IHnil).
    intros E. injection E as <-. split.
    + intros c Hc. destruct oc as [mc | ].
      * destruct Hc as [<- | Hc].
        -- exists h. split; [left; reflexivity | exact Hh].
        -- destruct (IHin c Hc) as (h' & Hin' & Hh').
           exists h'. split; [right; exact Hin' | exact Hh'].
      * destruct (IHin c Hc) as (h' & Hin' & Hh').
        exists h'. split; [right; exact Hin' | exact Hh'].
    + destruct oc as [mc | ]; [discriminate | ].
      intros ->. constructor; [exact Hh | now apply IHnil].
Qed.

(** What a pushed candidate records. *)
Lemma hitCandidate_Some (h : CRTHit) (c : matchCand) :
  hitCandidate cfg svc trk t0MinMax dd trig h = Ok (Some c) ->
  inT0Window t0MinMax (hitTime cfg h trig) = true
  /\ passesQualityCuts cfg h = true
  /\ thishit c = h
  /\ t0 c = hitTime cfg h trig.
Proof.
  unfold hitCandidate, scoreHit.
  destruct (inT0Window t0MinMax (hitTime cfg h trig)); cbn [negb];
    [ | discriminate].
  destruct (passesQualityCuts cfg h); cbn [negb]; [ | discriminate].
  destruct (if (fDirMethod cfg =? 2)%Z then _ else _) as [dirs | ];
    cbn [bind]; [ | discriminate].
  destruct (_ || _); [ | discriminate].
  destruct (dlt _ _); intros E; injection E as <-; repeat split; reflexivity.
Qed.

(** The best match is the null candidate or the candidate pushed for its
    own hit. *)
Lemma selected_candidate (crtHits : list CRTHit) (mc : matchCand) :
  GetClosestCRTHit cfg svc trk t0MinMax crtHits dd trig = Ok mc ->
  (mc = makeNULLmc
   /\ Forall (fun h => hitCandidate cfg svc trk t0MinMax dd trig h = Ok None)
        crtHits)
  \/ (In (thishit mc) crtHits
      /\ hitCandidate cfg svc trk t0MinMax dd trig (thishit mc) = Ok (Some mc)).
Proof.
  unfold GetClosestCRTHit.
  destruct (collectCandidates cfg svc trk t0MinMax dd trig crtHits)
    as [cs | ] eqn:Hcs; cbn [bind]; [ | discriminate].
  destruct (collectCandidates_In crtHits Hcs) as (Hin & Hnil).
  intros E. injection E as <-.
  destruct cs as [ | c rest].
  - left. split; [reflexivity | now apply Hnil].
  - right.
    destruct (Hin _ (selectBest_In c rest)) as (h & Hh & Hc).
    destruct (hitCandidate_Some _ Hc) as (_ & _ & Hhit & _).
    rewrite Hhit. split; assumption.
Qed.

(** X1.  When GetClosestCRTHit returns, the best match is the makeNULLmc
    candidate, and then no hit of the list gave a candidate, or it is the
    candidate pushed for one of the hits of the list: that hit passed the
    time window and the PE and uncertainty cuts, and the t0 recorded is
    the corrected time of that hit. *)
Theorem best_match_is_null_or_from_a_hit (crtHits : list CRTHit)
    (mc : matchCand) :
  GetClosestCRTHit cfg svc trk t0MinMax crtHits dd trig = Ok mc ->
  (mc = makeNULLmc
   /\ Forall (fun h => hitCandidate cfg svc trk t0MinMax dd trig h = Ok None)
        crtHits)
  \/ (In (thishit mc) crtHits
      /\ hitCandidate cfg svc trk t0MinMax dd trig (thishit mc) = Ok (Some mc)
      /\ inT0Window t0MinMax (t0 mc) = true
      /\ passesQualityCuts cfg (thishit mc) = true
      /\ t0 mc = hitTime cfg (thishit mc) trig).
Proof.
  intros Hmc. destruct (selected_candidate _ Hmc) as [(Hnull & Hall) | (Hin & Hc)].
  - left. split; assumption.
  - right. destruct (hitCandidate_Some _ Hc) as (Hw & Hq & _ & Ht).
    rewrite Ht. repeat split; assumption.
Qed.

End Provenance.

(** *** A track of three points and a hit beside it *)

(** A track along z from the origin to z = 40, with its middle point at
    z = 20. *)
Definition threePointTrack : Track (D := xreal) :=
  mkTrack 3 (vecZ 0 0 0) (vecZ 0 0 40) (fun i => vecZ 0 0 (20 * i))
    (fun _ => vecZ 0 0 1) (fun _ => InvalidHitIndex) (Fin 40).

(** A hit 12 cm off the track, 13 cm from its start and 37 cm from its
    end. *)
Definition sideHit : CRTHit (D := xreal) := hitAt 10 0 12 5 1 1 1.

Lemma threePointTrack_middle :
  dfloorZ (dmul (dofZ (Z.of_nat 3)) (Fin (Q2R (1 # 2)))) = 1%Z.
Proof.
  cbn -[Zfloor]. replace (3 * Q2R (1 # 2)) with (3 / 2) by (unfold Q2R; cbn; lra).
  assert (Hf : Zfloor (3 / 2) = 1%Z) by (apply Zfloor_eq; cbn; lra).
  rewrite Hf. reflexivity.
Qed.

Lemma threePointTrack_directions (cfg : Config) (dd : Z) :
  dd = 0%Z \/ dd = 1%Z ->
  TrackDirection cfg exampleServices threePointTrack (Fin (Q2R (1 # 2)))
    (Fin 0) dd
  = (vecZ 0 0 1, vecZ 0 0 (-1)).
Proof.
  intros Hdd. unfold TrackDirection.
  change (NumberTrajectoryPoints threePointTrack) with 3%nat.
  rewrite threePointTrack_middle.
  unfold sceCorrect, shiftX, normalizeIfPositive, exampleServices, threePointTrack.
  destruct Hdd as [-> | ->]; geounfold; xeval; reflexivity.
Qed.

Lemma sideHit_start_distance :
  SimpleDCA sideHit (vecZ 0 0 0) (vecZ 0 0 1) = Fin 12.
Proof. unfold sideHit. geounfold. xeval. reflexivity. Qed.

Lemma sideHit_end_distance :
  SimpleDCA sideHit (vecZ 0 0 40) (vecZ 0 0 (-1)) = Fin 12.
Proof. unfold sideHit. geounfold. xeval. reflexivity. Qed.

Lemma sideHit_candidate (useBox overLength : bool) (dd : Z) :
  useBox = false -> dd = 0%Z \/ dd = 1%Z ->
  hitCandidate (exampleConfig 0 1 useBox overLength) exampleServices
    threePointTrack (Fin 0, Fin 0) dd 0 sideHit
  = Ok (Some (mkCand sideHit (Fin 0) (Fin 12) (Fin 13))).
Proof.
  intros -> Hdd.
  assert (Htime : hitTime (exampleConfig 0 1 false overLength) sideHit 0 = Fin 0).
  { unfold hitTime, rolloverCorrect, exampleConfig, sideHit, hitAt.
    xeval. reflexivity. }
  assert (Hdir : TrackDirection (exampleConfig 0 1 false overLength)
                   exampleServices threePointTrack (Fin (Q2R (1 # 2))) (Fin 0) dd
                 = (vecZ 0 0 1, vecZ 0 0 (-1))).
  { now apply threePointTrack_directions. }
  unfold hitCandidate, scoreHit. rewrite Htime.
  cbn [fDirMethod exampleConfig Z.eqb Pos.eqb fTrackDirectionFrac dlit xreal_ops].
  rewrite Hdir. cbn [bind fst snd].
  unfold DistOfClosestApproach, sceCorrect, shiftX.
  cbn [fDCAuseBox exampleConfig EnableCalSpatialSCE exampleServices andb
         Vertex TrackEnd threePointTrack DriftVelocity].
  assert (Hs : mkVec (dadd (fX (vecZ 0 0 0)) (dmul (dmul (dofZ dd) (Fin 0)) (dlit (16 # 100))))
                 (fY (vecZ 0 0 0)) (fZ (vecZ 0 0 0)) = vecZ 0 0 0).
  { destruct Hdd as [-> | ->]; unfold vecZ; xeval; reflexivity. }
  assert (He : mkVec (dadd (fX (vecZ 0 0 40)) (dmul (dmul (dofZ dd) (Fin 0)) (dlit (16 # 100))))
                 (fY (vecZ 0 0 40)) (fZ (vecZ 0 0 40)) = vecZ 0 0 40).
  { destruct Hdd as [-> | ->]; unfold vecZ; xeval; reflexivity. }
  rewrite Hs, He, sideHit_start_distance, sideHit_end_distance.
  unfold inT0Window, passesQualityCuts, sideHit. geounfold. xeval. reflexivity.
Qed.

Lemma best_match_is_null_or_from_a_hit_witness :
  let cfg := exampleConfig 0 1 false false in
  let mc := mkCand sideHit (Fin 0) (Fin 12) (Fin 13) in
  (mc = makeNULLmc
   /\ Forall (fun h => hitCandidate cfg exampleServices threePointTrack
                         (Fin 0, Fin 0) 1 0 h = Ok None) [sideHit])
  \/ (In (thishit mc) [sideHit]
      /\ hitCandidate cfg exampleServices threePointTrack (Fin 0, Fin 0) 1 0
           (thishit mc) = Ok (Some mc)
      /\ inT0Window (Fin 0, Fin 0) (t0 mc) = true
      /\ passesQualityCuts cfg (thishit mc) = true
      /\ t0 mc = hitTime cfg (thishit mc) 0).
Proof.
  cbv zeta.
  apply (@best_match_is_null_or_from_a_hit xreal _
           (exampleConfig 0 1 false false) exampleServices threePointTrack
           (Fin 0, Fin 0) 1 0 [sideHit]).
  unfold GetClosestCRTHit. cbn [collectCandidates].
  rewrite (@sideHit_candidate false false 1%Z eq_refl (or_intror eq_refl)). cbn [bind].
  unfold selectBest. cbn. repeat rdecide. reflexivity.
Defined.

(** *** What the two selection loops return *)

Section Selection.

Context {D : Type} `{DoubleOps D}.

(** [thisCand.dca/thisCand.extrapLen] *)
Definition ratio (c : matchCand (D := D)) : D := ddiv (dca c) (extrapLen c).

(** The test of line 513 against the ratio [s]. *)
Definition belowRatio (s : D) (c : matchCand (D := D)) : bool :=
  dlt (ratio c) s && dge (dca c) (dofZ 0).

Lemma last_cons {A : Type} (a d : A) (l : list A) : last (a :: l) d = last l a.
Proof.
  revert a d. induction l as [ | b l IH]; intros a d; [reflexivity | ].
  change (last (a :: b :: l) d) with (last (b :: l) d).
  now rewrite (IH b d), (IH b a).
Qed.

Lemma selectByDCAoverLength_last (s : D) (cands : list matchCand) :
  forall best : matchCand,
    dlt (dca best) (dofZ 0) = false ->
    Forall (fun c => dlt (dca c) (dofZ 0) = false) cands ->
    selectByDCAoverLength s best cands = last (filter (belowRatio s) cands) best.
Proof.
  induction cands as [ | c rest IH]; intros best Hbest Hall; [reflexivity | ].
  inversion Hall as [ | c' rest' Hc Hrest]; subst.
  cbn [selectByDCAoverLength filter]. cbv zeta. rewrite Hbest.
  fold (ratio c). fold (belowRatio s c).
  destruct (belowRatio s c).
  - rewrite (IH c Hc Hrest). now rewrite last_cons.
  - now apply IH.
Qed.

(** X2.  With DCAoverLength on and no negative dca among the candidates,
    the best match is the last candidate after the first whose ratio
    dca / extrapLen is below the ratio of the first candidate, and the
    first candidate when there is none: the ratio compared with is never
    updated. *)
Theorem DCAoverLength_selects_last_below_first (cfg : Config)
    (first : matchCand) (rest : list matchCand) :
  fDCAoverLength cfg = true ->
  Forall (fun c => dlt (dca c) (dofZ 0) = false) (first :: rest) ->
  selectBest cfg (first :: rest)
  = last (filter (belowRatio (ratio first)) rest) first.
Proof.
  intros Hmode Hall. unfold selectBest. rewrite Hmode. cbv zeta.
  fold (ratio first).
  rewrite selectByDCAoverLength_last; [ | now inversion Hall | exact Hall].
  cbn [filter]. destruct (belowRatio (ratio first) first); [ | reflexivity].
  apply last_cons.
Qed.

End Selection.

Lemma DCAoverLength_selects_last_below_first_witness :
  selectBest (exampleConfig 0 1 false true)
    [candidate 5 10; candidate 4 40; candidate 3 10]
  = last (filter (belowRatio (ratio (candidate 5 10 : matchCand (D := xreal))))
            [candidate 4 40; candidate 3 10])
      (candidate 5 10).
Proof.
  apply (@DCAoverLength_selects_last_below_first xreal _
           (exampleConfig 0 1 false true) (candidate 5 10)
           [candidate 4 40; candidate 3 10]).
  - reflexivity.
  - repeat constructor; cbn; apply Rltb_false; lra.
Defined.

(** *** The selection by dca alone *)

Definition nonNegativeDca (c : matchCand (D := xreal)) : Prop :=
  exists x : R, dca c = Fin x /\ 0 <= x.

Lemma selectByDCA_first_least (cands : list matchCand) :
  Forall nonNegativeDca cands ->
  forall (before : list matchCand) (best : matchCand) (after : list matchCand),
    nonNegativeDca best ->
    Forall (fun c => dcaR best < dcaR c) before ->
    Forall (fun c => dcaR best <= dcaR c) after ->
    exists before' after' : list matchCand,
      before ++ best :: after ++ cands
      = before' ++ selectByDCA best cands :: after'
      /\ Forall (fun c => dcaR (selectByDCA best cands) < dcaR c) before'
      /\ Forall (fun c => dcaR (selectByDCA best cands) <= dcaR c) after'.
Proof.
  induction 1 as [ | c rest (x & Hx & Hx0) _ IH];
    intros before best after (y & Hy & Hy0) Hbefore Hafter.
  - cbn [selectByDCA]. exists before, after. rewrite app_nil_r. auto.
  - cbn [selectByDCA]. unfold dge. rewrite Hx, Hy. cbn.
    rewrite (@Rltb_false y 0) by lra.
    rewrite (@Rleb_true 0 x) by lra. rewrite andb_true_r.
    assert (Hdb : dcaR best = y) by (unfold dcaR; now rewrite Hy).
    assert (Hdc : dcaR c = x) by (unfold dcaR; now rewrite Hx).
    destruct (Rlt_dec x y) as [Hlt | Hge].
    + rewrite Rltb_true by assumption.
      destruct (IH (before ++ best :: after) c []) as (b' & a' & E & Hb & Ha).
      * now exists x.
      * rewrite Hdc. apply Forall_app. split.
        -- eapply Forall_impl; [ | exact Hbefore]. intros d Hd. cbn in Hd. lra.
        -- constructor; [lra | ].
           eapply Forall_impl; [ | exact Hafter]. intros d Hd. cbn in Hd. lra.
      * constructor.
      * exists b', a'. split; [ | split; assumption].
        rewrite <- E. cbn [app]. rewrite <- !app_assoc. cbn [app].
        reflexivity.
    + rewrite Rltb_false by lra.
      destruct (IH before best (after ++ [c])) as (b' & a' & E & Hb & Ha).
      * now exists y.
      * exact Hbefore.
      * apply Forall_app. split; [exact Hafter | ]. constructor; [lra | constructor].
      * exists b', a'. split; [ | split; assumption].
        rewrite <- E. rewrite <- !app_assoc. reflexivity.
Qed.

(** X11.  With DCAoverLength off and no negative (or infinite, or NaN) dca
    among the candidates, the best match is the first candidate with the
    least dca: every candidate before it has a larger dca, and none after
    it a smaller one. *)
Theorem DCA_selects_first_least (cfg : Config) (first : matchCand)
    (rest : list matchCand) :
  fDCAoverLength cfg = false ->
  Forall nonNegativeDca (first :: rest) ->
  let best := selectBest cfg (first :: rest) in
  exists before after : list matchCand,
    first :: rest = before ++ best :: after
    /\ Forall (fun c => dcaR best < dcaR c) before
    /\ Forall (fun c => dcaR best <= dcaR c) after.
Proof.
  intros Hmode Hall. cbv zeta. unfold selectBest. rewrite Hmode.
  inversion Hall as [ | c l Hfirst Hrest]; subst.
  assert (Hstep : selectByDCA first (first :: rest) = selectByDCA first rest).
  { destruct Hfirst as (y & Hy & Hy0). cbn [selectByDCA]. rewrite Hy. cbn.
    rewrite (@Rltb_false y 0) by lra. rewrite (@Rltb_false y y) by lra.
    reflexivity. }
  rewrite Hstep.
  destruct (@selectByDCA_first_least rest Hrest [] first [] Hfirst)
    as (b' & a' & E & Hb & Ha); [constructor | constructor | ].
  exists b', a'. split; [exact E | split; assumption].
Qed.

Lemma DCA_selects_first_least_witness :
  let best :=
    selectBest (exampleConfig 0 1 false false)
      [candidate 5 10; candidate 3 40; candidate 3 10] in
  exists before after : list (matchCand (D := xreal)),
    [candidate 5 10; candidate 3 40; candidate 3 10] = before ++ best :: after
    /\ Forall (fun c => dcaR best < dcaR c) before
    /\ Forall (fun c => dcaR best <= dcaR c) after.
Proof.
  apply (@DCA_selects_first_least (exampleConfig 0 1 false false)
           (candidate 5 10) [candidate 3 40; candidate 3 10]).
  - reflexivity.
  - repeat constructor; eexists; (split; [reflexivity | ]); apply IZR_le; lia.
Defined.

(** *** The drift window of a track inside the drift volume *)

Lemma TrackT0Range_value (startX endX lim1 lim2 v : R) (d : Z) :
  v <> 0 -> d = 1%Z \/ d = (-1)%Z ->
  TrackT0Range (Fin v) (Fin startX) (Fin endX) d (Fin lim1, Fin lim2)
  = (Fin (Rmin ((Rmin lim1 lim2 - Rmin startX endX) / (IZR d * v))
               ((Rmax lim1 lim2 - Rmax startX endX) / (IZR d * v))),
     Fin (Rmax ((Rmin lim1 lim2 - Rmin startX endX) / (IZR d * v))
               ((Rmax lim1 lim2 - Rmax startX endX) / (IZR d * v)))).
Proof.
  intros Hv Hd.
  assert (Hd0 : (d =? 0)%Z = false) by (destruct Hd; subst d; reflexivity).
  assert (HVd : IZR d * v <> 0) by (destruct Hd; subst d; simpl; lra).
  unfold TrackT0Range. rewrite Hd0. cbn [fst snd].
  rewrite !std_max_Fin, !std_min_Fin.
  cbn [dsub dmul ddiv dofZ xreal_ops xsub xadd xneg xmul].
  rewrite !xdiv_Fin by assumption.
  now rewrite std_min_Fin, std_max_Fin.
Qed.

(** X3.  For a track whose two end points lie between the limits of the
    drift volume, the window of TrackT0Range contains the time 0, and the
    test of GetClosestCRTHit accepts every hit time from -10 to 10. *)
Theorem contained_track_window_contains_zero
    (startX endX lim1 lim2 v : R) (d : Z) :
  v <> 0 -> d = 1%Z \/ d = (-1)%Z ->
  Rmin lim1 lim2 <= Rmin startX endX ->
  Rmax startX endX <= Rmax lim1 lim2 ->
  exists tMin tMax : R,
    TrackT0Range (Fin v) (Fin startX) (Fin endX) d (Fin lim1, Fin lim2)
    = (Fin tMin, Fin tMax)
    /\ tMin <= 0 <= tMax
    /\ forall t : R, -10 <= t <= 10 -> inT0Window (Fin tMin, Fin tMax) (Fin t) = true.
Proof.
  intros Hv Hd Hlo Hhi.
  rewrite (TrackT0Range_value startX endX lim1 lim2 Hv Hd).
  set (Vd := IZR d * v).
  set (lo := Rmin lim1 lim2 - Rmin startX endX).
  set (hi := Rmax lim1 lim2 - Rmax startX endX).
  assert (HVd : Vd <> 0) by (subst Vd; destruct Hd; subst d; simpl; lra).
  assert (Hlo0 : lo <= 0) by (subst lo; lra).
  assert (Hhi0 : 0 <= hi) by (subst hi; lra).
  assert (Hbounds : Rmin (lo / Vd) (hi / Vd) <= 0 <= Rmax (lo / Vd) (hi / Vd)).
  { clear - HVd Hlo0 Hhi0.
    destruct (Rlt_dec 0 Vd) as [Hpos | Hneg].
    - assert (Hi : 0 < / Vd) by now apply Rinv_0_lt_compat.
      assert (H1 : lo / Vd <= 0) by (unfold Rdiv; nra).
      assert (H2 : 0 <= hi / Vd) by (unfold Rdiv; nra).
      split; [eapply Rle_trans; [apply Rmin_l | exact H1]
             | eapply Rle_trans; [exact H2 | apply Rmax_r]].
    - assert (Hlt : Vd < 0) by lra.
      assert (Hi : / Vd < 0) by now apply Rinv_lt_0_compat.
      assert (H1 : 0 <= lo / Vd) by (unfold Rdiv; nra).
      assert (H2 : hi / Vd <= 0) by (unfold Rdiv; nra).
      split; [eapply Rle_trans; [apply Rmin_r | exact H2]
             | eapply Rle_trans; [exact H1 | apply Rmax_l]]. }
  exists (Rmin (lo / Vd) (hi / Vd)), (Rmax (lo / Vd) (hi / Vd)).
  split; [reflexivity | split; [exact Hbounds | ]].
  intros t Ht. unfold inT0Window, dge. cbn.
  rewrite Rleb_true by lra. rewrite Rleb_true by lra. reflexivity.
Qed.

Lemma contained_track_window_contains_zero_witness :
  exists tMin tMax : R,
    TrackT0Range (Fin (16 / 100)) (Fin 100) (Fin 300) (-1)%Z (Fin 60, Fin 360)
    = (Fin tMin, Fin tMax)
    /\ tMin <= 0 <= tMax
    /\ forall t : R, -10 <= t <= 10 -> inT0Window (Fin tMin, Fin tMax) (Fin t) = true.
Proof.
  apply (@contained_track_window_contains_zero 100 300 60 360 (16 / 100) (-1)%Z).
  - lra.
  - right; reflexivity.
  - unfold Rmin. destruct (Rle_dec 60 360), (Rle_dec 100 300); lra.
  - unfold Rmax. destruct (Rle_dec 60 360), (Rle_dec 100 300); lra.
Defined.

(** X4.  The window does not depend on the order of the two end points of
    the track, nor on the order of the two limits; and reversing the drift
    direction mirrors it at 0. *)
Theorem TrackT0Range_symmetries (startX endX lim1 lim2 v : R) (d : Z) :
  v <> 0 -> d = 1%Z \/ d = (-1)%Z ->
  let window :=
    TrackT0Range (Fin v) (Fin startX) (Fin endX) d (Fin lim1, Fin lim2) in
  TrackT0Range (Fin v) (Fin endX) (Fin startX) d (Fin lim1, Fin lim2) = window
  /\ TrackT0Range (Fin v) (Fin startX) (Fin endX) d (Fin lim2, Fin lim1) = window
  /\ TrackT0Range (Fin v) (Fin startX) (Fin endX) (- d) (Fin lim1, Fin lim2)
     = (xneg (snd window), xneg (fst window)).
Proof.
  intros Hv Hd window. subst window.
  assert (Hd' : (- d)%Z = 1%Z \/ (- d)%Z = (-1)%Z) by (destruct Hd; subst d; auto).
  rewrite (TrackT0Range_value startX endX lim1 lim2 Hv Hd).
  rewrite (TrackT0Range_value endX startX lim1 lim2 Hv Hd).
  rewrite (TrackT0Range_value startX endX lim2 lim1 Hv Hd).
  rewrite (TrackT0Range_value startX endX lim1 lim2 Hv Hd').
  rewrite (Rmin_comm endX startX), (Rmax_comm endX startX).
  rewrite (Rmin_comm lim2 lim1), (Rmax_comm lim2 lim1).
  split; [reflexivity | split; [reflexivity | ]].
  cbn [fst snd xneg].
  set (lo := Rmin lim1 lim2 - Rmin startX endX).
  set (hi := Rmax lim1 lim2 - Rmax startX endX).
  assert (HVd : IZR d * v <> 0) by (destruct Hd; subst d; simpl; lra).
  assert (Hneg : forall x, x / (IZR (- d) * v) = - (x / (IZR d * v))).
  { intros x. rewrite opp_IZR. field.
    split; [exact Hv | destruct Hd; subst d; simpl; lra]. }
  rewrite !Hneg.
  f_equal; f_equal.
  - unfold Rmin, Rmax.
    destruct (Rle_dec (- (lo / (IZR d * v))) (- (hi / (IZR d * v)))),
             (Rle_dec (lo / (IZR d * v)) (hi / (IZR d * v))); lra.
  - unfold Rmin, Rmax.
    destruct (Rle_dec (- (lo / (IZR d * v))) (- (hi / (IZR d * v)))),
             (Rle_dec (lo / (IZR d * v)) (hi / (IZR d * v))); lra.
Qed.

Lemma TrackT0Range_symmetries_witness :
  let window :=
    TrackT0Range (Fin (16 / 100)) (Fin 100) (Fin 300) 1%Z (Fin 60, Fin 360) in
  TrackT0Range (Fin (16 / 100)) (Fin 300) (Fin 100) 1%Z (Fin 60, Fin 360) = window
  /\ TrackT0Range (Fin (16 / 100)) (Fin 100) (Fin 300) 1%Z (Fin 360, Fin 60) = window
  /\ TrackT0Range (Fin (16 / 100)) (Fin 100) (Fin 300) (- (1))%Z (Fin 60, Fin 360)
     = (xneg (snd window), xneg (fst window)).
Proof.
  apply (@TrackT0Range_symmetries 100 300 60 360 (16 / 100) 1%Z);
    [lra | left; reflexivity].
Defined.

(** *** The time of a hit *)

(** X5.  With TSMode other than 1 and a hit time stamp within one second
    (0 <= ts0_ns < 1e9), the time GetClosestCRTHit compares with the window
    lies between -0.5e6 and 0.5e6 microseconds, and differs from
    (ts0_ns - trigger_timestamp % 1e9) / 1e3 by -1e6, 0 or 1e6. *)
Theorem hit_time_within_half_period (cfg : Config) (h : CRTHit) (trig : Z)
    (ts0 : R) :
  fTSMode cfg <> 1%Z -> ts0_ns h = Fin ts0 -> 0 <= ts0 < 1000000000 ->
  exists (t : R) (k : Z),
    hitTime cfg h trig = Fin t
    /\ -500000 <= t <= 500000
    /\ (-1 <= k <= 1)%Z
    /\ t = (ts0 - IZR (trig mod 1000000000)) / 1000 + IZR k * 1000000.
Proof.
  intros Hmode Hts Hrange.
  rewrite (@hitTime_ts0 xreal _ cfg h trig Hmode), Hts.
  assert (Hm : (0 <= trig mod 1000000000 < 1000000000)%Z)
    by (apply Z.mod_pos_bound; lia).
  set (m := (trig mod 1000000000)%Z) in *.
  assert (Hm0 : 0 <= IZR m) by (apply IZR_le; lia).
  assert (Hm1 : IZR m < 1000000000) by (apply IZR_lt; lia).
  cbn [dsub ddiv dofZ xreal_ops xsub xadd xneg].
  rewrite xdiv_Fin by lra.
  set (naive := (ts0 + - IZR m) / 1000).
  assert (Hn : -1000000 < naive < 1000000) by (subst naive; lra).
  assert (Hv : naive = (ts0 - IZR m) / 1000) by (subst naive; lra).
  clearbody naive. clear - Hn Hv.
  unfold rolloverCorrect, dgt. cbn.
  destruct (Rlt_dec naive (-500000)) as [Hlow | Hlow].
  - rewrite Rltb_true by lra. exists (naive + 1000000), 1%Z.
    repeat split; try lra; lia.
  - rewrite Rltb_false by lra.
    destruct (Rlt_dec 500000 naive) as [Hhigh | Hhigh].
    + rewrite Rltb_true by lra. exists (naive + - 1000000), (-1)%Z.
      repeat split; try lra; lia.
    + rewrite Rltb_false by lra. exists naive, 0%Z.
      repeat split; try lra; lia.
Qed.

Lemma hit_time_within_half_period_witness :
  exists (t : R) (k : Z),
    hitTime (exampleConfig 0 1 false false)
      (mkHit (Fin 10) (Fin 1000) (Fin 0) (Fin 0) (Fin 1) (Fin 0) (Fin 1) (Fin 0) (Fin 1))
      2999999000%Z = Fin t
    /\ -500000 <= t <= 500000
    /\ (-1 <= k <= 1)%Z
    /\ t = (1000 - IZR (2999999000 mod 1000000000)) / 1000 + IZR k * 1000000.
Proof.
  apply (@hit_time_within_half_period (exampleConfig 0 1 false false)
           (mkHit (Fin 10) (Fin 1000) (Fin 0) (Fin 0) (Fin 1) (Fin 0) (Fin 1)
              (Fin 0) (Fin 1)) 2999999000%Z 1000);
    [discriminate | reflexivity | lra].
Defined.

(** *** T0FromCRTHits and T0AndDCAFromCRTHits *)

Section Callers.

Variables (cfg : Config (D := xreal)) (svc : Services (D := xreal)).
Variables (trk : Track (D := xreal)) (dd : Z) (xLimits : xreal * xreal).
Variables (crtHits : list (CRTHit (D := xreal))) (trig : Z).

(** X6.  A track shorter than fMinTrackLength gets the no-match values
    (-99999, resp. the pair (-9999, -9999)) without the matcher being called.
    For a longer track on which GetClosestCRTHit returns, the two functions
    decide alike: both return their no-match value, or both accept the best
    match, which then belongs to a hit of the list, has a dca that is not
    negative and is below fDistanceLimit, and has dca / extrapLen below
    fDoverLLimit.  T0AndDCAFromCRTHits returns the t0 and dca of the match;
    T0FromCRTHits returns the same time in TS mode 1 and, in the other
    modes, the truncated ts0_ns of the hit in microseconds plus
    fTimeCorrection, which is neither reduced by the trigger time stamp nor
    corrected by a rollover period. *)
Theorem callers_accept_the_same_match :
  (dlt (Length trk) (fMinTrackLength cfg) = true ->
   T0FromCRTHits cfg svc trk dd xLimits crtHits trig = Ok (Fin (-99999))
   /\ T0AndDCAFromCRTHits cfg svc trk dd xLimits crtHits trig
      = Ok (Fin (-9999), Fin (-9999)))
  /\ (dlt (Length trk) (fMinTrackLength cfg) = false ->
      forall mc : matchCand,
        GetClosestCRTHit_hits cfg svc trk dd xLimits crtHits trig = Ok mc ->
        (T0FromCRTHits cfg svc trk dd xLimits crtHits trig = Ok (Fin (-99999))
         /\ T0AndDCAFromCRTHits cfg svc trk dd xLimits crtHits trig
            = Ok (Fin (-9999), Fin (-9999))
         /\ (dlt (dca mc) (Fin 0) = true \/ accepted cfg mc = false))
        \/ (In (thishit mc) crtHits
            /\ dlt (dca mc) (Fin 0) = false
            /\ dlt (dca mc) (fDistanceLimit cfg) = true
            /\ dlt (ddiv (dca mc) (extrapLen mc)) (fDoverLLimit cfg) = true
            /\ T0AndDCAFromCRTHits cfg svc trk dd xLimits crtHits trig
               = Ok (t0 mc, dca mc)
            /\ T0FromCRTHits cfg svc trk dd xLimits crtHits trig
               = Ok (if (fTSMode cfg =? 1)%Z then t0 mc
                     else dadd (truncatedMicroseconds (ts0_ns (thishit mc)))
                            (fTimeCorrection cfg)))).
Proof.
  split.
  - intros Hshort. unfold T0FromCRTHits, T0AndDCAFromCRTHits.
    rewrite Hshort. split; reflexivity.
  - intros Hlong mc Hmc. unfold T0FromCRTHits, T0AndDCAFromCRTHits.
    rewrite Hlong, Hmc. cbn [bind].
    destruct (dlt (dca mc) (dofZ 0)) eqn:Hneg.
    { left. repeat split; try reflexivity. left. exact Hneg. }
    destruct (accepted cfg mc) eqn:Hacc.
    2:{ left. repeat split; try reflexivity. right. reflexivity. }
    right.
    destruct (@selected_candidate xreal _ cfg svc trk _ dd trig crtHits mc Hmc)
      as [(Hnull & _) | (Hin & Hc)].
    { exfalso. rewrite Hnull in Hneg. cbn in Hneg.
      rewrite Rltb_true in Hneg by lra. discriminate. }
    destruct (hitCandidate_Some _ _ _ _ _ _ _ Hc) as (_ & _ & _ & Ht).
    unfold accepted in Hacc. apply andb_prop in Hacc. destruct Hacc as (Hd & Hr).
    repeat split; try assumption; try reflexivity.
    destruct (fTSMode cfg =? 1)%Z eqn:Hmode; [ | reflexivity].
    rewrite Ht. unfold hitTime. rewrite Hmode. reflexivity.
Qed.

End Callers.

Lemma callers_accept_the_same_match_witness :
  let cfg := exampleConfig 0 1 false false in
  let mc := mkCand sideHit (Fin 0) (Fin 12) (Fin 13) in
  (T0FromCRTHits cfg exampleServices (straightTrack 2) 0 (Fin 0, Fin 0)
     [sideHit] 0 = Ok (Fin (-99999))
   /\ T0AndDCAFromCRTHits cfg exampleServices (straightTrack 2) 0 (Fin 0, Fin 0)
        [sideHit] 0 = Ok (Fin (-9999), Fin (-9999)))
  /\ ((T0FromCRTHits cfg exampleServices threePointTrack 0 (Fin 0, Fin 0)
         [sideHit] 0 = Ok (Fin (-99999))
       /\ T0AndDCAFromCRTHits cfg exampleServices threePointTrack 0 (Fin 0, Fin 0)
            [sideHit] 0 = Ok (Fin (-9999), Fin (-9999))
       /\ (dlt (dca mc) (Fin 0) = true \/ accepted cfg mc = false))
      \/ (In (thishit mc) [sideHit]
          /\ dlt (dca mc) (Fin 0) = false
          /\ dlt (dca mc) (fDistanceLimit cfg) = true
          /\ dlt (ddiv (dca mc) (extrapLen mc)) (fDoverLLimit cfg) = true
          /\ T0AndDCAFromCRTHits cfg exampleServices threePointTrack 0
               (Fin 0, Fin 0) [sideHit] 0 = Ok (t0 mc, dca mc)
          /\ T0FromCRTHits cfg exampleServices threePointTrack 0 (Fin 0, Fin 0)
               [sideHit] 0
             = Ok (if (fTSMode cfg =? 1)%Z then t0 mc
                   else dadd (truncatedMicroseconds (ts0_ns (thishit mc)))
                          (fTimeCorrection cfg)))).
Proof.
  cbv zeta. split.
  - pose proof (@callers_accept_the_same_match (exampleConfig 0 1 false false)
                  exampleServices (straightTrack 2) 0 (Fin 0, Fin 0) [sideHit] 0)
      as Hboth.
    apply (proj1 Hboth). cbn. apply Rltb_true. lra.
  - pose proof (@callers_accept_the_same_match (exampleConfig 0 1 false false)
                  exampleServices threePointTrack 0 (Fin 0, Fin 0) [sideHit] 0)
      as Hboth.
    apply (proj2 Hboth).
    + cbn. apply Rltb_false. lra.
    + unfold GetClosestCRTHit_hits. rewrite TrackT0Range_stitched.
      change (@dofZ xreal _ 0) with (Fin 0).
      unfold GetClosestCRTHit. cbn [collectCandidates].
      rewrite (@sideHit_candidate false false 0%Z eq_refl (or_introl eq_refl)).
      cbn [bind]. unfold selectBest. cbn. repeat rdecide. reflexivity.
Defined.

(** *** When the two averaging functions throw *)

Section Averages.

Context {D : Type} `{DoubleOps D}.

Lemma at_in_range {A : Type} (v : list A) (i : Z) :
  (0 <= i < Z.of_nat (length v))%Z -> exists a, at_ v i = Ok a.
Proof.
  intros Hi. unfold at_. rewrite (proj2 (Z.ltb_ge i 0)) by lia.
  destruct (nth_error v (Z.to_nat i)) as [a | ] eqn:Hnth; [now exists a | ].
  apply nth_error_None in Hnth. lia.
Qed.

Lemma at_past_end {A : Type} (v : list A) (i : Z) :
  (Z.of_nat (length v) <= i)%Z -> at_ v i = OutOfRange.
Proof.
  intros Hi. unfold at_. rewrite (proj2 (Z.ltb_ge i 0)) by lia.
  rewrite (proj2 (nth_error_None v (Z.to_nat i))) by lia. reflexivity.
Qed.

Lemma at_OutOfRange_iff {A : Type} (v : list A) (i : Z) :
  at_ v i = OutOfRange <-> ~ (0 <= i < Z.of_nat (length v))%Z.
Proof.
  split.
  - intros Hthrow Hi. destruct (at_in_range v Hi) as (a & Ha). congruence.
  - intros Hi. destruct (Z_lt_dec i 0); [now apply at_negative | ].
    apply at_past_end. lia.
Qed.

Lemma sumDirections_returns (dirs : list TVector3) (k : nat) :
  forall (i : Z) (totStart totEnd : TVector3),
    (0 <= i)%Z -> (i + Z.of_nat k <= Z.of_nat (length dirs))%Z ->
    exists tot,
      sumDirections dirs (Z.of_nat (length dirs)) i k totStart totEnd = Ok tot.
Proof.
  induction k as [ | k IH]; intros i totStart totEnd Hi Hk; cbn [sumDirections].
  - eauto.
  - destruct (@at_in_range _ dirs i ltac:(lia)) as (a & ->).
    destruct (@at_in_range _ dirs (Z.of_nat (length dirs) - (i + 1)) ltac:(lia))
      as (b & ->).
    cbn [bind]. apply IH; lia.
Qed.

Lemma sumDirections_throws (dirs : list TVector3) (k : nat) :
  forall (i : Z) (totStart totEnd : TVector3),
    (0 <= i <= Z.of_nat (length dirs))%Z ->
    (Z.of_nat (length dirs) < i + Z.of_nat k)%Z ->
    sumDirections dirs (Z.of_nat (length dirs)) i k totStart totEnd = OutOfRange.
Proof.
  induction k as [ | k IH]; intros i totStart totEnd Hi Hk; cbn [sumDirections].
  - lia.
  - destruct (Z.eq_dec i (Z.of_nat (length dirs))) as [-> | Hne].
    + rewrite at_past_end by lia. reflexivity.
    + destruct (@at_in_range _ dirs i ltac:(lia)) as (a & ->).
      destruct (@at_in_range _ dirs (Z.of_nat (length dirs) - (i + 1)) ltac:(lia))
        as (b & ->).
      cbn [bind]. apply IH; lia.
Qed.

(** X7.  With [n] the number of trajectory points kept and
    [endPoint = (int)floor(n*frac)]: TrackDirectionAverage throws
    std::out_of_range exactly when endPoint > n, and
    TrackDirectionAverageFromPoints exactly when endPoint < 1 or
    endPoint > n. *)
Theorem averages_throw_iff (track : Track) (frac : D) :
  let nDirections :=
    Z.of_nat (length (keptPoints track (DirectionAtPoint track))) in
  let nPoints :=
    Z.of_nat (length (keptPoints track (LocationAtPoint track))) in
  (TrackDirectionAverage track frac = OutOfRange
   <-> (nDirections < dfloorZ (dmul (dofZ nDirections) frac))%Z)
  /\ (TrackDirectionAverageFromPoints track frac = OutOfRange
      <-> (dfloorZ (dmul (dofZ nPoints) frac) < 1)%Z
          \/ (nPoints < dfloorZ (dmul (dofZ nPoints) frac))%Z).
Proof.
  cbv zeta. split.
  - unfold TrackDirectionAverage.
    set (dirs := keptPoints track (DirectionAtPoint track)).
    set (e := dfloorZ (dmul (dofZ (Z.of_nat (length dirs))) frac)).
    destruct (Z_lt_dec (Z.of_nat (length dirs)) e) as [Hgt | Hle].
    + rewrite (@sumDirections_throws dirs (Z.to_nat e) 0 vzero vzero) by lia.
      split; [intros _; exact Hgt | reflexivity].
    + destruct (@sumDirections_returns dirs (Z.to_nat e) 0 vzero vzero)
        as ((totStart & totEnd) & ->); [lia | lia | ].
      cbn [bind]. split; [discriminate | contradiction].
  - unfold TrackDirectionAverageFromPoints.
    set (pts := keptPoints track (LocationAtPoint track)).
    set (e := dfloorZ (dmul (dofZ (Z.of_nat (length pts))) frac)).
    destruct (Z_lt_dec e 1) as [Hlow | Hlow].
    { split; [intros _; left; exact Hlow | intros _].
      destruct (at_ pts 0); [ | reflexivity]. cbn [bind].
      rewrite at_negative by lia. reflexivity. }
    destruct (Z_lt_dec (Z.of_nat (length pts)) e) as [Hgt | Hle].
    { split; [intros _; right; exact Hgt | intros _].
      destruct (at_ pts 0); [ | reflexivity]. cbn [bind].
      rewrite (@at_past_end _ pts (e - 1)) by lia. reflexivity. }
    destruct (@at_in_range _ pts 0 ltac:(lia)) as (p0 & ->).
    destruct (@at_in_range _ pts (e - 1) ltac:(lia)) as (p1 & ->).
    destruct (@at_in_range _ pts (Z.of_nat (length pts) - 1) ltac:(lia)) as (q0 & ->).
    destruct (@at_in_range _ pts (Z.of_nat (length pts) - e) ltac:(lia)) as (q1 & ->).
    cbn [bind]. split; [discriminate | intros [Hc | Hc]; contradiction].
Qed.

End Averages.

(** *** An average over no direction *)

Lemma xadd_NaN_r (a : xreal) : xadd a NaN = NaN.
Proof. now destruct a. Qed.

Lemma xmul_NaN_r (a : xreal) : xmul a NaN = NaN.
Proof. now destruct a. Qed.

Lemma xdiv_NaN_r (a : xreal) : xdiv a NaN = NaN.
Proof. now destruct a. Qed.

Lemma xlt_NaN_left (a : xreal) : xlt NaN a = false.
Proof. reflexivity. Qed.

Lemma xlt_NaN_right (a : xreal) : xlt a NaN = false.
Proof. now destruct a. Qed.

Definition nanVec : TVector3 (D := xreal) := mkVec NaN NaN NaN.

(** With [endPoint = 0] the sums are divided by 0: both directions are
    (NaN, NaN, NaN). *)
Lemma TrackDirectionAverage_of_nothing (track : Track) (frac : xreal) :
  dfloorZ (dmul (dofZ (Z.of_nat (length (keptPoints track (DirectionAtPoint track)))))
             frac) = 0%Z ->
  TrackDirectionAverage track frac = Ok (nanVec, nanVec).
Proof.
  intros He. unfold TrackDirectionAverage. rewrite He.
  cbn. unfold signed_inf. repeat rdecide. reflexivity.
Qed.

Lemma SimpleDCA_nan_direction (h : CRTHit) (start : TVector3) :
  SimpleDCA h start nanVec = NaN.
Proof.
  unfold SimpleDCA, Mag, Mag2, Cross, vsub, vadd, hitPos, nanVec.
  cbn [fX fY fZ dadd dsub dmul ddiv dsqrt xreal_ops].
  match goal with
  | |- xdiv ?a ?b = _ => change b with NaN; apply xdiv_NaN_r
  end.
Qed.

Ltac nan_absorb :=
  repeat first
    [ rewrite xadd_NaN_r | rewrite xmul_NaN_r | rewrite xdiv_NaN_r
    | rewrite xlt_NaN_right
    | progress cbn [xadd xsub xmul xdiv xneg xlt xle orb fst snd fX fY fZ] ].

Lemma DistToCrtHit_nan_direction (h : CRTHit) (start : TVector3) :
  DistToCrtHit h start (vadd start nanVec) = Fin 0.
Proof.
  unfold DistToCrtHit.
  assert (Hin : forall mn mx : TVector3,
             fX (fst (CubeIntersection mn mx start (vadd start nanVec))) = NaN).
  { intros mn mx. unfold CubeIntersection, slab, vsub, vadd, nanVec, dge, dgt.
    cbn [fX fY fZ dadd dsub dmul ddiv dle dlt dofZ xreal_ops].
    unfold xsub. nan_absorb. reflexivity. }
  rewrite Hin. reflexivity.
Qed.

(** X8.  With DirMethod 2 and a track for which
    [endPoint = (int)floor(n*frac)] is 0 (no trajectory point kept, or
    fewer than 1/frac), both averaged directions are NaN.  In point mode
    no hit is then retained.  In box mode every hit that passes the PE and
    uncertainty cuts is retained with dca 0, wherever it is, as soon as
    fDistanceLimit is positive. *)
Theorem empty_average_matches_every_hit (cfg : Config) (svc : Services)
    (trk : Track) (dd : Z) (h : CRTHit) (crtTime : xreal) :
  fDirMethod cfg = 2%Z ->
  dfloorZ (dmul (dofZ (Z.of_nat (length (keptPoints trk (DirectionAtPoint trk)))))
             (fTrackDirectionFrac cfg)) = 0%Z ->
  passesQualityCuts cfg h = true ->
  (fDCAuseBox cfg = false -> scoreHit cfg svc trk dd h crtTime = Ok None)
  /\ (fDCAuseBox cfg = true -> dlt (Fin 0) (fDistanceLimit cfg) = true ->
      exists len : xreal,
        scoreHit cfg svc trk dd h crtTime = Ok (Some (mkCand h crtTime (Fin 0) len))).
Proof.
  intros Hmethod Hend Hcuts.
  unfold scoreHit. rewrite Hcuts, Hmethod. cbn [negb Z.eqb Pos.eqb].
  rewrite (TrackDirectionAverage_of_nothing trk _ Hend). cbn [bind fst snd].
  unfold DistOfClosestApproach. split.
  - intros ->. rewrite !SimpleDCA_nan_direction. reflexivity.
  - intros -> Hlimit. rewrite !DistToCrtHit_nan_direction.
    cbn [dlt xreal_ops] in Hlimit |- *. rewrite Hlimit. cbn [orb].
    match goal with
    | |- context [if ?b then _ else _] => destruct b
    end; eauto.
Qed.

(** A hit ten metres away from a track of one point. *)
Lemma empty_average_matches_every_hit_witness :
  scoreHit (exampleConfig 0 2 false false) exampleServices (straightTrack 1) 1
    (hitAt 10 1000 1000 1000 1 1 1) (Fin 0) = Ok None
  /\ exists len : xreal,
       scoreHit (exampleConfig 0 2 true false) exampleServices (straightTrack 1) 1
         (hitAt 10 1000 1000 1000 1 1 1) (Fin 0)
       = Ok (Some (mkCand (hitAt 10 1000 1000 1000 1 1 1) (Fin 0) (Fin 0) len)).
Proof.
  assert (Hend : forall useBox,
             dfloorZ (dmul (dofZ (Z.of_nat (length (keptPoints (straightTrack 1)
                        (DirectionAtPoint (straightTrack (D := xreal) 1))))))
                        (fTrackDirectionFrac
                           (exampleConfig (D := xreal) 0 2 useBox false))) = 0%Z).
  { intros useBox. cbn -[Zfloor]. rewrite Zfloor_half. reflexivity. }
  assert (Hcuts : forall useBox,
             passesQualityCuts (exampleConfig (D := xreal) 0 2 useBox false)
               (hitAt 10 1000 1000 1000 1 1 1) = true).
  { intros useBox. unfold passesQualityCuts, dgt. cbn. repeat rdecide. reflexivity. }
  split.
  - apply (proj1 (@empty_average_matches_every_hit (exampleConfig 0 2 false false)
                    exampleServices (straightTrack 1) 1
                    (hitAt 10 1000 1000 1000 1 1 1) (Fin 0)
                    eq_refl (Hend false) (Hcuts false))).
    reflexivity.
  - apply (proj2 (@empty_average_matches_every_hit (exampleConfig 0 2 true false)
                    exampleServices (straightTrack 1) 1
                    (hitAt 10 1000 1000 1000 1 1 1) (Fin 0)
                    eq_refl (Hend true) (Hcuts true))).
    + reflexivity.
    + cbn. apply Rltb_true. lra.
Defined.

(** The same on binary64: the hit is retained with dca 0 in box mode and
    dropped in point mode. *)
Example empty_average_matches_every_hit_ieee :
  scoreHit (D := float) (exampleConfig 0 2 false false) exampleServices
    (straightTrack 1) 1 (hitAt 10 1000 1000 1000 1 1 1) (dofZ 0) = Ok None
  /\ (exists len : float,
         scoreHit (D := float) (exampleConfig 0 2 true false) exampleServices
           (straightTrack 1) 1 (hitAt 10 1000 1000 1000 1 1 1) (dofZ 0)
         = Ok (Some (mkCand (hitAt 10 1000 1000 1000 1 1 1) (dofZ 0) (dofZ 0) len))).
Proof.
  split; [vm_compute; reflexivity | ].
  eexists. vm_compute. reflexivity.
Qed.

(** *** The entry and exit points of CubeIntersection *)

(** For a direction component that is not zero, the slab of an axis is
    the interval of the parameters at which the line is between the two
    planes. *)
Lemma slab_interval (lo hi s d : R) :
  d <> 0 -> lo <= hi ->
  exists a b : R,
    slab (Fin lo) (Fin hi) (Fin s) (xdiv (Fin 1) (Fin d)) = (Fin a, Fin b)
    /\ a <= b
    /\ forall t : R, a <= t <= b <-> lo <= s + t * d <= hi.
Proof.
  intros Hd Hle. destruct (Rtotal_order d 0) as [Hneg | [Hzero | Hpos]];
    [ | contradiction | ].
  - rewrite slab_neg by assumption.
    exists ((hi - s) * (1 / d)), ((lo - s) * (1 / d)).
    split; [reflexivity | ].
    assert (Hiff : forall t, (hi - s) * (1 / d) <= t <= (lo - s) * (1 / d)
                             <-> lo <= s + t * d <= hi).
    { intros t.
      pose proof (scaled_le_neg (hi - s) t Hneg) as H1.
      pose proof (scaled_ge_neg (lo - s) t Hneg) as H2.
      split; intros (Ha & Hb).
      - apply H1 in Ha. apply H2 in Hb. lra.
      - split; [apply H1 | apply H2]; lra. }
    split; [ | exact Hiff].
    assert (Hi : 1 / d < 0).
    { unfold Rdiv. rewrite Rmult_1_l. now apply Rinv_lt_0_compat. }
    clear - Hi Hle. nra.
  - rewrite slab_pos by assumption.
    exists ((lo - s) * (1 / d)), ((hi - s) * (1 / d)).
    split; [reflexivity | ].
    assert (Hiff : forall t, (lo - s) * (1 / d) <= t <= (hi - s) * (1 / d)
                             <-> lo <= s + t * d <= hi).
    { intros t.
      pose proof (scaled_le_pos (lo - s) t Hpos) as H1.
      pose proof (scaled_ge_pos (hi - s) t Hpos) as H2.
      split; intros (Ha & Hb).
      - apply H1 in Ha. apply H2 in Hb. lra.
      - split; [apply H1 | apply H2]; lra. }
    split; [ | exact Hiff].
    assert (Hi : 0 < 1 / d) by (apply Rdiv_lt_0_compat; lra).
    clear - Hi Hle. nra.
Qed.

Section Crossing.

Variables ax ay az bx by_ bz sx sy sz ex ey ez : R.

(** The point of the line at parameter [t]. *)
Definition linePoint (t : R) : TVector3 (D := xreal) :=
  mkVec (Fin (sx + t * (ex - sx))) (Fin (sy + t * (ey - sy)))
        (Fin (sz + t * (ez - sz))).

Definition inBox (t : R) : Prop :=
  ax <= sx + t * (ex - sx) <= bx
  /\ ay <= sy + t * (ey - sy) <= by_
  /\ az <= sz + t * (ez - sz) <= bz.

(** X9.  For a box that is not empty and a line that is parallel to none
    of the coordinate planes: when no point of the line through start and
    end lies in the box, CubeIntersection returns the no-crossing marker;
    otherwise it returns the first and the last point of the line in the
    box.  The test is on the line, not on the segment: the parameters are
    not restricted to the range from 0 to 1. *)
Theorem CubeIntersection_entry_and_exit :
  ax <= bx -> ay <= by_ -> az <= bz ->
  ex <> sx -> ey <> sy -> ez <> sz ->
  let crossing :=
    CubeIntersection
      (mkVec (Fin ax) (Fin ay) (Fin az)) (mkVec (Fin bx) (Fin by_) (Fin bz))
      (mkVec (Fin sx) (Fin sy) (Fin sz)) (mkVec (Fin ex) (Fin ey) (Fin ez)) in
  (crossing = noCrossing /\ forall t : R, ~ inBox t)
  \/ exists tmin tmax : R,
       crossing = (linePoint tmin, linePoint tmax)
       /\ tmin <= tmax
       /\ forall t : R, inBox t <-> tmin <= t <= tmax.
Proof.
  intros Hx Hy Hz Hdx Hdy Hdz. cbv zeta.
  assert (Hvx : ex - sx <> 0) by lra.
  assert (Hvy : ey - sy <> 0) by lra.
  assert (Hvz : ez - sz <> 0) by lra.
  destruct (@slab_interval ax bx sx (ex - sx) Hvx Hx) as (x0 & x1 & Ex & Hx01 & HX).
  destruct (@slab_interval ay by_ sy (ey - sy) Hvy Hy) as (y0 & y1 & Ey & Hy01 & HY).
  destruct (@slab_interval az bz sz (ez - sz) Hvz Hz) as (z0 & z1 & Ez & Hz01 & HZ).
  assert (Hbox : forall t, inBox t
                           <-> (x0 <= t <= x1) /\ (y0 <= t <= y1) /\ (z0 <= t <= z1)).
  { intros t. unfold inBox. rewrite (HX t), (HY t), (HZ t). reflexivity. }
  clear HX HY HZ.
  unfold CubeIntersection.
  cbn [vsub fX fY fZ dsub dofZ xreal_ops xsub xadd xneg].
  change (@ddiv xreal xreal_ops) with xdiv.
  change (ex + - sx) with (ex - sx).
  change (ey + - sy) with (ey - sy).
  change (ez + - sz) with (ez - sz).
  rewrite Ex, Ey, Ez. unfold dgt.
  cbn [dlt dadd dmul xreal_ops xlt xadd xmul].
  clear Ex Ey Ez Hx Hy Hz Hdx Hdy Hdz Hvx Hvy Hvz.
  unfold linePoint.
  repeat (cbn [orb xlt xadd xmul dlt dadd dmul xreal_ops]; unfold Rltb;
          match goal with
          | |- context [Rlt_dec ?a ?b] => destruct (Rlt_dec a b)
          end);
    cbn [orb xlt xadd xmul dlt dadd dmul xreal_ops];
    first
      [ left; split; [reflexivity | ];
        intros t Ht; apply Hbox in Ht; clear Hbox; lra
      | right; eexists; eexists; split; [reflexivity | ];
        split; [lra | ];
        intros t; rewrite (Hbox t); clear Hbox; split; intros; lra ].
Qed.

End Crossing.

Lemma CubeIntersection_entry_and_exit_witness :
  let crossing :=
    CubeIntersection (mkVec (Fin (-1)) (Fin (-1)) (Fin (-1))) (mkVec (Fin 1) (Fin 1) (Fin 1))
      (mkVec (Fin (-4)) (Fin (-2)) (Fin (-2))) (mkVec (Fin 4) (Fin 2) (Fin 2)) in
  (crossing = noCrossing
   /\ forall t : R, ~ inBox (-1) (-1) (-1) 1 1 1 (-4) (-2) (-2) 4 2 2 t)
  \/ exists tmin tmax : R,
       crossing = (linePoint (-4) (-2) (-2) 4 2 2 tmin,
                   linePoint (-4) (-2) (-2) 4 2 2 tmax)
       /\ tmin <= tmax
       /\ forall t : R,
            inBox (-1) (-1) (-1) 1 1 1 (-4) (-2) (-2) 4 2 2 t <-> tmin <= t <= tmax.
Proof.
  apply (@CubeIntersection_entry_and_exit (-1) (-1) (-1) 1 1 1 (-4) (-2) (-2) 4 2 2);
    lra.
Defined.

(** *** SimpleDCA is the distance from the hit to the line *)

Section PointDistance.

Variables (pes ts0 ts1 xe ye ze : xreal) (px py pz : R).

Let hit : CRTHit (D := xreal) :=
  mkHit pes ts0 ts1 (Fin px) xe (Fin py) ye (Fin pz) ze.

(** The squared length of (hit - start) x direction. *)
Definition crossSquare (sx sy sz vx vy vz : R) : R :=
  ((py - sy) * vz - (pz - sz) * vy) * ((py - sy) * vz - (pz - sz) * vy)
  + ((pz - sz) * vx - (px - sx) * vz) * ((pz - sz) * vx - (px - sx) * vz)
  + ((px - sx) * vy - (py - sy) * vx) * ((px - sx) * vy - (py - sy) * vx).

Lemma crossSquare_nonneg (sx sy sz vx vy vz : R) :
  0 <= crossSquare sx sy sz vx vy vz.
Proof. unfold crossSquare. apply sum_squares_nonneg. Qed.

Lemma SimpleDCA_finite (sx sy sz vx vy vz : R) :
  vx * vx + vy * vy + vz * vz <> 0 ->
  SimpleDCA hit (mkVec (Fin sx) (Fin sy) (Fin sz)) (mkVec (Fin vx) (Fin vy) (Fin vz))
  = Fin (R_sqrt.sqrt (crossSquare sx sy sz vx vy vz / (vx * vx + vy * vy + vz * vz))).
Proof.
  intros Hc.
  assert (Hc0 : 0 < vx * vx + vy * vy + vz * vz) by nra.
  unfold SimpleDCA, hitPos, Mag, Mag2, Cross, vsub, vadd, hit.
  cbn.
  repeat match goal with
         | |- context [Rltb (?a * ?a + ?b * ?b + ?d * ?d) 0] =>
             rewrite (@Rltb_false (a * a + b * b + d * d) 0)
               by apply sum_squares_nonneg
         end.
  cbn.
  rewrite (@Reqb_sqrt_0 (vx * vx + vy * vy + vz * vz)) by assumption.
  f_equal. rewrite sqrt_div_alt by assumption.
  f_equal. f_equal. unfold crossSquare. ring.
Qed.

(** X10.  For a hit at a finite position, a finite start point and a
    finite direction that is not zero, SimpleDCA is the distance d from
    the hit to the line: d >= 0 and d^2 |direction|^2 is the squared
    length of (hit - start) x direction; d is 0 exactly when the line
    passes through the hit, and never exceeds the distance from the hit to
    the start point.  It depends on the line only: not on the length or
    the orientation of the direction, nor on the point of the line taken
    as start. *)
Theorem SimpleDCA_is_distance_to_line (sx sy sz vx vy vz : R) :
  vx <> 0 \/ vy <> 0 \/ vz <> 0 ->
  let start := mkVec (Fin sx) (Fin sy) (Fin sz) in
  let wx := px - sx in
  let wy := py - sy in
  let wz := pz - sz in
  exists d : R,
    SimpleDCA hit start (mkVec (Fin vx) (Fin vy) (Fin vz)) = Fin d
    /\ 0 <= d
    /\ d * d * (vx * vx + vy * vy + vz * vz) = crossSquare sx sy sz vx vy vz
    /\ d * d <= wx * wx + wy * wy + wz * wz
    /\ (d = 0 <-> wy * vz - wz * vy = 0 /\ wz * vx - wx * vz = 0
                  /\ wx * vy - wy * vx = 0)
    /\ (forall k : R, k <> 0 ->
          SimpleDCA hit start (mkVec (Fin (k * vx)) (Fin (k * vy)) (Fin (k * vz)))
          = Fin d)
    /\ (forall l : R,
          SimpleDCA hit
            (mkVec (Fin (sx + l * vx)) (Fin (sy + l * vy)) (Fin (sz + l * vz)))
            (mkVec (Fin vx) (Fin vy) (Fin vz))
          = Fin d).
Proof.
  intros Hv. cbv zeta.
  set (c := vx * vx + vy * vy + vz * vz).
  set (X := crossSquare sx sy sz vx vy vz).
  assert (Hc0 : 0 < c) by (subst c; clear - Hv; nra).
  assert (Hc : c <> 0) by lra.
  assert (HX : 0 <= X) by apply crossSquare_nonneg.
  assert (Hq : 0 <= X / c).
  { unfold Rdiv. apply Rmult_le_pos; [exact HX | ].
    apply Rlt_le. now apply Rinv_0_lt_compat. }
  exists (R_sqrt.sqrt (X / c)).
  assert (Hsq : R_sqrt.sqrt (X / c) * R_sqrt.sqrt (X / c) = X / c)
    by now apply sqrt_sqrt.
  split; [now apply SimpleDCA_finite | ].
  split; [apply sqrt_pos | ].
  split; [rewrite Hsq; field; exact Hc | ].
  split.
  { rewrite Hsq.
    assert (HXle : X <= ((px - sx) * (px - sx) + (py - sy) * (py - sy)
                         + (pz - sz) * (pz - sz)) * c).
    { subst X c. unfold crossSquare. clear.
      set (e := vx * (px - sx) + vy * (py - sy) + vz * (pz - sz)).
      assert (He : 0 <= e * e) by apply Rle_0_sqr.
      replace (((px - sx) * (px - sx) + (py - sy) * (py - sy)
                + (pz - sz) * (pz - sz)) * (vx * vx + vy * vy + vz * vz))
        with (((py - sy) * vz - (pz - sz) * vy) * ((py - sy) * vz - (pz - sz) * vy)
              + ((pz - sz) * vx - (px - sx) * vz) * ((pz - sz) * vx - (px - sx) * vz)
              + ((px - sx) * vy - (py - sy) * vx) * ((px - sx) * vy - (py - sy) * vx)
              + e * e) by (subst e; ring).
      lra. }
    clear - HXle Hc0.
    apply Rmult_le_reg_r with c; [exact Hc0 | ].
    replace (X / c * c) with X by (field; lra). exact HXle. }
  split.
  { split.
    - intros Hd.
      assert (HX0 : X = 0).
      { rewrite Hd in Hsq. replace X with (X / c * c) by (field; exact Hc).
        rewrite <- Hsq. ring. }
      subst X. unfold crossSquare in HX0. clear - HX0.
      apply sum_squares_zero in HX0. exact HX0.
    - intros (H1 & H2 & H3).
      assert (HX0 : X = 0).
      { subst X. unfold crossSquare. rewrite H1, H2, H3. ring. }
      rewrite HX0. unfold Rdiv. rewrite Rmult_0_l. apply sqrt_0. }
  split.
  - intros k Hk.
    assert (Hkc : k * vx * (k * vx) + k * vy * (k * vy) + k * vz * (k * vz) <> 0).
    { replace (k * vx * (k * vx) + k * vy * (k * vy) + k * vz * (k * vz))
        with (k * k * c) by (subst c; ring).
      apply Rmult_integral_contrapositive_currified; [ | exact Hc].
      apply Rmult_integral_contrapositive_currified; exact Hk. }
    rewrite (SimpleDCA_finite sx sy sz Hkc).
    f_equal. f_equal. subst X c. unfold crossSquare. field.
    split; assumption.
  - intros l.
    rewrite (SimpleDCA_finite (sx + l * vx) (sy + l * vy) (sz + l * vz) Hc).
    f_equal. f_equal. f_equal. subst X. unfold crossSquare. ring.
Qed.

End PointDistance.

Lemma SimpleDCA_is_distance_to_line_witness :
  exists d : R,
    SimpleDCA sideHit (vecZ 0 0 0) (mkVec (Fin 0) (Fin 0) (Fin 1)) = Fin d
    /\ 0 <= d
    /\ d * d * (0 * 0 + 0 * 0 + 1 * 1) = crossSquare 0 12 5 0 0 0 0 0 1
    /\ d * d <= (0 - 0) * (0 - 0) + (12 - 0) * (12 - 0) + (5 - 0) * (5 - 0)
    /\ (d = 0 <-> (12 - 0) * 1 - (5 - 0) * 0 = 0 /\ (5 - 0) * 0 - (0 - 0) * 1 = 0
                  /\ (0 - 0) * 0 - (12 - 0) * 0 = 0)
    /\ (forall k : R, k <> 0 ->
          SimpleDCA sideHit (vecZ 0 0 0)
            (mkVec (Fin (k * 0)) (Fin (k * 0)) (Fin (k * 1))) = Fin d)
    /\ (forall l : R,
          SimpleDCA sideHit
            (mkVec (Fin (0 + l * 0)) (Fin (0 + l * 0)) (Fin (0 + l * 1)))
            (mkVec (Fin 0) (Fin 0) (Fin 1))
          = Fin d).
Proof.
  apply (@SimpleDCA_is_distance_to_line (Fin 10) (Fin 0) (Fin 0) (Fin 1) (Fin 1)
           (Fin 1) 0 12 5 0 0 0 0 0 1).
  right; right. lra.
Defined.

End MatchingExtras.

(** ** LineSegmentDistance on two lines that are not parallel *)

Module SegmentExtras.

Import XReal XRealFacts RConst IEEE CRTT0MatchAlg.
Import MatchingProofs.
Local Open Scope R_scope.

Section Skew.

(** The segment from [p1] to [q1] and the line through [p2] and [q2]. *)
Variables p1x p1y p1z q1x q1y q1z p2x p2y p2z q2x q2y q2z : R.

Let ux := q1x - p1x.
Let uy := q1y - p1y.
Let uz := q1z - p1z.
Let vx := q2x - p2x.
Let vy := q2y - p2y.
Let vz := q2z - p2z.
Let wx := p1x - p2x.
Let wy := p1y - p2y.
Let wz := p1z - p2z.
Let a := ux * ux + uy * uy + uz * uz.
Let b := ux * vx + uy * vy + uz * vz.
Let c := vx * vx + vy * vy + vz * vz.
Let d := ux * wx + uy * wy + uz * wz.
Let e := vx * wx + vy * wy + vz * wz.
Let DD := a * c - b * b.

(** The squared distance between the point of the segment's line at
    parameter [sc] and the point of the other line at parameter [tc]. *)
Definition gap (sc tc : R) : R :=
  (wx + sc * ux - tc * vx) * (wx + sc * ux - tc * vx)
  + (wy + sc * uy - tc * vy) * (wy + sc * uy - tc * vy)
  + (wz + sc * uz - tc * vz) * (wz + sc * uz - tc * vz).

(** The parameters [sN] and [tN] of lines 699-700. *)
Definition sClosest : R := (b * e - c * d) / DD.
Definition tClosest : R := (a * e - b * d) / DD.

Lemma gap_nonneg (sc tc : R) : 0 <= gap sc tc.
Proof. unfold gap. apply sum_squares_nonneg. Qed.

(** The value returned in the branch of lines 699-710 when neither end of
    the segment is taken. *)
Lemma LineSegmentDistance_skew :
  1 / 100000 <= DD ->
  0 <= sClosest <= DD ->
  1 / 100000 <= Rabs sClosest -> 1 / 100000 <= Rabs tClosest ->
  LineSegmentDistance (mkVec (Fin p1x) (Fin p1y) (Fin p1z))
    (mkVec (Fin q1x) (Fin q1y) (Fin q1z)) (mkVec (Fin p2x) (Fin p2y) (Fin p2z))
    (mkVec (Fin q2x) (Fin q2y) (Fin q2z))
  = Fin (R_sqrt.sqrt (gap (sClosest / DD) (tClosest / DD))).
Proof.
  intros HD Hs Has Hat.
  unfold LineSegmentDistance, smallNum, Mag, Mag2, Dot, vsub, vadd, vscale.
  cbn. rewrite small_lt_1.
  change (q1x + - p1x) with ux. change (q1y + - p1y) with uy.
  change (q1z + - p1z) with uz. change (q2x + - p2x) with vx.
  change (q2y + - p2y) with vy. change (q2z + - p2z) with vz.
  change (p1x + - p2x) with wx. change (p1y + - p2y) with wy.
  change (p1z + - p2z) with wz.
  change (ux * ux + uy * uy + uz * uz) with a.
  change (ux * vx + uy * vy + uz * vz) with b.
  change (vx * vx + vy * vy + vz * vz) with c.
  change (ux * wx + uy * wy + uz * wz) with d.
  change (vx * wx + vy * wy + vz * wz) with e.
  change (a * c + - (b * b)) with DD.
  rewrite (@Rltb_false DD (1 / 100000)) by lra.
  rewrite (@Reqb_false DD 0) by lra.
  change ((b * e + - (c * d)) / DD) with sClosest.
  change ((a * e + - (b * d)) / DD) with tClosest.
  cbn [xlt]. unfold dgt. cbn [dlt xreal_ops xlt].
  rewrite (@Rltb_false sClosest 0) by lra.
  rewrite (@Rltb_false DD sClosest) by lra.
  cbn [xabs xlt].
  rewrite (@Rltb_false (Rabs sClosest) (1 / 100000)) by lra.
  rewrite (@Rltb_false (Rabs tClosest) (1 / 100000)) by lra.
  cbn. rewrite (@Reqb_false DD 0) by lra. cbn.
  match goal with
  | |- context [Rltb (?x * ?x + ?y * ?y + ?z * ?z) 0] =>
      rewrite (@Rltb_false (x * x + y * y + z * z) 0)
        by apply sum_squares_nonneg
  end.
  reflexivity.
Qed.

(** The squared length of [x u - y v]. *)
Definition spread (x y : R) : R :=
  (x * ux - y * vx) * (x * ux - y * vx)
  + (x * uy - y * vy) * (x * uy - y * vy)
  + (x * uz - y * vz) * (x * uz - y * vz).

Lemma spread_nonneg (x y : R) : 0 <= spread x y.
Proof. unfold spread. apply sum_squares_nonneg. Qed.

(** At the parameters of lines 699-700 the connecting vector is at right
    angles to both lines. *)
Lemma closest_orthogonal :
  DD <> 0 ->
  d + sClosest * a - tClosest * b = 0 /\ e + sClosest * b - tClosest * c = 0.
Proof.
  intros HD. unfold sClosest, tClosest. unfold DD in *.
  split; field; exact HD.
Qed.

Lemma gap_from (s t sc tc : R) :
  gap sc tc
  = gap s t + spread (sc - s) (tc - t)
    + 2 * (sc - s) * (d + s * a - t * b) - 2 * (tc - t) * (e + s * b - t * c).
Proof. unfold gap, spread, a, b, c, d, e. ring. Qed.

Lemma spread_scaled (k x y : R) : spread (k * x) (k * y) = k * k * spread x y.
Proof. unfold spread. ring. Qed.

Lemma spread_positive (x y : R) : 0 < DD -> y <> 0 -> 0 < spread x y.
Proof.
  intros HD Hy.
  assert (Hexp : spread x y = x * x * a - 2 * x * y * b + y * y * c)
    by (unfold spread, a, b, c; ring).
  assert (Ha0 : 0 <= a) by (unfold a; apply sum_squares_nonneg).
  assert (Ha : 0 < a).
  { destruct (Req_dec_T a 0) as [E | Hne]; [ | lra].
    exfalso. unfold DD in HD. rewrite E in HD.
    assert (0 <= b * b) by apply Rle_0_sqr. lra. }
  assert (Hid : a * spread x y = (x * a - y * b) * (x * a - y * b) + y * y * DD)
    by (rewrite Hexp; unfold DD; ring).
  assert (Hy2 : 0 < y * y).
  { destruct (Rtotal_order y 0) as [Hn | [E | Hp]]; [ | contradiction | ].
    - replace (y * y) with ((- y) * (- y)) by ring.
      apply Rmult_lt_0_compat; lra.
    - now apply Rmult_lt_0_compat. }
  assert (Hpos : 0 < a * spread x y).
  { rewrite Hid.
    assert (0 <= (x * a - y * b) * (x * a - y * b)) by apply Rle_0_sqr.
    assert (0 < y * y * DD) by now apply Rmult_lt_0_compat.
    lra. }
  destruct (Rle_lt_dec (spread x y) 0) as [Hle | Hlt]; [ | exact Hlt].
  exfalso.
  assert (a * spread x y <= 0).
  { replace 0 with (a * 0) by ring. apply Rmult_le_compat_l; lra. }
  lra.
Qed.

(** X21.  LineSegmentDistance in exact arithmetic, on a segment and a
    line that are not parallel (D = a*c - b*b >= 0.00001), when neither
    end of the segment is taken (0 <= sN <= D) and sN and tN are not
    below the threshold: sN and tN, after their division by D in lines
    699-700, are the parameters of the two closest points of the lines,
    but they are divided by D once more, and the distance returned is
    measured between the points at sN/D and tN/D.  It is never below the
    distance between the two lines, and equals it only when D = 1. *)
Theorem skew_lines_distance :
  1 / 100000 <= DD ->
  0 <= sClosest <= DD ->
  1 / 100000 <= Rabs sClosest -> 1 / 100000 <= Rabs tClosest ->
  LineSegmentDistance (mkVec (Fin p1x) (Fin p1y) (Fin p1z))
    (mkVec (Fin q1x) (Fin q1y) (Fin q1z)) (mkVec (Fin p2x) (Fin p2y) (Fin p2z))
    (mkVec (Fin q2x) (Fin q2y) (Fin q2z))
  = Fin (R_sqrt.sqrt (gap (sClosest / DD) (tClosest / DD)))
  /\ (forall sc tc : R, gap sClosest tClosest <= gap sc tc)
  /\ (gap (sClosest / DD) (tClosest / DD) = gap sClosest tClosest <-> DD = 1).
Proof.
  intros HD Hs Has Hat.
  split; [now apply LineSegmentDistance_skew | ].
  assert (HD0 : DD <> 0) by lra.
  destruct (closest_orthogonal HD0) as (Hu & Hv).
  assert (Hfrom : forall sc tc,
             gap sc tc
             = gap sClosest tClosest + spread (sc - sClosest) (tc - tClosest)).
  { intros sc tc. rewrite (gap_from sClosest tClosest sc tc), Hu, Hv. ring. }
  split.
  - intros sc tc. rewrite (Hfrom sc tc).
    pose proof (spread_nonneg (sc - sClosest) (tc - tClosest)). lra.
  - rewrite (Hfrom (sClosest / DD) (tClosest / DD)).
    replace (sClosest / DD - sClosest) with ((1 / DD - 1) * sClosest)
      by (field; exact HD0).
    replace (tClosest / DD - tClosest) with ((1 / DD - 1) * tClosest)
      by (field; exact HD0).
    rewrite spread_scaled.
    assert (Ht : tClosest <> 0).
    { intros E. rewrite E, Rabs_R0 in Hat. lra. }
    assert (Hpos : 0 < spread sClosest tClosest)
      by (apply spread_positive; [lra | exact Ht]).
    set (k := 1 / DD - 1) in *.
    set (S := spread sClosest tClosest) in *.
    set (G := gap sClosest tClosest).
    split.
    + intros Heq.
      assert (Hk : k * k * S = 0) by lra.
      apply Rmult_integral in Hk. destruct Hk as [Hk | Hk]; [ | lra].
      apply Rmult_integral in Hk.
      assert (Hk0 : k = 0) by (destruct Hk; assumption).
      unfold k in Hk0.
      assert (Hinv : 1 / DD = 1) by lra.
      apply (f_equal (fun x => x * DD)) in Hinv.
      replace (1 / DD * DD) with 1 in Hinv by (field; exact HD0). lra.
    + intros E. unfold k. rewrite E.
      replace (1 / 1 - 1) with 0 by field. ring.
Qed.

End Skew.

(** The segment from (-1, 0, 1) to (1, 0, 1) and the line through
    (0, -1, 0) and (0, 1, 0): the lines are 1 apart. *)
Lemma skew_lines_distance_witness :
  LineSegmentDistance (mkVec (Fin (-1)) (Fin 0) (Fin 1))
    (mkVec (Fin 1) (Fin 0) (Fin 1)) (mkVec (Fin 0) (Fin (-1)) (Fin 0))
    (mkVec (Fin 0) (Fin 1) (Fin 0))
  = Fin (R_sqrt.sqrt
           (gap (-1) 0 1 1 0 1 0 (-1) 0 0 1 0
              (sClosest (-1) 0 1 1 0 1 0 (-1) 0 0 1 0
               / ((1 - -1) * (1 - -1) * ((1 - -1) * (1 - -1))))
              (tClosest (-1) 0 1 1 0 1 0 (-1) 0 0 1 0
               / ((1 - -1) * (1 - -1) * ((1 - -1) * (1 - -1))))))
  /\ gap (-1) 0 1 1 0 1 0 (-1) 0 0 1 0
       (sClosest (-1) 0 1 1 0 1 0 (-1) 0 0 1 0)
       (tClosest (-1) 0 1 1 0 1 0 (-1) 0 0 1 0)
     = 1.
Proof.
  assert (Hs : sClosest (-1) 0 1 1 0 1 0 (-1) 0 0 1 0 = 1 / 2)
    by (unfold sClosest; field).
  assert (Ht : tClosest (-1) 0 1 1 0 1 0 (-1) 0 0 1 0 = 1 / 2)
    by (unfold tClosest; field).
  split.
  - pose proof (@skew_lines_distance (-1) 0 1 1 0 1 0 (-1) 0 0 1 0) as Hskew.
    cbv zeta in Hskew. rewrite Hs, Ht in Hskew.
    destruct Hskew as (Hvalue & _).
    + lra.
    + lra.
    + rewrite Rabs_pos_eq; lra.
    + rewrite Rabs_pos_eq; lra.
    + rewrite Hs, Ht. rewrite Hvalue. f_equal. f_equal. f_equal; lra.
  - rewrite Hs, Ht. unfold gap. field.
Defined.

(** The value returned there is sqrt(353/128), about 1.66, and not 1;
    the same on binary64. *)
Example skew_lines_distance_value :
  LineSegmentDistance (mkVec (Fin (-1)) (Fin 0) (Fin 1))
    (mkVec (Fin 1) (Fin 0) (Fin 1)) (mkVec (Fin 0) (Fin (-1)) (Fin 0))
    (mkVec (Fin 0) (Fin 1) (Fin 0))
  = Fin (R_sqrt.sqrt (353 / 128))
  /\ dlt (dlit (166 # 100))
       (LineSegmentDistance (D := float)
          (mkVec (dofZ (-1)) (dofZ 0) (dofZ 1)) (mkVec (dofZ 1) (dofZ 0) (dofZ 1))
          (mkVec (dofZ 0) (dofZ (-1)) (dofZ 0)) (mkVec (dofZ 0) (dofZ 1) (dofZ 0)))
     = true.
Proof.
  split; [ | vm_compute; reflexivity].
  geounfold. xeval. reflexivity.
Qed.

End SegmentExtras.

(** ** Further properties of the coincidence loop *)

Module DetSimExtras.

Import XReal XRealFacts RConst IEEE CRTDetSim.
Import DetSimProofs.

(** *** The shape of the records *)

Section Records.

Context {D : Type} `{DoubleOps D}.

Variable p : Params (D := D).
Variable taggers : list (Z * Tagger).
Variable key : Z.
Variable trg : Tagger.

(** The entry [c] is a hit of the tagger, but for its ADC value. *)
Definition fromHit (c : CRTChannelData) : Prop :=
  exists h : CRTChannelData,
    In h (data trg) /\ Channel c = Channel h /\ T0 c = T0 h /\ T1 c = T1 h.

(** A record of the tagger [key]: its channel data start with the trigger
    channel, whose tick count gives the trigger time; no channel occurs
    twice; every entry is a hit of the tagger. *)
Definition recordOfTagger (r : CRTData (D := D)) : Prop :=
  Mac5 r = key
  /\ (exists first rest,
         ChanData r = first :: rest
         /\ Channel first = ChanTrig r
         /\ TTrig r = hitTicksTime p first)
  /\ NoDup (map Channel (ChanData r))
  /\ Forall fromHit (ChanData r).

(** The state of the loop between two iterations. *)
Definition openWindow (st : LoopState (D := D)) : Prop :=
  (exists first rest,
      passingData st = first :: rest
      /\ Channel first = Channel (chanTrigData st)
      /\ ttrig st = hitTicksTime p first)
  /\ map Channel (passingData st) = rev (trackNHold st)
  /\ NoDup (trackNHold st)
  /\ Forall fromHit (passingData st)
  /\ Forall recordOfTagger (triggeredCRTHits st)
  /\ map Entry (triggeredCRTHits st)
     = map Z.of_nat (seq 0 (length (triggeredCRTHits st)))
  /\ event st = Z.of_nat (length (triggeredCRTHits st)).

Lemma fromHit_self (h : CRTChannelData) : In h (data trg) -> fromHit h.
Proof. intros Hh. exists h. auto. Qed.

Lemma set_insert_new (x : Z) (s s' : uset) :
  set_insert x s = (s', true) -> s' = x :: s /\ ~ In x s.
Proof.
  unfold set_insert. destruct (set_mem x s) eqn:Hmem; [discriminate | ].
  intros E. injection E as <-. split; [reflexivity | ].
  intros Hin. unfold set_mem in Hmem.
  assert (Hex : existsb (Z.eqb x) s = true).
  { apply existsb_exists. exists x. split; [exact Hin | apply Z.eqb_refl]. }
  congruence.
Qed.

Lemma set_insert_old (x : Z) (s s' : uset) :
  set_insert x s = (s', false) -> s' = s /\ In x s.
Proof.
  unfold set_insert. destruct (set_mem x s) eqn:Hmem; [ | discriminate].
  intros E. injection E as <-. split; [reflexivity | ].
  unfold set_mem in Hmem. apply existsb_exists in Hmem.
  destruct Hmem as (y & Hy & Heq). apply Z.eqb_eq in Heq. now subst y.
Qed.

Lemma fresh_window (st : LoopState (D := D)) (h : CRTChannelData)
    (found : bool) (ev : Z) (mp : Z * Z) (out : list CRTData) :
  In h (data trg) ->
  Forall recordOfTagger out ->
  map Entry out = map Z.of_nat (seq 0 (length out)) ->
  ev = Z.of_nat (length out) ->
  openWindow
    (mkLoop h (hitTicksTime p h) [Channel h] [chanlayer_at trg (Channel h)]
       (tpair st) found [h] ev mp out).
Proof.
  intros Hh Hout Hentries Hev. unfold openWindow. cbn.
  repeat split; try assumption.
  - exists h, []. auto.
  - constructor; [intros [] | constructor].
  - constructor; [now apply fromHit_self | constructor].
Qed.

(** Adding to the ADC value of the last entry changes no channel. *)
Lemma merged_last (pd : list CRTChannelData) (adc : Z) :
  pd <> [] ->
  let pd' :=
    match rev pd with
    | [] => []
    | back :: front => rev front ++ [SetADC adc back]
    end in
  map Channel pd' = map Channel pd
  /\ (Forall fromHit pd -> Forall fromHit pd')
  /\ (forall first rest, pd = first :: rest ->
        exists first' rest',
          pd' = first' :: rest' /\ Channel first' = Channel first
          /\ T0 first' = T0 first).
Proof.
  intros Hne. cbv zeta.
  destruct (rev pd) as [ | back front] eqn:Hrev.
  { apply (f_equal (@rev _)) in Hrev. rewrite rev_involutive in Hrev.
    contradiction. }
  assert (Hpd : pd = rev front ++ [back]).
  { apply (f_equal (@rev _)) in Hrev. rewrite rev_involutive in Hrev.
    exact Hrev. }
  split; [ | split].
  - rewrite Hpd, !map_app. reflexivity.
  - rewrite Hpd. intros Hall. apply Forall_app in Hall. destruct Hall as (Hf & Hb).
    apply Forall_app. split; [exact Hf | ].
    inversion Hb as [ | b l (h & Hh & Hc & Ht0 & Ht1) _]; subst.
    constructor; [ | constructor]. exists h. auto.
  - intros first rest Hfirst. rewrite Hpd in Hfirst.
    destruct (rev front) as [ | f fs].
    + cbn in Hfirst |- *. injection Hfirst as <- <-.
      exists (SetADC adc back), []. auto.
    + cbn in Hfirst |- *. injection Hfirst as <- <-.
      exists f, (fs ++ [SetADC adc back]). auto.
Qed.

Lemma accumulate_openWindow (st : LoopState (D := D)) (h : CRTChannelData) :
  In h (data trg) -> openWindow st ->
  openWindow (accumulate p trg st h (hitTicksTime p h)).
Proof.
  intros Hh ((first & rest & Hpd & Hchan & Htime) & Hmap & Hnd & Hfrom & Hout
             & Hentries & Hev).
  unfold accumulate.
  destruct (set_insert (Channel h) (trackNHold st)) as [track' [ | ]] eqn:Hins.
  - apply set_insert_new in Hins. destruct Hins as (-> & Hnew).
    destruct (set_insert _ (layerNHold st)) as [layer' newLayer].
    unfold openWindow. cbn.
    repeat split; try assumption.
    + exists first, (rest ++ [h]). rewrite Hpd. auto.
    + rewrite map_app, Hmap. reflexivity.
    + now constructor.
    + apply Forall_app. split; [exact Hfrom | ].
      constructor; [now apply fromHit_self | constructor].
  - destruct (dlt _ _); [ | unfold openWindow; repeat split; eauto].
    assert (Hne : passingData st <> []) by (rewrite Hpd; discriminate).
    destruct (@merged_last (passingData st)
                ((ADC match rev (passingData st) with
                      | [] => h | back :: _ => back end + ADC h) mod 2 ^ 32)%Z Hne)
      as (Hm & Hf & Hfirst).
    unfold openWindow. cbn.
    destruct (rev (passingData st)) as [ | back front] eqn:Hrev.
    { apply (f_equal (@rev _)) in Hrev. rewrite rev_involutive in Hrev.
      contradiction. }
    cbn in Hm, Hf, Hfirst.
    repeat split; try assumption.
    + destruct (Hfirst first rest Hpd) as (first' & rest' & E & Hc & Ht).
      exists first', rest'. rewrite E. repeat split; try congruence.
      rewrite Htime. unfold hitTicksTime. now rewrite Ht.
    + now rewrite Hm.
    + now apply Hf.
Qed.

Lemma readOut_openWindow (st : LoopState (D := D)) (h : CRTChannelData) :
  In h (data trg) -> openWindow st ->
  openWindow (readOut key trg st h (hitTicksTime p h)).
Proof.
  intros Hh ((first & rest & Hpd & Hchan & Htime) & Hmap & Hnd & Hfrom & Hout
             & Hentries & Hev).
  unfold readOut. apply fresh_window; try assumption.
  - apply Forall_app. split; [exact Hout | ].
    constructor; [ | constructor].
    unfold recordOfTagger. cbn. repeat split.
    + exists first, rest. auto.
    + rewrite Hmap. apply NoDup_rev. exact Hnd.
    + exact Hfrom.
  - rewrite map_app, length_app, Hentries. cbn [length map].
    rewrite Nat.add_1_r, seq_S, map_app. cbn. now rewrite Hev.
  - rewrite length_app. cbn [length]. lia.
Qed.

Lemma with_pair_openWindow (st : LoopState (D := D)) (mp : Z * Z) :
  openWindow st -> openWindow (withPairFound st mp) /\ openWindow (withMacPair st mp).
Proof. intros Hst. split; exact Hst. Qed.

Lemma windowing_openWindow (st : LoopState (D := D)) (h : CRTChannelData) :
  In h (data trg) -> openWindow st ->
  openWindow (windowing p key trg st h (hitTicksTime p h)).
Proof.
  intros Hh Hst. unfold windowing.
  destruct (inReadoutWindow _ _ _ _); [now apply accumulate_openWindow | ].
  destruct (dle _ _); [exact Hst | ].
  destruct (dgt _ _); [now apply readOut_openWindow | exact Hst].
Qed.

Lemma retrigger_openWindow (st : LoopState (D := D)) (h : CRTChannelData) :
  In h (data trg) -> openWindow st ->
  openWindow (retrigger trg st h (hitTicksTime p h)).
Proof.
  intros Hh (_ & _ & _ & _ & Hout & Hentries & Hev).
  unfold retrigger. now apply fresh_window.
Qed.

Lemma step_openWindow (st : LoopState (D := D)) (h : CRTChannelData) :
  In h (data trg) -> openWindow st -> openWindow (step p taggers key trg st h).
Proof.
  intros Hh Hst. unfold step.
  destruct (_ && _); [now apply retrigger_openWindow | ].
  destruct (is_type trg m_ && negb (minosPairFound st) && fApplyCoincidenceM p).
  - destruct (minosPartner p taggers key trg (ttrig st)) as [key2 | ];
      [ | now apply retrigger_openWindow].
    apply windowing_openWindow; [exact Hh | ].
    now apply with_pair_openWindow.
  - destruct (negb (is_type trg m_)).
    + apply windowing_openWindow; [exact Hh | ].
      now apply with_pair_openWindow.
    + now apply windowing_openWindow.
Qed.

Lemma fold_step_openWindow (hits : list CRTChannelData) :
  forall st : LoopState (D := D),
    (forall h, In h hits -> In h (data trg)) -> openWindow st ->
    openWindow (fold_left (step p taggers key trg) hits st).
Proof.
  induction hits as [ | h rest IH]; intros st Hsub Hst; [exact Hst | ].
  cbn [fold_left]. apply IH.
  - intros h' Hh'. apply Hsub. now right.
  - apply step_openWindow; [apply Hsub; now left | exact Hst].
Qed.

Lemma fold_step_count (hits : list CRTChannelData) :
  forall st : LoopState (D := D),
    (length (triggeredCRTHits (fold_left (step p taggers key trg) hits st))
     <= length (triggeredCRTHits st) + length hits)%nat.
Proof.
  induction hits as [ | h rest IH]; intros st; cbn [fold_left length]; [lia | ].
  specialize (IH (step p taggers key trg st h)).
  destruct (step_output p taggers key trg st h) as [E | (_ & mp & E)];
    rewrite E in IH; [ | rewrite length_app in IH; cbn [length] in IH]; lia.
Qed.

Lemma insertByT0_length (x : CRTChannelData) (l : list CRTChannelData) :
  length (insertByT0 x l) = S (length l).
Proof.
  induction l as [ | y l IH]; cbn; [reflexivity | ].
  destruct (T0 y <? T0 x)%Z; cbn; [now rewrite IH | reflexivity].
Qed.

Lemma sortByT0_length (l : list CRTChannelData) :
  length (sortByT0 l) = length l.
Proof.
  induction l as [ | x l IH]; cbn; [reflexivity | ].
  now rewrite insertByT0_length, IH.
Qed.

(** X12.  Every record a tagger appends carries the tagger's key as Mac5;
    its channel data are not empty, start with the trigger channel
    (ChanTrig), whose tick count gives TTrig, hold no channel twice, and
    consist of hits of the tagger (up to the ADC values added to them).
    The records are numbered 0, 1, 2, ... in the order appended, and a
    tagger with n hits gives at most n - 1 records. *)
Theorem records_of_a_tagger :
  let records := produceTagger p taggers key trg in
  Forall recordOfTagger records
  /\ map Entry records = map Z.of_nat (seq 0 (length records))
  /\ (length records <= length (data trg) - 1)%nat.
Proof.
  cbv zeta. unfold produceTagger.
  destruct (coincidencePossible p trg);
    [ | repeat split; [constructor | cbn; lia]].
  unfold coincidenceLoop.
  destruct (sortByT0 (data trg)) as [ | first rest] eqn:Hsort;
    [repeat split; [constructor | cbn; lia] | ].
  assert (Hsub : forall h, In h (first :: rest) -> In h (data trg)).
  { intros h Hh. apply sortByT0_In. now rewrite Hsort. }
  assert (Hinit : openWindow (initialState p trg first)).
  { unfold initialState. apply (@fresh_window (initialState p trg first));
      [apply Hsub; now left | constructor | reflexivity | reflexivity]. }
  destruct (@fold_step_openWindow rest (initialState p trg first)) as
    (_ & _ & _ & _ & Hout & Hentries & _); [ | exact Hinit | ].
  { intros h Hh. apply Hsub. now right. }
  split; [exact Hout | split; [exact Hentries | ]].
  pose proof (fold_step_count rest (initialState p trg first)) as Hcount.
  cbn [initialState triggeredCRTHits length] in Hcount.
  pose proof (sortByT0_length (data trg)) as Hlen.
  rewrite Hsort in Hlen. cbn [length] in Hlen. lia.
Qed.

End Records.

(** *** The module pair of a record *)

Section ModulePairs.

Context {D : Type} `{DoubleOps D}.

Variable p : Params (D := D).
Variable taggers : list (Z * Tagger).
Variable key : Z.
Variable trg : Tagger.

(** The tagger [key2] is another MINOS module of the stack and region of
    [trg], on the opposite layer, with a hit within the MINOS coincidence
    window of the time [t]. *)
Definition partnerAt (key2 : Z) (t : D) : Prop :=
  key2 <> key
  /\ exists trg2 : Tagger,
       In (key2, trg2) taggers
       /\ is_type trg2 m_ = true
       /\ stackid trg = stackid trg2
       /\ reg trg = reg trg2
       /\ ((In 1%Z (layerid trg2) /\ In 0%Z (layerid trg))
           \/ (In 0%Z (layerid trg2) /\ In 1%Z (layerid trg)))
       /\ exists c2 : CRTChannelData,
            In c2 (data trg2)
            /\ dlt (absDiff (hitTicksTime p c2) t)
                   (milli (fLayerCoincidenceWindowM p)) = true.

Lemma set_mem_In (x : Z) (s : uset) : set_mem x s = true -> In x s.
Proof.
  unfold set_mem. intros Hmem. apply existsb_exists in Hmem.
  destruct Hmem as (y & Hy & Heq). apply Z.eqb_eq in Heq. now subst y.
Qed.

Lemma minosPartner_Some (t : D) (key2 : Z) :
  minosPartner p taggers key trg t = Some key2 -> partnerAt key2 t.
Proof.
  unfold minosPartner.
  destruct (find _ taggers) as [[k2 trg2] | ] eqn:Hfind; [ | discriminate].
  cbn [option_map fst]. intros E. injection E as <-.
  apply find_some in Hfind. destruct Hfind as (Hin & Htest). cbn [fst snd] in Htest.
  repeat (apply andb_prop in Htest; destruct Htest as (Htest & ?)).
  unfold partnerAt. split.
  - intros ->. rewrite Z.eqb_refl in *. discriminate.
  - exists trg2. repeat split; try assumption.
    + now apply Z.eqb_eq.
    + now apply String.eqb_eq.
    + match goal with
      | Hl : _ || _ = true |- _ =>
          apply orb_prop in Hl; destruct Hl as [Hl | Hl];
          apply andb_prop in Hl; destruct Hl as (Hl1 & Hl2);
          [left | right]; split; now apply set_mem_In
      end.
    + match goal with
      | He : existsb _ _ = true |- _ =>
          apply existsb_exists in He; destruct He as (c2 & Hc2 & Hlt);
          exists c2; split; assumption
      end.
Qed.

(** The module pair a record of the tagger must carry. *)
Definition modulePairOf (r : CRTData (D := D)) : Prop :=
  if is_type trg m_
  then if fApplyCoincidenceM p
       then exists key2 : Z, MacPair r = (key, key2) /\ partnerAt key2 (TTrig r)
       else MacPair r = macPair trg
  else MacPair r = (key, key).

Definition pairKnown (st : LoopState (D := D)) : Prop :=
  if is_type trg m_
  then if fApplyCoincidenceM p
       then minosPairFound st = true ->
            exists key2 : Z,
              trgMacPair st = (key, key2) /\ partnerAt key2 (ttrig st)
       else trgMacPair st = macPair trg
  else True.

Definition pairsOK (st : LoopState (D := D)) : Prop :=
  pairKnown st /\ Forall modulePairOf (triggeredCRTHits st).

Lemma not_both_types (a b : Ascii.ascii) :
  a <> b -> is_type trg a = true -> is_type trg b = false.
Proof.
  unfold is_type. intros Hab Ha. apply Ascii.eqb_eq in Ha.
  apply Ascii.eqb_neq. congruence.
Qed.

Lemma windowing_pairsOK (st : LoopState (D := D)) (h : CRTChannelData) :
  (is_type trg m_ = true -> fApplyCoincidenceM p = true ->
   minosPairFound st = true) ->
  (is_type trg m_ = false -> trgMacPair st = (key, key)) ->
  pairsOK st -> pairsOK (windowing p key trg st h (hitTicksTime p h)).
Proof.
  intros Hfound Hself (Hknown & Hout). unfold windowing.
  destruct (inReadoutWindow _ _ _ _).
  - unfold accumulate.
    destruct (set_insert (Channel h) (trackNHold st)) as [track' [ | ]].
    + destruct (set_insert _ (layerNHold st)) as [layer' newLayer].
      split; [exact Hknown | exact Hout].
    + destruct (dlt _ _); split; assumption.
  - destruct (dle _ _); [split; assumption | ].
    destruct (dgt _ _); [ | split; assumption].
    unfold readOut, pairsOK, pairKnown, modulePairOf in *.
    cbn [minosPairFound trgMacPair ttrig triggeredCRTHits].
    destruct (is_type trg m_).
    + destruct (fApplyCoincidenceM p).
      * split; [discriminate | ].
        apply Forall_app. split; [exact Hout | ].
        constructor; [ | constructor]. cbn [MacPair TTrig].
        apply Hknown. now apply Hfound.
      * split; [exact Hknown | ].
        apply Forall_app. split; [exact Hout | ].
        constructor; [exact Hknown | constructor].
    + split; [exact I | ].
      apply Forall_app. split; [exact Hout | ].
      constructor; [ | constructor]. cbn [MacPair]. now apply Hself.
Qed.

Lemma step_pairsOK (st : LoopState (D := D)) (h : CRTChannelData) :
  pairsOK st -> pairsOK (step p taggers key trg st h).
Proof.
  intros (Hknown & Hout). unfold step.
  assert (Hcm : c_ <> m_) by (intros E; vm_compute in E; discriminate E).
  assert (Hdm : d_ <> m_) by (intros E; vm_compute in E; discriminate E).
  destruct (_ && _) eqn:Hhand.
  { (* the hand-off of lines 614-628: a c or d module *)
    assert (Hm : is_type trg m_ = false).
    { apply andb_prop in Hhand. destruct Hhand as (_ & Hhand).
      apply orb_prop in Hhand. destruct Hhand as [Hc | Hd].
      - apply andb_prop in Hc. destruct Hc as (Hc & _).
        apply andb_prop in Hc. destruct Hc as (Hc & _).
        exact (not_both_types Hcm Hc).
      - apply andb_prop in Hd. destruct Hd as (Hd & _).
        apply andb_prop in Hd. destruct Hd as (Hd & _).
        exact (not_both_types Hdm Hd). }
    unfold retrigger, pairsOK, pairKnown.
    cbn [minosPairFound trgMacPair ttrig triggeredCRTHits].
    rewrite Hm. split; [exact I | exact Hout]. }
  destruct (is_type trg m_) eqn:Hm; cbn [andb negb].
  - destruct (minosPairFound st) eqn:Hfound; cbn [andb negb].
    + apply windowing_pairsOK; [auto | congruence | split; assumption].
    + destruct (fApplyCoincidenceM p) eqn:Hon.
      * destruct (minosPartner p taggers key trg (ttrig st)) as [key2 | ] eqn:Hpartner.
        -- apply windowing_pairsOK; [reflexivity | congruence | ].
           split; [ | exact Hout].
           unfold pairKnown. rewrite Hm, Hon. intros _.
           exists key2. split; [reflexivity | ].
           now apply minosPartner_Some.
        -- unfold retrigger, pairsOK, pairKnown.
           cbn [minosPairFound trgMacPair ttrig triggeredCRTHits].
           rewrite Hm, Hon.
           split; [rewrite Hfound; discriminate | exact Hout].
      * apply windowing_pairsOK; [congruence | congruence | split; assumption].
  - apply windowing_pairsOK; [congruence | reflexivity | ].
    split; [ | exact Hout]. unfold pairKnown. now rewrite Hm.
Qed.

Lemma fold_step_pairsOK (hits : list CRTChannelData) :
  forall st : LoopState (D := D),
    pairsOK st -> pairsOK (fold_left (step p taggers key trg) hits st).
Proof.
  induction hits as [ | h rest IH]; intros st Hst; [exact Hst | ].
  cbn [fold_left]. apply IH. now apply step_pairsOK.
Qed.

(** X13.  The module pair of every record of a tagger: (key, key) for a
    module that is not a MINOS module; for a MINOS module with the
    coincidence on, (key, key2) where key2 is another MINOS module of the
    same stack and region, on the opposite layer, with a hit within the
    MINOS window of the trigger time of the record; for a MINOS module
    with the coincidence off, the pair the tagger came with. *)
Theorem module_pair_of_records :
  Forall modulePairOf (produceTagger p taggers key trg).
Proof.
  unfold produceTagger.
  destruct (coincidencePossible p trg); [ | constructor].
  unfold coincidenceLoop.
  destruct (sortByT0 (data trg)) as [ | first rest]; [constructor | ].
  apply fold_step_pairsOK. split; [ | constructor].
  unfold pairKnown, initialState.
  cbn [minosPairFound trgMacPair ttrig triggeredCRTHits].
  destruct (is_type trg m_); [ | exact I].
  destruct (fApplyCoincidenceM p); [discriminate | reflexivity].
Qed.

End ModulePairs.

(** *** The layer coincidence of CERN and DC modules *)

Section Layers.

Local Open Scope R_scope.

Variable p : Params (D := xreal).
Variable taggers : list (Z * Tagger).
Variable key : Z.
Variable trg : Tagger.
Variables w dead : R.

(** The record holds a channel on another layer than its trigger channel,
    and its trigger pair names the two. *)
Definition twoLayers (r : CRTData (D := xreal)) : Prop :=
  exists ch : Z,
    In ch (map Channel (ChanData r))
    /\ TrigPair r = (ChanTrig r, ch)
    /\ chanlayer_at trg ch <> chanlayer_at trg (ChanTrig r).

Hypothesis Hcd : is_type trg c_ || is_type trg d_ = true.
Hypothesis Hon : applyCoincidence p trg = true.
Hypothesis Hw : layerWindow p trg = Fin w.
Hypothesis Hdead : fDeadTime p = Fin dead.
Hypothesis Hshort : w / 1000 <= dead.
Hypothesis Htimes :
  forall h, In h (data trg) -> exists t : R, hitTicksTime p h = Fin t.

Lemma milli_Fin (x : R) : milli (Fin x) = Fin (x / 1000).
Proof. unfold milli. cbn. f_equal. unfold Q2R. cbn. lra. Qed.

Lemma not_minos : is_type trg m_ = false.
Proof.
  assert (Hcm : c_ <> m_) by (intros E; vm_compute in E; discriminate E).
  assert (Hdm : d_ <> m_) by (intros E; vm_compute in E; discriminate E).
  apply orb_prop in Hcd. destruct Hcd as [Hc | Hd];
    [exact (not_both_types trg Hcm Hc) | exact (not_both_types trg Hdm Hd)].
Qed.

(** The two tests of the loop that depend on the type, for this tagger. *)
Lemma own_tests (ttrig ttmp : xreal) :
  ((is_type trg c_ && fApplyCoincidenceC p
    && dgt (dsub ttmp ttrig) (milli (fLayerCoincidenceWindowC p)))
   || (is_type trg d_ && fApplyCoincidenceD p
       && dgt (dsub ttmp ttrig) (milli (fLayerCoincidenceWindowD p))))
  = dgt (dsub ttmp ttrig) (Fin (w / 1000))
  /\ inReadoutWindow p trg ttrig ttmp = dlt ttmp (dadd ttrig (Fin (w / 1000))).
Proof.
  assert (Hcdne : c_ <> d_) by (intros E; vm_compute in E; discriminate E).
  assert (Hdcne : d_ <> c_) by (intros E; vm_compute in E; discriminate E).
  pose proof not_minos as Hm.
  unfold inReadoutWindow. rewrite Hm.
  unfold applyCoincidence, layerWindow in Hon, Hw.
  destruct (is_type trg c_) eqn:Hc.
  - rewrite (not_both_types trg Hcdne Hc), Hon, Hw, milli_Fin. cbn [andb orb].
    rewrite !orb_false_r. split; reflexivity.
  - cbn [orb] in Hcd. rewrite Hcd in Hon, Hw |- *. rewrite Hon, Hw, milli_Fin.
    cbn [andb orb]. rewrite !orb_false_r. split; reflexivity.
Qed.

Definition layersKnown (st : LoopState (D := xreal)) : Prop :=
  (exists t : R, ttrig st = Fin t)
  /\ In (chanlayer_at trg (Channel (chanTrigData st))) (layerNHold st)
  /\ (length (layerNHold st) <> 1%nat ->
      exists ch : Z,
        In ch (trackNHold st)
        /\ tpair st = (Channel (chanTrigData st), ch)
        /\ chanlayer_at trg ch <> chanlayer_at trg (Channel (chanTrigData st)))
  /\ map Channel (passingData st) = rev (trackNHold st)
  /\ passingData st <> []
  /\ Forall twoLayers (triggeredCRTHits st).

Lemma fresh_layers (st : LoopState (D := xreal)) (h : CRTChannelData)
    (found : bool) (ev : Z) (mp : Z * Z) (out : list CRTData) :
  In h (data trg) -> Forall twoLayers out ->
  layersKnown
    (mkLoop h (hitTicksTime p h) [Channel h] [chanlayer_at trg (Channel h)]
       (tpair st) found [h] ev mp out).
Proof.
  intros Hh Hout. unfold layersKnown. cbn.
  repeat split; try assumption.
  - now apply Htimes.
  - now left.
  - intros Hne. now contradiction Hne.
  - discriminate.
Qed.

Lemma accumulate_layersKnown (st : LoopState (D := xreal)) (h : CRTChannelData) :
  layersKnown st -> layersKnown (accumulate p trg st h (hitTicksTime p h)).
Proof.
  intros (Ht & Hlayer & Hpair & Hmap & Hne & Hout).
  unfold accumulate.
  destruct (set_insert (Channel h) (trackNHold st)) as [track' [ | ]] eqn:Hins.
  - apply set_insert_new in Hins. destruct Hins as (-> & Hnew).
    destruct (set_insert _ (layerNHold st)) as [layer' [ | ]] eqn:Hlay.
    + apply set_insert_new in Hlay. destruct Hlay as (-> & Hnewl).
      unfold layersKnown. cbn.
      repeat split; try assumption.
      * now right.
      * intros _. exists (Channel h). split; [now left | split; [reflexivity | ]].
        intros E. apply Hnewl. now rewrite E.
      * rewrite map_app, Hmap. reflexivity.
      * now destruct (passingData st).
    + apply set_insert_old in Hlay. destruct Hlay as (-> & _).
      unfold layersKnown. cbn.
      repeat split; try assumption.
      * intros Hlen. destruct (Hpair Hlen) as (ch & Hch & Hp & Hl).
        exists ch. split; [now right | split; assumption].
      * rewrite map_app, Hmap. reflexivity.
      * now destruct (passingData st).
  - destruct (dlt _ _); [ | unfold layersKnown; repeat split; assumption].
    destruct (@merged_last trg (passingData st)
                ((ADC match rev (passingData st) with
                      | [] => h | back :: _ => back end + ADC h) mod 2 ^ 32)%Z Hne)
      as (Hm & _ & _).
    unfold layersKnown. cbn.
    destruct (rev (passingData st)) as [ | back front] eqn:Hrev.
    { apply (f_equal (@rev _)) in Hrev. rewrite rev_involutive in Hrev.
      contradiction. }
    cbn in Hm.
    repeat split; try assumption.
    + now rewrite Hm.
    + now destruct (rev front).
Qed.

Lemma step_layersKnown (st : LoopState (D := xreal)) (h : CRTChannelData) :
  In h (data trg) -> layersKnown st -> layersKnown (step p taggers key trg st h).
Proof.
  intros Hh Hst.
  pose proof Hst as ((t & Ht) & Hlayer & Hpair & Hmap & Hne & Hout).
  destruct (Htimes h Hh) as (tt & Htt).
  unfold step.
  destruct (own_tests (ttrig st) (hitTicksTime p h)) as (-> & Hwin).
  rewrite not_minos. cbn [andb negb].
  destruct (_ && _) eqn:Hhand.
  { unfold retrigger. now apply fresh_layers. }
  unfold windowing.
  change (ttrig (withMacPair st (key, key))) with (ttrig st).
  rewrite Hwin.
  destruct (dlt (hitTicksTime p h) (dadd (ttrig st) (Fin (w / 1000)))) eqn:Hin.
  { exact (accumulate_layersKnown h (st := withMacPair st (key, key)) Hst). }
  rewrite Hdead.
  destruct (dle (hitTicksTime p h) (dadd (ttrig st) (Fin dead))) eqn:Hle;
    [exact Hst | ].
  destruct (dgt (hitTicksTime p h) (dadd (ttrig st) (Fin dead))) eqn:Hgt;
    [ | exact Hst].
  unfold readOut.
  cbn [tpair withMacPair event trgMacPair triggeredCRTHits ttrig chanTrigData
         passingData].
  apply fresh_layers; [exact Hh | ].
  apply Forall_app. split; [exact Hout | ].
  constructor; [ | constructor].
  assert (Hlen : length (layerNHold st) <> 1%nat).
  { intros Hlen. rewrite Hlen in Hhand. cbn [Z.of_nat Pos.of_succ_nat Z.eqb Pos.eqb andb] in Hhand.
    rewrite Htt, Ht in Hhand, Hin, Hgt. unfold dgt in Hhand, Hgt.
    cbn in Hhand, Hin, Hgt.
    apply Rltb_iff in Hgt.
    unfold Rltb in Hhand, Hin.
    destruct (Rlt_dec (w / 1000) (tt + - t)); [discriminate | ].
    destruct (Rlt_dec tt (t + w / 1000)); [discriminate | ].
    clear - Hgt n n0 Hshort. lra. }
  destruct (Hpair Hlen) as (ch & Hch & Hp & Hl).
  exists ch. cbn [ChanData TrigPair ChanTrig].
  split; [ | split; assumption].
  rewrite Hmap. apply in_rev in Hch. exact Hch.
Qed.

Lemma fold_step_layersKnown (hits : list CRTChannelData) :
  forall st : LoopState (D := xreal),
    (forall h, In h hits -> In h (data trg)) -> layersKnown st ->
    layersKnown (fold_left (step p taggers key trg) hits st).
Proof.
  induction hits as [ | h rest IH]; intros st Hsub Hst; [exact Hst | ].
  cbn [fold_left]. apply IH.
  - intros h' Hh'. apply Hsub. now right.
  - apply step_layersKnown; [apply Hsub; now left | exact Hst].
Qed.

Lemma layer_coincidence_holds : Forall twoLayers (produceTagger p taggers key trg).
Proof.
  unfold produceTagger.
  destruct (coincidencePossible p trg); [ | constructor].
  unfold coincidenceLoop.
  destruct (sortByT0 (data trg)) as [ | first rest] eqn:Hsort; [constructor | ].
  assert (Hsub : forall h, In h (first :: rest) -> In h (data trg)).
  { intros h Hh. apply sortByT0_In. now rewrite Hsort. }
  destruct (@fold_step_layersKnown rest (initialState p trg first))
    as (_ & _ & _ & _ & _ & Hout); [ | | exact Hout].
  - intros h Hh. apply Hsub. now right.
  - unfold initialState.
    apply (@fresh_layers (initialState p trg first));
      [apply Hsub; now left | constructor].
Qed.

Lemma one_layer_no_record :
  (length (layerid trg) < 2)%nat -> produceTagger p taggers key trg = [].
Proof.
  intros Hone. unfold produceTagger, coincidencePossible.
  rewrite not_minos. unfold applyCoincidence in Hon.
  assert (Hlt : (1 <? Z.of_nat (length (layerid trg)))%Z = false)
    by (apply Z.ltb_ge; lia).
  rewrite Hlt.
  destruct (is_type trg c_) eqn:Hc.
  - rewrite Hon. cbn [negb andb orb].
    assert (Hd : is_type trg d_ = false).
    { apply (not_both_types trg (a := c_)); [ | exact Hc].
      intros E; vm_compute in E; discriminate E. }
    rewrite Hd. reflexivity.
  - cbn [orb] in Hcd. rewrite Hcd in Hon. rewrite Hon, Hcd. reflexivity.
Qed.

End Layers.

(** X14.  The layer coincidence of a CERN or DC module with the
    coincidence switched on, in exact arithmetic, when the coincidence
    window of the type (fLayerCoincidenceWindow * 1e-3) is not longer than
    the dead time and the clock gives a finite time for every hit: every
    record holds a channel on another layer than its trigger channel, and
    its trigger pair is (trigger channel, that channel); a tagger whose
    hits are all on one layer gives no record. *)
Theorem layer_coincidence (p : Params (D := xreal))
    (taggers : list (Z * Tagger)) (key : Z) (trg : Tagger) (w dead : R) :
  is_type trg c_ || is_type trg d_ = true ->
  applyCoincidence p trg = true ->
  layerWindow p trg = Fin w ->
  fDeadTime p = Fin dead ->
  (w / 1000 <= dead)%R ->
  (forall h, In h (data trg) -> exists t : R, hitTicksTime p h = Fin t) ->
  Forall (twoLayers trg) (produceTagger p taggers key trg)
  /\ ((length (layerid trg) < 2)%nat -> produceTagger p taggers key trg = []).
Proof.
  intros Hcd Hon Hw Hdead Hshort Htimes. split.
  - exact (@layer_coincidence_holds p taggers key trg w dead Hcd Hon Hw Hdead
             Hshort Htimes).
  - exact (@one_layer_no_record p taggers key trg Hcd Hon).
Qed.

(** *** A module with three hits *)

Local Open Scope R_scope.

(** The two hits of [twoHitTagger], and a third one on the channel of the
    first, 1000 ticks later. *)
Definition thirdHit : CRTChannelData := mkChannelData 3 2000 0 80.
Definition threeHitTagger (ty : Ascii.ascii) : Tagger :=
  mkTagger ty String.EmptyString 0 [0%Z; 1%Z] [(3%Z, 0%Z); (5%Z, 1%Z)]
    (0%Z, 0%Z) [firstHit; secondHit; thirdHit].

(** The same three hits with both channels on layer 0. *)
Definition oneLayerTagger (ty : Ascii.ascii) : Tagger :=
  mkTagger ty String.EmptyString 0 [0%Z] [(3%Z, 0%Z); (5%Z, 0%Z)]
    (0%Z, 0%Z) [firstHit; secondHit; thirdHit].

Ltac run_tagger :=
  unfold produceTagger, coincidenceLoop, threeHitTagger, oneLayerTagger,
    windowParams, unitClock, firstHit, secondHit, thirdHit;
  cbn;
  unfold step, windowing, inReadoutWindow, hitTicksTime, milli, is_type,
    coincidencePossible, minosPartner, partnerTagger, absDiff, dgt;
  repeat first [progress cbn | rdecide | qdecide].

(** The third hit comes after the dead time of the first: the window of
    the first two hits is read out, as one record. *)
Example three_hits_one_record :
  produceTagger (windowParams unitClock (Fin 0) 100000 true) [] 7
    (threeHitTagger c_)
  = [mkCRTData 7 0 (Fin 1000) 3 (3%Z, 5%Z) (7%Z, 7%Z) [firstHit; secondHit]]
  /\ produceTagger (windowParams unitClock (Fin 0) 100000 true)
       [(9%Z, partnerTagger)] 7 (threeHitTagger m_)
     = [mkCRTData 7 0 (Fin 1000) 3 (3%Z, 5%Z) (7%Z, 9%Z) [firstHit; secondHit]]
  /\ produceTagger (windowParams unitClock (Fin 0) 100000 false) [] 7
       (oneLayerTagger d_)
     = [mkCRTData 7 0 (Fin 1000) 3 (0%Z, 0%Z) (7%Z, 7%Z) [firstHit; secondHit]].
Proof.
  split; [ | split]; run_tagger; reflexivity.
Qed.

Lemma layer_coincidence_witness :
  Forall (twoLayers (threeHitTagger c_))
    (produceTagger (windowParams unitClock (Fin 0) 100000 true) [] 7
       (threeHitTagger c_))
  /\ produceTagger (windowParams unitClock (Fin 0) 100000 true) [] 7
       (oneLayerTagger d_) = [].
Proof.
  assert (Htimes : forall (ty : Ascii.ascii) (trg : Tagger) h,
             In h (data trg) ->
             exists t : R,
               hitTicksTime (windowParams unitClock (Fin 0) 100000 true) h = Fin t).
  { intros ty trg h _. eexists. reflexivity. }
  split.
  - apply (proj1 (@layer_coincidence
                    (windowParams unitClock (Fin 0) 100000 true) [] 7
                    (threeHitTagger c_) 100000 200
                    eq_refl eq_refl eq_refl eq_refl ltac:(lra)
                    (Htimes c_ (threeHitTagger c_)))).
  - apply (proj2 (@layer_coincidence
                    (windowParams unitClock (Fin 0) 100000 true) [] 7
                    (oneLayerTagger d_) 100000 200
                    eq_refl eq_refl eq_refl eq_refl ltac:(lra)
                    (Htimes d_ (oneLayerTagger d_)))).
    cbn. lia.
Defined.

End DetSimExtras.

(** ** Module names, regions and channel numbers *)

Module NamesProofs.

Import CRTT0MatchAlg CRTDetSim CRTDetSimNames.
Import String.
Local Open Scope string_scope.

Lemma substring_all (s : String.string) (n : nat) :
  (String.length s <= n)%nat -> String.substring 0 n s = s.
Proof.
  revert n. induction s as [ | c s IH]; intros n Hn.
  - now destruct n.
  - destruct n as [ | n]; cbn in Hn; [lia | ].
    cbn. f_equal. apply IH. lia.
Qed.

Lemma substring_skip (a b : String.string) (n : nat) :
  (String.length b <= n)%nat ->
  String.substring (String.length a) n (a ++ b) = b.
Proof.
  intros Hn. induction a as [ | c a IH]; cbn.
  - now apply substring_all.
  - exact IH.
Qed.

Lemma length_append (a b : String.string) :
  String.length (a ++ b) = (String.length a + String.length b)%nat.
Proof. induction a as [ | c a IH]; cbn; [reflexivity | now rewrite IH]. Qed.

Lemma append_assoc (a b c : String.string) : (a ++ b) ++ c = a ++ (b ++ c).
Proof. induction a as [ | x a IH]; cbn; [reflexivity | now rewrite IH]. Qed.

(** X15.  A module volume is named volAuxDet_<subsystem>_module_<nnn>_<region>.
    When GetAuxDetType finds the subsystem of such a name, GetAuxDetRegion
    returns its region; for a MINOS name it always does.  GetAuxDetRegion
    throws std::out_of_range exactly when the name is shorter than the
    prefix it skips. *)
Theorem region_of_module_name (name : String.string) :
  (forall sub num region : String.string,
      sub = "CERN" \/ sub = "DC" \/ sub = "MINOS" ->
      String.length num = 3%nat ->
      name = "volAuxDet_" ++ sub ++ "_module_" ++ num ++ "_" ++ region ->
      (subsystem (GetAuxDetType name) = sub -> GetAuxDetRegion name = Ok region)
      /\ (sub = "MINOS" -> GetAuxDetType name = m_))
  /\ (GetAuxDetRegion name = OutOfRange
      <-> (String.length name
           < 22 + String.length (subsystem (GetAuxDetType name)))%nat).
Proof.
  split.
  - intros sub num region Hsub Hnum Hname.
    assert (Hm : sub = "MINOS" -> GetAuxDetType name = m_).
    { intros ->. rewrite Hname. reflexivity. }
    split; [ | exact Hm].
    intros Htype. unfold GetAuxDetRegion. cbv zeta. rewrite Htype.
    assert (Hsplit : name
                     = ("volAuxDet_" ++ sub ++ "_module_" ++ num ++ "_") ++ region).
    { rewrite Hname, !append_assoc. reflexivity. }
    assert (Hlen : String.length ("volAuxDet_" ++ sub ++ "_module_###_")
                   = String.length ("volAuxDet_" ++ sub ++ "_module_" ++ num ++ "_")).
    { rewrite !length_append, Hnum. reflexivity. }
    unfold substr. rewrite Hlen. clear Hlen Hm Htype Hname.
    set (skipped := "volAuxDet_" ++ sub ++ "_module_" ++ num ++ "_") in *.
    subst name.
    rewrite (proj2 (Nat.ltb_ge _ _)) by (rewrite length_append; lia).
    rewrite substring_skip by (rewrite length_append; lia).
    reflexivity.
  - unfold GetAuxDetRegion, substr. cbv zeta.
    rewrite !length_append.
    change (String.length "volAuxDet_") with 10%nat.
    change (String.length "_module_###_") with 12%nat.
    destruct (Nat.ltb_spec (String.length name)
                (10 + (String.length (subsystem (GetAuxDetType name)) + 12))).
    + split; [intros _; lia | reflexivity].
    + split; [discriminate | lia].
Qed.

Lemma region_of_module_name_witness :
  (GetAuxDetRegion "volAuxDet_CERN_module_010_Top" = Ok "Top"
   /\ GetAuxDetRegion "volAuxDet_MINOS_module_123_SlopeLeft" = Ok "SlopeLeft")
  /\ GetAuxDetType "volAuxDet_MINOS_module_123_SlopeLeft" = m_.
Proof.
  split; [split | ].
  - apply (proj1 (proj1 (region_of_module_name "volAuxDet_CERN_module_010_Top")
                    "CERN" "010" "Top" (or_introl eq_refl) eq_refl eq_refl)).
    reflexivity.
  - apply (proj1 (proj1 (region_of_module_name
                           "volAuxDet_MINOS_module_123_SlopeLeft")
                    "MINOS" "123" "SlopeLeft"
                    (or_intror (or_intror eq_refl)) eq_refl eq_refl)).
    reflexivity.
  - apply (proj2 (proj1 (region_of_module_name
                           "volAuxDet_MINOS_module_123_SlopeLeft")
                    "MINOS" "123" "SlopeLeft"
                    (or_intror (or_intror eq_refl)) eq_refl eq_refl)).
    reflexivity.
Defined.

(** A name shorter than the prefix: the call throws. *)
Example short_name_throws : GetAuxDetRegion "volAuxDet_DC" = OutOfRange.
Proof. reflexivity. Qed.

(** X16.  GetAuxDetRegionNum gives different numbers to different regions
    it knows, even numbers from 38 to 58, and UINT32_MAX to every other
    name. *)
Theorem region_numbers_distinct (reg1 reg2 : String.string) :
  GetAuxDetRegionNum reg1 <> UINT32_MAX ->
  GetAuxDetRegionNum reg1 = GetAuxDetRegionNum reg2 ->
  reg1 = reg2
  /\ (38 <= GetAuxDetRegionNum reg1 <= 58)%Z
  /\ (GetAuxDetRegionNum reg1 mod 2 = 0)%Z.
Proof.
  unfold GetAuxDetRegionNum, UINT32_MAX.
  repeat match goal with
         | |- context [String.eqb reg1 ?s] => destruct (String.eqb_spec reg1 s)
         end;
    repeat match goal with
           | |- context [String.eqb reg2 ?s] => destruct (String.eqb_spec reg2 s)
           end;
    intros Hknown Hsame; try discriminate Hsame; try (now contradiction Hknown);
    subst; (split; [reflexivity | split; [lia | reflexivity]]).
Qed.

Lemma region_numbers_distinct_witness :
  "SlopeBack" = "SlopeBack"
  /\ (38 <= GetAuxDetRegionNum "SlopeBack" <= 58)%Z
  /\ (GetAuxDetRegionNum "SlopeBack" mod 2 = 0)%Z.
Proof.
  apply (@region_numbers_distinct "SlopeBack" "SlopeBack");
    [discriminate | reflexivity].
Defined.

(** X17.  The channel numbers of the strips.  On a CERN module the two
    channels of a strip are 2*adsid and 2*adsid + 1, and a channel belongs
    to the strip channel/2.  On a MINOS module with strips below 20, three
    modules share a front-end board: the module is 3*mac5 + channel/10 and
    the channel is read by the strips channel%10 * 2 and channel%10 * 2 + 1. *)
Theorem channel_numbers (adid adsid : Z) :
  (0 <= adid < 2 ^ 32)%Z -> (0 <= adsid < 2 ^ 32)%Z ->
  (adsid < 2 ^ 31 ->
   let '(mac5, channel0ID, channel1ID) := channelIDs c_ adid adsid in
   mac5 = adid /\ channel1ID = channel0ID + 1
   /\ channel0ID / 2 = adsid /\ channel1ID / 2 = adsid)%Z
  /\ (adsid < 20 ->
      let '(mac5, channel0ID, _) := channelIDs m_ adid adsid in
      adid = 3 * mac5 + channel0ID / 10
      /\ adsid / 2 = channel0ID mod 10
      /\ 0 <= channel0ID < 30)%Z.
Proof.
  intros Hadid Hadsid. split.
  - intros Hsmall. unfold channelIDs.
    change (Ascii.eqb c_ c_) with true. cbv iota. unfold uint32.
    rewrite !Z.mod_small by lia.
    repeat split; try lia.
    + symmetry. apply (Z.div_unique _ 2 adsid 0); lia.
    + symmetry. apply (Z.div_unique _ 2 adsid 1); lia.
  - intros Hsmall. unfold channelIDs.
    change (Ascii.eqb m_ c_) with false. change (Ascii.eqb m_ d_) with false.
    change (Ascii.eqb m_ m_) with true. cbv iota. unfold uint32.
    pose proof (Z.mod_pos_bound adid 3 ltac:(lia)) as Hr.
    pose proof (Z.div_mod adid 3 ltac:(lia)) as Hq.
    assert (Hh : (0 <= adsid / 2 < 10)%Z).
    { split; [apply Z.div_pos; lia | apply Z.div_lt_upper_bound; lia]. }
    rewrite Z.mod_small by lia.
    assert (Hdiv : ((adsid / 2 + 10 * (adid mod 3)) / 10 = adid mod 3)%Z).
    { symmetry. apply (Z.div_unique _ 10 (adid mod 3) (adsid / 2)); lia. }
    assert (Hmod : ((adsid / 2 + 10 * (adid mod 3)) mod 10 = adsid / 2)%Z).
    { symmetry. apply (Z.mod_unique _ 10 (adid mod 3) (adsid / 2)); lia. }
    rewrite Hdiv, Hmod. repeat split; lia.
Qed.

Lemma channel_numbers_witness :
  (let '(mac5, channel0ID, channel1ID) := channelIDs c_ 7 5 in
   mac5 = 7 /\ channel1ID = channel0ID + 1
   /\ channel0ID / 2 = 5 /\ channel1ID / 2 = 5)%Z
  /\ (let '(mac5, channel0ID, _) := channelIDs m_ 8 13 in
      8 = 3 * mac5 + channel0ID / 10
      /\ 13 / 2 = channel0ID mod 10
      /\ 0 <= channel0ID < 30)%Z.
Proof.
  split.
  - apply (proj1 (@channel_numbers 7 5 ltac:(lia) ltac:(lia))). lia.
  - apply (proj2 (@channel_numbers 8 13 ltac:(lia) ltac:(lia))). lia.
Defined.

(** Strip 20 of a MINOS module gets the channel of strip 1 of the next
    module of the board. *)
Example minos_strip_20 : channelIDs m_ 0 20 = channelIDs m_ 1 1.
Proof. reflexivity. Qed.

End NamesProofs.

(** ** RecoUtils *)

Module RecoUtilsProofs.

Import XReal XRealFacts CRTT0MatchAlg RecoUtils.

(** *** The track of a hit *)

Section Track.

Local Open Scope R_scope.

Definition energyR (ide : TrackIDE (D := xreal)) : R :=
  match energy ide with Fin x => x | _ => 0 end.

Definition finiteEnergy (ide : TrackIDE (D := xreal)) : Prop :=
  exists x : R, energy ide = Fin x.

Lemma TrueParticleID_loop (trackIDs : list TrackIDE) :
  Forall finiteEnergy trackIDs ->
  forall (e : R) (id : Z),
    let best :=
      fold_left
        (fun best ide =>
           if dgt (energy ide) (fst best) then (energy ide, trackID ide)
           else best)
        trackIDs (Fin e, id) in
    (best = (Fin e, id) /\ Forall (fun ide => energyR ide <= e) trackIDs)
    \/ exists before ide after,
         trackIDs = before ++ ide :: after
         /\ best = (energy ide, trackID ide)
         /\ e < energyR ide
         /\ Forall (fun other => energyR other < energyR ide) before
         /\ Forall (fun other => energyR other <= energyR ide) after.
Proof.
  induction 1 as [ | ide rest (x & Hx) _ IH]; intros e id; cbv zeta.
  - left. split; [reflexivity | constructor].
  - cbn [fold_left].
    assert (Htest : dgt (energy ide) (fst (Fin e, id)) = Rltb e x)
      by (rewrite Hx; reflexivity).
    rewrite Htest. clear Htest.
    assert (Hex : energyR ide = x) by (unfold energyR; now rewrite Hx).
    rewrite Hx.
    destruct (Rlt_dec e x) as [Hlt | Hge].
    + rewrite Rltb_true by assumption.
      destruct (IH x (trackID ide))
        as [(E & Hall) | (b & i & a & E & Hb & Hi & Hbef & Haft)];
        cbv zeta in *.
      * right. exists [], ide, rest. cbn [app].
        split; [reflexivity | ].
        split; [now rewrite E, Hx | ].
        split; [lra | ].
        split; [constructor | now rewrite Hex].
      * right. exists (ide :: b), i, a. cbn [app].
        split; [now rewrite E | ].
        split; [exact Hb | ].
        split; [lra | ].
        split; [constructor; [lra | exact Hbef] | exact Haft].
    + rewrite Rltb_false by lra.
      destruct (IH e id)
        as [(E & Hall) | (b & i & a & E & Hb & Hi & Hbef & Haft)];
        cbv zeta in *.
      * left. split; [exact E | ]. constructor; [lra | exact Hall].
      * right. exists (ide :: b), i, a. cbn [app].
        split; [now rewrite E | ].
        split; [exact Hb | ].
        split; [exact Hi | ].
        split; [constructor; [lra | exact Hbef] | exact Haft].
Qed.

(** X18.  For finite energies, TrueParticleID returns the track of the
    first entry with the greatest energy when that energy is positive,
    and 0 when no entry has a positive energy (or there is no entry): 0
    stands for both the track 0 and no track. *)
Theorem TrueParticleID_first_greatest (trackIDs : list TrackIDE) :
  Forall finiteEnergy trackIDs ->
  (TrueParticleID trackIDs = 0%Z
   /\ Forall (fun ide => energyR ide <= 0) trackIDs)
  \/ exists before ide after,
       trackIDs = before ++ ide :: after
       /\ TrueParticleID trackIDs = trackID ide
       /\ 0 < energyR ide
       /\ Forall (fun other => energyR other < energyR ide) before
       /\ Forall (fun other => energyR other <= energyR ide) after.
Proof.
  intros Hfin. unfold TrueParticleID.
  destruct (TrueParticleID_loop Hfin 0 0%Z)
    as [(E & Hall) | (b & i & a & E & Hb & Hi & Hbef & Haft)].
  - left. cbv zeta in E. cbn [dofZ xreal_ops]. rewrite E. split; [reflexivity | exact Hall].
  - right. exists b, i, a. cbv zeta in Hb. cbn [dofZ xreal_ops]. rewrite Hb.
    repeat split; assumption.
Qed.

Lemma TrueParticleID_first_greatest_witness :
  let trackIDs :=
    [mkTrackIDE 4 (Fin 1); mkTrackIDE 9 (Fin 3); mkTrackIDE 2 (Fin 3)] in
  (TrueParticleID trackIDs = 0%Z
   /\ Forall (fun ide => energyR ide <= 0) trackIDs)
  \/ exists before ide after,
       trackIDs = before ++ ide :: after
       /\ TrueParticleID trackIDs = trackID ide
       /\ 0 < energyR ide
       /\ Forall (fun other => energyR other < energyR ide) before
       /\ Forall (fun other => energyR other <= energyR ide) after.
Proof.
  cbv zeta.
  apply (@TrueParticleID_first_greatest
           [mkTrackIDE 4 (Fin 1); mkTrackIDE 9 (Fin 3); mkTrackIDE 2 (Fin 3)]).
  repeat constructor; eexists; reflexivity.
Defined.

End Track.

(** *** The track of most hits *)

Section MostHits.

Local Open Scope Z_scope.

(** The number of hits of the track [k]. *)
Definition hitsOf (ids : list Z) (k : Z) : Z :=
  Z.of_nat (count_occ Z.eq_dec ids k).

Lemma hitsOf_app (ids : list Z) (k j : Z) :
  hitsOf (ids ++ [k]) j = hitsOf ids j + (if Z.eq_dec k j then 1 else 0).
Proof.
  unfold hitsOf. rewrite count_occ_app. cbn [count_occ].
  destruct (Z.eq_dec k j); lia.
Qed.

Lemma hitsOf_positive (ids : list Z) (k : Z) : 0 < hitsOf ids k <-> In k ids.
Proof.
  unfold hitsOf. rewrite (count_occ_In Z.eq_dec). lia.
Qed.

(** The entries of the map are the tracks with a hit, each once, in the
    order of the keys, with the number of their hits. *)
Definition countsOf (ids : list Z) (trackMap : list (Z * Z)) : Prop :=
  StronglySorted Z.lt (map fst trackMap)
  /\ forall k n, In (k, n) trackMap <-> (n = hitsOf ids k /\ 0 < n).

Lemma increment_keys (k : Z) (m : list (Z * Z)) (j : Z) :
  In j (map fst (increment k m)) <-> j = k \/ In j (map fst m).
Proof.
  induction m as [ | [k' n'] rest IH]; cbn.
  - intuition congruence.
  - destruct (Z.ltb_spec k k'); cbn; [intuition congruence | ].
    destruct (Z.eqb_spec k k'); cbn; [subst; intuition congruence | ].
    rewrite IH. intuition congruence.
Qed.

Lemma increment_sorted (k : Z) (m : list (Z * Z)) :
  StronglySorted Z.lt (map fst m) ->
  StronglySorted Z.lt (map fst (increment k m)).
Proof.
  induction m as [ | [k' n'] rest IH]; cbn; intros Hs.
  - repeat constructor.
  - inversion Hs as [ | a l Hrest Hall]; subst.
    destruct (Z.ltb_spec k k'); cbn.
    + constructor; [exact Hs | ].
      constructor; [exact H | ].
      eapply Forall_impl; [ | exact Hall]. cbn. intros; lia.
    + destruct (Z.eqb_spec k k'); cbn; [exact Hs | ].
      constructor; [now apply IH | ].
      apply Forall_forall. intros j Hj. apply increment_keys in Hj.
      destruct Hj as [-> | Hj]; [lia | ].
      rewrite Forall_forall in Hall. now apply Hall.
Qed.

Lemma sorted_key_once (k n : Z) (rest : list (Z * Z)) :
  StronglySorted Z.lt (map fst ((k, n) :: rest)) ->
  forall n', ~ In (k, n') rest.
Proof.
  cbn. intros Hs n' Hin. inversion Hs as [ | a l _ Hall]; subst.
  rewrite Forall_forall in Hall.
  assert (Hk : In k (map fst rest)) by (apply in_map_iff; now exists (k, n')).
  specialize (Hall k Hk). lia.
Qed.

Lemma increment_counts (ids : list Z) (k : Z) (m : list (Z * Z)) :
  countsOf ids m -> countsOf (ids ++ [k]) (increment k m).
Proof.
  intros (Hs & Hm). split; [now apply increment_sorted | ].
  assert (Hentries :
            forall j n, In (j, n) (increment k m)
                        <-> (j <> k /\ In (j, n) m)
                            \/ (j = k /\ n = hitsOf ids k + 1)).
  { clear - Hs Hm.
    assert (Hnew : forall n0, In (k, n0) m -> n0 = hitsOf ids k)
      by (intros n0 Hin; now apply Hm in Hin).
    assert (Hnone : ~ In k (map fst m) -> hitsOf ids k = 0).
    { intros Hno. pose proof (hitsOf_positive ids k) as Hp.
      unfold hitsOf in *.
      destruct (count_occ Z.eq_dec ids k) eqn:Hc; [reflexivity | ].
      exfalso. apply Hno. apply in_map_iff.
      exists (k, Z.of_nat (S n)). split; [reflexivity | ].
      apply Hm. split; [unfold hitsOf; now rewrite Hc | lia]. }
    clear Hm. revert Hs Hnew Hnone.
    induction m as [ | [k' n'] rest IH]; intros Hs Hnew Hnone j n.
    - cbn. rewrite Hnone by (intros []). cbn. intuition congruence.
    - cbn [increment].
      destruct (Z.ltb_spec k k').
      + assert (Hno : ~ In k (map fst ((k', n') :: rest))).
        { cbn. inversion Hs as [ | a l _ Hall]; subst.
          rewrite Forall_forall in Hall.
          intros [E | Hin]; [lia | ]. specialize (Hall k Hin). lia. }
        rewrite (Hnone Hno). cbn [In]. split.
        * intros [E | Hin].
          -- injection E as <- <-. right. split; [reflexivity | lia].
          -- left. split; [ | exact Hin].
             intros ->. apply Hno. apply in_map_iff. now exists (k, n).
        * intros [(Hne & Hin) | (-> & ->)]; [right; exact Hin | left; reflexivity].
      + destruct (Z.eqb_spec k k') as [<- | Hne].
        * rewrite <- (Hnew n' (or_introl eq_refl)). cbn [In]. split.
          -- intros [E | Hin].
             ++ injection E as <- <-. right. split; reflexivity.
             ++ left. split; [ | right; exact Hin].
                intros ->. exact (sorted_key_once Hs n Hin).
          -- intros [(Hne & [E | Hin]) | (-> & ->)].
             ++ injection E as E _. congruence.
             ++ right. exact Hin.
             ++ left. reflexivity.
        * cbn [In].
          assert (Hs' : StronglySorted Z.lt (map fst rest))
            by (cbn in Hs; now inversion Hs).
          rewrite (IH Hs').
          -- split.
             ++ intros [E | [(Hj & Hin) | (-> & ->)]].
                ** injection E as <- <-. left. split; [lia | now left].
                ** left. split; [exact Hj | now right].
                ** right. split; reflexivity.
             ++ intros [(Hj & [E | Hin]) | (-> & ->)].
                ** left. exact E.
                ** right. left. split; assumption.
                ** right. right. split; reflexivity.
          -- intros n0 Hin. apply Hnew. now right.
          -- intros Hno. apply Hnone. cbn. intros [E | Hin]; [lia | contradiction]. }
  intros j n. rewrite Hentries, hitsOf_app.
  destruct (Z.eq_dec k j) as [<- | Hne].
  - split.
    + intros [(Hne & _) | (_ & ->)]; [contradiction | ].
      split; [reflexivity | ].
      unfold hitsOf. lia.
    + intros (-> & _). right. split; reflexivity.
  - split.
    + intros [(_ & Hin) | (-> & _)]; [ | contradiction].
      apply Hm in Hin. destruct Hin as (-> & Hpos). split; [lia | exact Hpos].
    + intros (-> & Hpos). left. split; [congruence | ].
      apply Hm. split; lia.
Qed.

Lemma trackMap_counts (ids : list Z) :
  forall (done : list Z) (m : list (Z * Z)),
    countsOf done m ->
    countsOf (done ++ ids) (fold_left (fun m id => increment id m) ids m).
Proof.
  induction ids as [ | id rest IH]; intros done m Hm; cbn [fold_left].
  - now rewrite app_nil_r.
  - replace (done ++ id :: rest) with ((done ++ [id]) ++ rest)
      by (rewrite <- app_assoc; reflexivity).
    apply IH. now apply increment_counts.
Qed.

(** The second loop: the first entry with the greatest count. *)
Lemma highest_count (m : list (Z * Z)) :
  forall best : Z * Z,
    let r :=
      fold_left
        (fun best entry =>
           if snd best <? snd entry then (fst entry, snd entry) else best)
        m best in
    (r = best /\ Forall (fun e => snd e <= snd best) m)
    \/ exists before e after,
         m = before ++ e :: after /\ r = e /\ snd best < snd e
         /\ Forall (fun o => snd o < snd e) before
         /\ Forall (fun o => snd o <= snd e) after.
Proof.
  induction m as [ | [k n] rest IH]; intros best; cbv zeta.
  - left. split; [reflexivity | constructor].
  - cbn [fold_left fst snd].
    destruct (Z.ltb_spec (snd best) n) as [Hlt | Hge].
    + destruct (IH (k, n))
        as [(E & Hall) | (b & e & a & E & Hr & He & Hbef & Haft)]; cbv zeta in *.
      * right. exists [], (k, n), rest. cbn [app].
        split; [reflexivity | split; [exact E | ]].
        split; [exact Hlt | split; [constructor | exact Hall]].
      * right. exists ((k, n) :: b), e, a. cbn [app].
        split; [now rewrite E | split; [exact Hr | ]].
        cbn [snd] in He.
        split; [lia | split; [constructor; [exact He | exact Hbef] | exact Haft]].
    + destruct (IH best)
        as [(E & Hall) | (b & e & a & E & Hr & He & Hbef & Haft)]; cbv zeta in *.
      * left. split; [exact E | constructor; [exact Hge | exact Hall]].
      * right. exists ((k, n) :: b), e, a. cbn [app].
        split; [now rewrite E | split; [exact Hr | ]].
        split; [exact He | split; [constructor; [cbn; lia | exact Hbef] | exact Haft]].
Qed.

Lemma sorted_after (before after : list (Z * Z)) (e o : Z * Z) :
  StronglySorted Z.lt (map fst (before ++ e :: after)) ->
  In o after -> fst e < fst o.
Proof.
  induction before as [ | b before IH]; cbn; intros Hs Ho.
  - inversion Hs as [ | a l _ Hall]; subst. rewrite Forall_forall in Hall.
    apply Hall. now apply in_map.
  - inversion Hs; subst. now apply IH.
Qed.

Context {D : Type} `{DoubleOps D}.

(** X19.  TrueParticleIDFromTotalRecoHits returns -99999 for no hit, and
    otherwise a track that TrueParticleID gives for one of the hits, for
    at least as many hits as any other track, and the smallest such track
    number when several tracks have as many. *)
Theorem track_of_most_hits (hits : list (list (TrackIDE (D := D)))) :
  let ids := map TrueParticleID hits in
  let track := TrueParticleIDFromTotalRecoHits hits in
  (hits = [] /\ track = -99999)
  \/ (In track ids
      /\ forall k : Z,
           hitsOf ids k <= hitsOf ids track
           /\ (In k ids -> hitsOf ids k = hitsOf ids track -> track <= k)).
Proof.
  cbv zeta. unfold TrueParticleIDFromTotalRecoHits.
  destruct hits as [ | hit rest]; [left; split; reflexivity | right].
  set (hits := hit :: rest).
  set (ids := map TrueParticleID hits).
  assert (Hmap : fold_left (fun m h => increment (TrueParticleID h) m) hits []
                 = fold_left (fun m id => increment id m) ids []).
  { subst ids. generalize (@nil (Z * Z)). generalize hits.
    induction hits0 as [ | h l IH]; intros m; cbn; [reflexivity | apply IH]. }
  rewrite Hmap.
  destruct (@trackMap_counts ids [] []) as (Hs & Hm).
  { split; [constructor | ]. intros k n. cbn. unfold hitsOf. cbn. lia. }
  cbn [app] in Hs, Hm.
  set (m := fold_left (fun m id => increment id m) ids []) in *.
  assert (Hfirst : In (TrueParticleID hit, hitsOf ids (TrueParticleID hit)) m).
  { apply Hm. split; [reflexivity | ]. apply hitsOf_positive. now left. }
  destruct (highest_count m (-99999, -1))
    as [(E & Hall) | (b & e & a & E & Hr & He & Hbef & Haft)]; cbv zeta in *.
  - exfalso. rewrite Forall_forall in Hall. specialize (Hall _ Hfirst).
    cbn [snd] in Hall.
    assert (0 < hitsOf ids (TrueParticleID hit))
      by (apply hitsOf_positive; now left).
    lia.
  - rewrite Hr. destruct e as [r c]. cbn [fst snd] in *.
    assert (Hin : In (r, c) m) by (rewrite E; apply in_elt).
    apply Hm in Hin. destruct Hin as (Hc & Hpos).
    split; [apply hitsOf_positive; lia | ].
    intros k.
    destruct (Z_lt_dec 0 (hitsOf ids k)) as [Hk | Hk].
    + assert (Hkin : In (k, hitsOf ids k) m) by (apply Hm; split; [reflexivity | exact Hk]).
      rewrite E in Hkin. apply in_app_or in Hkin.
      rewrite Forall_forall in Hbef, Haft.
      destruct Hkin as [Hkb | [Hke | Hka]].
      * specialize (Hbef _ Hkb). cbn [snd] in Hbef. split; [lia | intros _ Heq; lia].
      * injection Hke as <- _. split; [lia | intros _ _; lia].
      * specialize (Haft _ Hka). cbn [snd] in Haft.
        split; [lia | intros _ _].
        rewrite E in Hs. pose proof (sorted_after b a (r, c) (k, hitsOf ids k) Hs Hka) as Hlt.
        cbn [fst] in Hlt. lia.
    + split.
      * unfold hitsOf in *. lia.
      * intros Hkin. apply hitsOf_positive in Hkin. contradiction.
Qed.

(** Three hits of track 4 and three of track 9: track 4. *)
Example track_of_most_hits_tie :
  TrueParticleIDFromTotalRecoHits (D := xreal)
    [[mkTrackIDE 9 (Fin 1)]; [mkTrackIDE 4 (Fin 2)]; [mkTrackIDE 9 (Fin 5)];
     [mkTrackIDE 4 (Fin 1)]; [mkTrackIDE 4 (Fin 1)]; [mkTrackIDE 9 (Fin 1)];
     [mkTrackIDE 7 (Fin 1)]]
  = 4%Z.
Proof.
  unfold TrueParticleIDFromTotalRecoHits, TrueParticleID, dgt.
  cbn. repeat rdecide. reflexivity.
Qed.

End MostHits.

(** *** A position inside the TPCs *)

Section Inside.

Local Open Scope R_scope.











End Inside.

End RecoUtilsProofs.
